(** * The animation evaluator and the anim component layer

    A shallow embedding of
      - src/anim/evaluator/anim-track.js     (AnimTrack, AnimData),
      - src/anim/evaluator/anim-snapshot.js  (AnimSnapshot),
      - src/framework/components/anim/component-layer.js (AnimComponentLayer)
    and the properties the specification states about them; and, beyond the
    specification, of
      - src/core/hash.js                      (hashCode),
      - src/vr/vr-manager.js, second document (createURI, URI),
      - src/scene/render.js                   (Render),
      - src/framework/components/layout-child/component.js
                                              (LayoutChildComponent).

    JavaScript objects live in a heap and are handed around by reference, so
    that sharing between a track and the snapshots bound to it is visible.
    JavaScript numbers are idealised as rationals ([Q]); NaN and the
    infinities are not represented. *)

From Stdlib Require Import ZArith QArith Lia Ascii.
From stdpp Require Import base tactics option list strings gmap.

Open Scope Z_scope.
Open Scope nat_scope.

(** ** JavaScript arrays *)

(** [xs[i]] for a JavaScript number [i]: [undefined] (here [None]) outside
    [0 .. length-1]. *)
Definition array_get {A} (xs : list A) (i : Z) : option A :=
  if decide (0 <= i)%Z then xs !! Z.to_nat i else None.

(** [xs[i] = v]: overwrites a cell in range and extends the array otherwise.
    Every indexed store in the sources happens in a loop that counts up from
    0 over an array that starts empty, so [i <= length xs] there and extending
    means appending one cell.  (A store further out would leave holes, which
    these typed arrays do not represent.) *)
Definition array_set {A} (i : nat) (v : A) (xs : list A) : list A :=
  if decide (i < length xs) then <[i:=v]> xs else xs ++ [v].

(** ** The collaborators of the evaluator that are not among the sources *)

(** Modelled from the spec: the interpolation mode of an AnimCurve
    (anim-curve.js and the constants are missing), "interpolation ∈ {Step,
    Linear, CubicSpline}". *)
Inductive interpolation :=
  | INTERPOLATION_STEP
  | INTERPOLATION_LINEAR
  | INTERPOLATION_CUBIC.

Global Instance interpolation_eq_dec : EqDecision interpolation.
Proof. solve_decision. Defined.

(** Modelled from the spec: the interface of AnimCache (anim-cache.js is
    missing).  [update(time, inputTimes)] repositions the cache, a mutable
    cursor, and [eval(resultBuffer, interpolationMode, outputData)] writes
    the values of the current bracket into the result buffer; the output
    AnimData is passed as its component count and its data.  The evaluator
    is verified against every implementation of this interface. *)
Class AnimCache (cache : Type) := {
  AnimCache_new : cache;
  AnimCache_update : Q -> list Q -> cache -> cache;
  AnimCache_eval : list Q -> interpolation -> Z -> list Q -> cache -> list Q
}.

(** Modelled from the spec: the AnimCache the spec describes (§4.2), as one
    implementation of the interface.  The cache "holds {lastQueryTime,
    bracketIndex}"; [eval] is not handed the input times, so the cache also
    keeps the two knot times of its bracket.  Choices where the spec is
    silent: a cache that has never been queried seeks (binary search); with
    fewer than two keys the bracket is [0] and a missing knot or sample
    reads as the left knot or as 0; the cubic layout is three tuples per key
    (in-tangent, value, out-tangent), the spec leaving it open (§9). *)
Record SpecCache := {
  lastQueryTime : option Q;
  bracketIndex : nat;
  leftKnot : Q;
  rightKnot : Q
}.

Definition SpecCache_new : SpecCache :=
  {| lastQueryTime := None; bracketIndex := 0; leftKnot := 0; rightKnot := 0 |}.

(** "inputs: [AnimData] (each sorted ascending, representing time)". *)
Fixpoint sorted_ascending (xs : list Q) : bool :=
  match xs with
  | a :: (b :: _) as tl => Qle_bool a b && sorted_ascending tl
  | _ => true
  end.

(** "scan from the cached index": step right while the next knot is not
    after [time]. *)
Fixpoint forward_scan (fuel : nat) (time : Q) (inputTimes : list Q) (i : nat) : nat :=
  match fuel with
  | O => i
  | S fuel' =>
      match inputTimes !! S i with
      | Some x => if Qle_bool x time then forward_scan fuel' time inputTimes (S i) else i
      | None => i
      end
  end.

(** "re-searches (binary search)": halve [lo, hi] keeping
    [inputTimes[lo] <= time < inputTimes[hi]]. *)
Fixpoint binary_search (fuel : nat) (time : Q) (inputTimes : list Q) (lo hi : nat) : nat :=
  match fuel with
  | O => lo
  | S fuel' =>
      if decide (hi - lo <= 1) then lo
      else
        let mid := (lo + hi) / 2 in
        match inputTimes !! mid with
        | Some x =>
            if Qle_bool x time then binary_search fuel' time inputTimes mid hi
            else binary_search fuel' time inputTimes lo mid
        | None => lo
        end
  end.

(** [i] is the bracket of [time]: [inputTimes[i] <= time < inputTimes[i+1]]. *)
Definition is_bracket (inputTimes : list Q) (time : Q) (i : nat) : Prop :=
  ∃ a b, inputTimes !! i = Some a ∧ inputTimes !! S i = Some b ∧
         (a <= time)%Q ∧ ¬ (b <= time)%Q.

(** The bracket [[i, i+1)] for [time]: "clamps at both ends (time ≤ first →
    index 0; time ≥ last → index n-2)"; otherwise a forward scan from the
    cached index, or a new search "if time moves backward past the cached
    bracket". *)
Definition locate (time : Q) (inputTimes : list Q) (c : SpecCache) : nat :=
  let n := length inputTimes in
  match inputTimes !! 0, inputTimes !! (n - 1) with
  | Some first, Some last =>
      if Qle_bool time first then 0
      else if Qle_bool last time then n - 2
      else
        match lastQueryTime c, inputTimes !! bracketIndex c with
        | Some _, Some cached =>
            if Qle_bool cached time
            then forward_scan n time inputTimes (bracketIndex c)
            else binary_search n time inputTimes 0 (n - 1)
        | _, _ => binary_search n time inputTimes 0 (n - 1)
        end
  | _, _ => 0
  end.

Definition SpecCache_update (time : Q) (inputTimes : list Q) (c : SpecCache) : SpecCache :=
  let i := locate time inputTimes c in
  let t0 := default 0%Q (inputTimes !! i) in
  {| lastQueryTime := Some time;
     bracketIndex := i;
     leftKnot := t0;
     rightKnot := default t0 (inputTimes !! S i) |}.

(** "Fraction t = (time - t0)/(t1 - t0); if t1 == t0, treat t = 0", with the
    time clamped into the bracket at the two ends of the curve. *)
Definition fraction (c : SpecCache) : Q :=
  let t0 := leftKnot c in
  let t1 := rightKnot c in
  if Qeq_bool t1 t0 then 0%Q
  else
    let time := default t0 (lastQueryTime c) in
    let time := if Qle_bool time t0 then t0 else if Qle_bool t1 time then t1 else time in
    Qred ((time - t0) / (t1 - t0)).

Definition lerp (a b t : Q) : Q := Qred (a + (b - a) * t).

(** Cubic Hermite spline on one component: values [p0], [p1], tangents [m0],
    [m1] scaled by the length of the bracket. *)
Definition hermite (p0 m0 p1 m1 t : Q) : Q :=
  let t2 := (t * t)%Q in
  let t3 := (t2 * t)%Q in
  Qred ((2 * t3 - 3 * t2 + 1) * p0 + (t3 - 2 * t2 + t) * m0
        + (3 * t2 - 2 * t3) * p1 + (t3 - t2) * m1).

(** The value of component [j] for the current bracket. *)
Definition sample (mode : interpolation) (components : nat) (data : list Q)
    (c : SpecCache) (j : nat) : Q :=
  let i := bracketIndex c in
  let at_ k := default 0%Q (data !! k) in
  match mode with
  | INTERPOLATION_STEP => at_ (i * components + j)
  | INTERPOLATION_LINEAR =>
      lerp (at_ (i * components + j)) (at_ (S i * components + j)) (fraction c)
  | INTERPOLATION_CUBIC =>
      let span := (rightKnot c - leftKnot c)%Q in
      hermite (at_ ((3 * i + 1) * components + j))
              (span * at_ ((3 * i + 2) * components + j))
              (at_ ((3 * S i + 1) * components + j))
              (span * at_ ((3 * S i) * components + j))
              (fraction c)
  end.

(** "writes [components] values into [resultBuffer] for the current
    bracket": [result[j] = ...] for [j = 0 .. components-1]. *)
Definition SpecCache_eval (result : list Q) (mode : interpolation)
    (components : Z) (data : list Q) (c : SpecCache) : list Q :=
  foldl (fun r j => array_set j (sample mode (Z.to_nat components) data c j) r)
        result (seq 0 (Z.to_nat components)).

Global Instance SpecCache_AnimCache : AnimCache SpecCache := {
  AnimCache_new := SpecCache_new;
  AnimCache_update := SpecCache_update;
  AnimCache_eval := SpecCache_eval
}.

(** A query on a fresh cache: the value of a one-curve track at [time]. *)
Definition cold_eval (mode : interpolation) (components : Z)
    (inputTimes data : list Q) (time : Q) : list Q :=
  SpecCache_eval [] mode components data (SpecCache_update time inputTimes SpecCache_new).

(** Modelled from the spec: an animation event (anim-events.js is missing),
    "events: ordered sequence of (time, payload)". *)
Definition AnimEvent : Type := Q * string.

(** ** Effects: a state and exception monad *)

(** The only exception the modelled code can raise: using [undefined] or
    [null] (a missing cell, or a property that an object of another class
    does not have) as an object. *)
Inductive exn := TypeError.

Inductive outcome (A : Type) :=
  | Ok (a : A)
  | Throw (e : exn).
Arguments Ok {A} a.
Arguments Throw {A} e.

(** Computations on a state [St].  An exception keeps the writes made so
    far, as in JavaScript. *)
Definition M (St A : Type) : Type := St -> outcome A * St.

Definition ret {St A} (a : A) : M St A := fun h => (Ok a, h).
Definition throw {St A} (e : exn) : M St A := fun h => (Throw e, h).
Definition bind {St A B} (m : M St A) (k : A -> M St B) : M St B :=
  fun h => match m h with
           | (Ok a, h') => k a h'
           | (Throw e, h') => (Throw e, h')
           end.

Notation "'let!' x ':=' m 'in' k" := (bind m (fun x => k))
  (at level 10, x name, m at level 100, k at level 200).
Notation "'do!' m 'in' k" := (bind m (fun _ => k))
  (at level 10, m at level 100, k at level 200).

Definition defined {St A} (o : option A) : M St A :=
  match o with Some a => ret a | None => throw TypeError end.

(** [for (let i = 0; i < n; ++i) body(i)] *)
Fixpoint for_each {St A} (body : A -> M St unit) (ixs : list A) : M St unit :=
  match ixs with
  | [] => ret tt
  | i :: ixs' => do! body i in for_each body ixs'
  end.
Definition for_range {St} (n : nat) (body : nat -> M St unit) : M St unit :=
  for_each body (seq 0 n).

(** ** The heap *)

Abbreviation loc := nat.

Section Evaluator.
Context {cache : Type} `{!AnimCache cache}.

(** One constructor per class of object the evaluator touches; the fields are
    the ones the constructors of the sources assign.  AnimCurve is read by
    the sources through [_input], [_output] and [_interpolation] only. *)
Inductive object :=
  | ObjNumbers (xs : list Q)                    (* number[] or Float32Array *)
  | ObjRefs (rs : list loc)                     (* an array of objects *)
  | ObjAnimData (_components : Z) (_data : loc)
  | ObjAnimCurve (_input _output : Z) (_interpolation : interpolation)
  | ObjAnimEvents (events : list AnimEvent)
  | ObjAnimTrack (_name : string) (_duration : Q)
                 (_inputs _outputs _curves _animEvents : loc)
  | ObjAnimCache (c : cache)
  | ObjAnimSnapshot (_name : string) (_time : Q) (_cache _results : loc).

(** A heap is an arena of objects; a location is an index into it. *)
Local Abbreviation heap := (list object).

Definition alloc (o : object) : M heap loc := fun h => (Ok (length h), h ++ [o]).
Definition store (l : loc) (o : object) : M heap unit := fun h => (Ok tt, <[l:=o]> h).
Definition load (l : loc) : M heap (option object) := fun h => (Ok (h !! l), h).

(** Typed reads: the object at [l] seen as an instance of one class. *)
Definition as_numbers (o : option object) : option (list Q) :=
  match o with Some (ObjNumbers xs) => Some xs | _ => None end.
Definition as_refs (o : option object) : option (list loc) :=
  match o with Some (ObjRefs rs) => Some rs | _ => None end.
Definition as_data (o : option object) : option (Z * loc) :=
  match o with Some (ObjAnimData c d) => Some (c, d) | _ => None end.
Definition as_curve (o : option object) : option (Z * Z * interpolation) :=
  match o with Some (ObjAnimCurve i o m) => Some (i, o, m) | _ => None end.
Definition as_cache (o : option object) : option cache :=
  match o with Some (ObjAnimCache c) => Some c | _ => None end.

Definition is_cache (o : object) : Prop :=
  match o with ObjAnimCache _ => True | _ => False end.
Definition is_numbers (o : object) : Prop :=
  match o with ObjNumbers _ => True | _ => False end.

Definition load_numbers (l : loc) : M heap (list Q) := let! o := load l in defined (as_numbers o).
Definition load_refs (l : loc) : M heap (list loc) := let! o := load l in defined (as_refs o).
Definition load_data (l : loc) : M heap (Z * loc) := let! o := load l in defined (as_data o).
Definition load_curve (l : loc) : M heap (Z * Z * interpolation) :=
  let! o := load l in defined (as_curve o).
Definition load_cache (l : loc) : M heap cache := let! o := load l in defined (as_cache o).

(** ** AnimData (anim-track.js, second document) *)

(** [new AnimData(components, data)]: the constructor assigns the two fields
    and does nothing else. *)
Definition AnimData_new (components : Z) (data : loc) : M heap loc :=
  alloc (ObjAnimData components data).

Definition AnimData_components (this : loc) : M heap Z :=
  let! d := load_data this in ret (fst d).
Definition AnimData_data (this : loc) : M heap loc :=
  let! d := load_data this in ret (snd d).

(** ** AnimTrack (anim-track.js) *)

Record track_fields := TrackFields {
  t_name : string; t_duration : Q;
  t_inputs : loc; t_outputs : loc; t_curves : loc; t_animEvents : loc
}.

Definition as_track (o : option object) : option track_fields :=
  match o with
  | Some (ObjAnimTrack n d i o c e) => Some (TrackFields n d i o c e)
  | _ => None
  end.
Definition load_track (l : loc) : M heap track_fields := let! o := load l in defined (as_track o).

(** [new AnimTrack(name, duration, inputs, outputs, curves, animEvents)],
    where a missing [animEvents] defaults to [new AnimEvents([])]. *)
Definition AnimTrack_new (name : string) (duration : Q)
    (inputs outputs curves : loc) (animEvents : option loc) : M heap loc :=
  let! ev := match animEvents with
        | Some e => ret e
        | None => alloc (ObjAnimEvents [])
        end in
  alloc (ObjAnimTrack name duration inputs outputs curves ev).

Definition AnimTrack_name (this : loc) : M heap string := let! t := load_track this in ret (t_name t).
Definition AnimTrack_duration (this : loc) : M heap Q := let! t := load_track this in ret (t_duration t).
Definition AnimTrack_inputs (this : loc) : M heap loc := let! t := load_track this in ret (t_inputs t).
Definition AnimTrack_outputs (this : loc) : M heap loc := let! t := load_track this in ret (t_outputs t).
Definition AnimTrack_curves (this : loc) : M heap loc := let! t := load_track this in ret (t_curves t).

(** [get events() { return this._animEvents.events; }] *)
Definition AnimTrack_events (this : loc) : M heap (list AnimEvent) :=
  let! t := load_track this in
  let! o := load (t_animEvents t) in
  match o with
  | Some (ObjAnimEvents evs) => ret evs
  | _ => throw TypeError
  end.

(** [set events(animEvents) { this._animEvents = animEvents; }] *)
Definition AnimTrack_set_events (this : loc) (animEvents : loc) : M heap unit :=
  let! t := load_track this in
  store this (ObjAnimTrack (t_name t) (t_duration t) (t_inputs t)
                           (t_outputs t) (t_curves t) animEvents).

Record snapshot_fields := SnapshotFields {
  s_name : string; s_time : Q; s_cache : loc; s_results : loc
}.

Definition as_snapshot (o : option object) : option snapshot_fields :=
  match o with
  | Some (ObjAnimSnapshot n t c r) => Some (SnapshotFields n t c r)
  | _ => None
  end.
Definition load_snapshot (l : loc) : M heap snapshot_fields :=
  let! o := load l in defined (as_snapshot o).

(** [eval(time, snapshot)]:

      snapshot._time = time;
      for (i < inputs.length)  cache[i].update(time, inputs[i]._data);
      for (i < curves.length)  cache[curve._input].eval(results[i],
                                   curve._interpolation, outputs[curve._output]);

    The loop bounds are read once: the loop bodies write cache objects and
    number arrays only, never the arrays [inputs] and [curves]. *)
Definition AnimTrack_eval (this : loc) (time : Q) (snapshot : loc) : M heap unit :=
  let! s := load_snapshot snapshot in
  do! store snapshot (ObjAnimSnapshot (s_name s) time (s_cache s) (s_results s)) in
  let! t := load_track this in
  let inputs := t_inputs t in
  let outputs := t_outputs t in
  let curves := t_curves t in
  let cache := s_cache s in
  let results := s_results s in
  (* evaluate inputs *)
  let! n := (let! ins := load_refs inputs in ret (length ins)) in
  do! for_range n (fun i =>
    let! cs := load_refs cache in
    let! c := defined (cs !! i) in
    let! co := load_cache c in
    let! ins := load_refs inputs in
    let! input := defined (ins !! i) in
    let! d := load_data input in
    let! xs := load_numbers (snd d) in
    store c (ObjAnimCache (AnimCache_update time xs co))) in
  (* evaluate outputs *)
  let! m := (let! cs := load_refs curves in ret (length cs)) in
  for_range m (fun i =>
    let! cvs := load_refs curves in
    let! cv := defined (cvs !! i) in
    let! curve := load_curve cv in
    let '(c_input, c_output, c_interpolation) := curve in
    let! os := load_refs outputs in
    let output := array_get os c_output in
    let! rs := load_refs results in
    let result := rs !! i in
    let! cs := load_refs cache in
    let! c := defined (array_get cs c_input) in
    let! co := load_cache c in
    (* inside AnimCache.eval: output and result are used as objects *)
    let! out := defined output in
    let! d := load_data out in
    let! ys := load_numbers (snd d) in
    let! res := defined result in
    let! buf := load_numbers res in
    store res (ObjNumbers (AnimCache_eval buf c_interpolation (fst d) ys co))).

(** ** AnimSnapshot (anim-snapshot.js) *)

(** [new AnimSnapshot(animTrack)].  The arrays [_cache] and [_results] start
    empty and are filled cell by cell; the snapshot object is in the heap
    before the loops run, as [this] is in the source. *)
Definition AnimSnapshot_new (animTrack : loc) : M heap loc :=
  let! name := AnimTrack_name animTrack in
  let! cache := alloc (ObjRefs []) in
  let! results := alloc (ObjRefs []) in
  let! this := alloc (ObjAnimSnapshot (name ++ "Snapshot") (-1) cache results) in
  let! t := load_track animTrack in
  (* pre-allocate input caches *)
  let! n := (let! ins := load_refs (t_inputs t) in ret (length ins)) in
  do! for_range n (fun i =>
    let! c := alloc (ObjAnimCache AnimCache_new) in
    let! cs := load_refs cache in
    store cache (ObjRefs (array_set i c cs))) in
  (* pre-allocate storage for evaluation results *)
  let curves := t_curves t in
  let outputs := t_outputs t in
  let! m := (let! cs := load_refs curves in ret (length cs)) in
  do! for_range m (fun i =>
    let! cvs := load_refs curves in
    let! cv := defined (cvs !! i) in
    let! curve := load_curve cv in
    let! os := load_refs outputs in
    let output := array_get os (snd (fst curve)) in
    let! storage := alloc (ObjNumbers []) in
    (* the loop condition reads output._components *)
    let! out := defined output in
    let! d := load_data out in
    do! for_range (Z.to_nat (fst d)) (fun j =>
      let! xs := load_numbers storage in
      store storage (ObjNumbers (array_set j 0%Q xs))) in
    let! rs := load_refs results in
    store results (ObjRefs (array_set i storage rs))) in
  ret this.

(** ** What the heap denotes *)

(** An AnimData seen by value: its component count and its numbers. *)
Definition view_data (h : heap) (l : loc) : option (Z * list Q) :=
  d ← as_data (h !! l); xs ← as_numbers (h !! d.2); Some (d.1, xs).

Definition as_events (o : option object) : option (list AnimEvent) :=
  match o with Some (ObjAnimEvents evs) => Some evs | _ => None end.

Record track_view := TrackView {
  tv_name : string;
  tv_duration : Q;
  tv_inputs : list (Z * list Q);
  tv_outputs : list (Z * list Q);
  tv_curves : list (Z * Z * interpolation);
  tv_events : list AnimEvent
}.

(** Everything an AnimTrack refers to, read through the heap. *)
Definition view_track (h : heap) (tr : loc) : option track_view :=
  t ← as_track (h !! tr);
  ins ← as_refs (h !! t_inputs t); inputs ← mapM (view_data h) ins;
  outs ← as_refs (h !! t_outputs t); outputs ← mapM (view_data h) outs;
  cvs ← as_refs (h !! t_curves t); curves ← mapM (λ l, as_curve (h !! l)) cvs;
  evs ← as_events (h !! t_animEvents t);
  Some (TrackView (t_name t) (t_duration t) inputs outputs curves evs).

(** The locations a track is made of: the track, its three arrays, its
    events, its AnimData and AnimCurve objects and their number arrays. *)
Definition track_footprint (h : heap) (tr : loc) : option (list loc) :=
  t ← as_track (h !! tr);
  ins ← as_refs (h !! t_inputs t); din ← mapM (λ l, snd <$> as_data (h !! l)) ins;
  outs ← as_refs (h !! t_outputs t); dout ← mapM (λ l, snd <$> as_data (h !! l)) outs;
  cvs ← as_refs (h !! t_curves t);
  Some (tr :: t_inputs t :: t_outputs t :: t_curves t :: t_animEvents t
           :: ins ++ din ++ outs ++ dout ++ cvs).

(** "Indices reference positions in the owning track's input/output pools". *)
Definition curve_in_range (tv : track_view) (curve : Z * Z * interpolation) : Prop :=
  (0 <= curve.1.1 < Z.of_nat (length (tv_inputs tv)))%Z ∧
  (0 <= curve.1.2 < Z.of_nat (length (tv_outputs tv)))%Z.

Definition track_ok (h : heap) (tr : loc) (tv : track_view) : Prop :=
  view_track h tr = Some tv ∧ Forall (curve_in_range tv) (tv_curves tv).

Record snapshot_view := SnapshotView {
  sv_name : string;
  sv_time : Q;
  sv_cache : list cache;
  sv_results : list (list Q)
}.

(** Everything an AnimSnapshot refers to, read through the heap. *)
Definition view_snapshot (h : heap) (s : loc) : option snapshot_view :=
  f ← as_snapshot (h !! s);
  cs ← as_refs (h !! s_cache f); caches ← mapM (λ l, as_cache (h !! l)) cs;
  bs ← as_refs (h !! s_results f); bufs ← mapM (λ l, as_numbers (h !! l)) bs;
  Some (SnapshotView (s_name f) (s_time f) caches bufs).

(** The locations a snapshot is made of: the snapshot, its two arrays, its
    caches and its result buffers. *)
Definition snapshot_footprint (h : heap) (s : loc) : option (list loc) :=
  f ← as_snapshot (h !! s);
  cs ← as_refs (h !! s_cache f);
  bs ← as_refs (h !! s_results f);
  Some (s :: s_cache f :: s_results f :: cs ++ bs).

(** A snapshot bound to a track: it has one cache per input and one buffer
    per curve, and it owns them: no location is used twice in the snapshot
    and none belongs to the track. *)
Definition bound (h : heap) (tr s : loc) : Prop :=
  ∃ tv sv fs ft,
    view_track h tr = Some tv ∧ view_snapshot h s = Some sv ∧
    snapshot_footprint h s = Some fs ∧ track_footprint h tr = Some ft ∧
    length (sv_cache sv) = length (tv_inputs tv) ∧
    length (sv_results sv) = length (tv_curves tv) ∧
    NoDup fs ∧ (∀ l, l ∈ fs → l ∉ ft).

(** ** What [eval] is said to do, on views *)

(** "for every curve writes the interpolated components into that curve's
    result buffer using cache[curve.input], curve.interpolation and
    outputs[curve.output]". *)
Definition eval_curve (caches : list cache) (outputs : list (Z * list Q))
    (curve : Z * Z * interpolation) (result : list Q) : list Q :=
  match array_get caches curve.1.1, array_get outputs curve.1.2 with
  | Some c, Some output => AnimCache_eval result curve.2 output.1 output.2 c
  | _, _ => result
  end.

(** "first calls update(t, inputs[i].data) on the snapshot's cache for every
    input index i, then for every curve writes ..., and records t as the
    snapshot's last evaluated time". *)
Definition eval_spec (time : Q) (tv : track_view) (sv : snapshot_view) : snapshot_view :=
  let caches := zip_with (λ c input, AnimCache_update time input.2 c)
                         (sv_cache sv) (tv_inputs tv) in
  let results := zip_with (eval_curve caches (tv_outputs tv))
                          (tv_curves tv) (sv_results sv) in
  SnapshotView (sv_name sv) time caches results.

(** What [new AnimSnapshot(track)] is said to build: a fresh cache per input
    and a buffer of zeros per curve, as long as the output's component
    count. *)
Definition fresh_snapshot (tv : track_view) : snapshot_view :=
  SnapshotView (tv_name tv ++ "Snapshot") (-1)
    (replicate (length (tv_inputs tv)) AnimCache_new)
    ((λ curve : Z * Z * interpolation,
        match array_get (tv_outputs tv) curve.1.2 with
        | Some output => replicate (Z.to_nat output.1) 0%Q
        | None => []
        end) <$> tv_curves tv).

(** ** Histories of one track *)


(** The operations that bind snapshots to a track and evaluate them: create
    a snapshot, or evaluate the track into the [k]-th snapshot created. *)
Inductive operation :=
  | NewSnapshot
  | EvalSnapshot (k : nat) (time : Q).

Definition perform (tr : loc) (st : heap * list loc) (op : operation) : heap * list loc :=
  match op with
  | NewSnapshot =>
      match AnimSnapshot_new tr st.1 with
      | (Ok s, h') => (h', st.2 ++ [s])
      | (Throw _, h') => (h', st.2)
      end
  | EvalSnapshot k time =>
      match st.2 !! k with
      | Some s => ((AnimTrack_eval tr time s st.1).2, st.2)
      | None => st
      end
  end.

Definition history (tr : loc) (h : heap) (ops : list operation) : heap * list loc :=
  foldl (perform tr) (h, []) ops.

(** The invariant of a history: the track is as it was, every snapshot
    created is bound to it, and no two of them share a location. *)
Definition history_inv (tr : loc) (tv : track_view) (st : heap * list loc) : Prop :=
  track_ok st.1 tr tv ∧
  (∀ k s, st.2 !! k = Some s → bound st.1 tr s) ∧
  (∀ i j A B fa fb, i ≠ j → st.2 !! i = Some A → st.2 !! j = Some B →
     snapshot_footprint st.1 A = Some fa → snapshot_footprint st.1 B = Some fb →
     ∀ l, l ∈ fa → l ∉ fb).

End Evaluator.

Abbreviation heap := (list object).

(** ** A small track, to run the model on *)

(** The end-to-end track of the spec (§8): duration 1, one linear curve over
    input [0, 0.5, 1] and output [0, 1, 0]; and a second AnimEvents object
    that is not the track's. *)
Definition example_heap : list (@object SpecCache) :=
  [ ObjNumbers [0; 1#2; 1]%Q;                  (* 0: the key times *)
    ObjNumbers [0; 1; 0]%Q;                    (* 1: the key values *)
    ObjAnimData 1 0;                           (* 2: new AnimData(1, times) *)
    ObjAnimData 1 1;                           (* 3: new AnimData(1, values) *)
    ObjAnimCurve 0 0 INTERPOLATION_LINEAR;     (* 4 *)
    ObjRefs [2];                               (* 5: inputs *)
    ObjRefs [3];                               (* 6: outputs *)
    ObjRefs [4];                               (* 7: curves *)
    ObjAnimEvents [];                          (* 8: new AnimEvents([]) *)
    ObjAnimTrack "walk" 1 5 6 7 8;             (* 9: the track *)
    ObjAnimEvents [((1#2)%Q, "step")] ].       (* 10 *)

Definition example_track : loc := 9.

(** The example heap after [new AnimSnapshot(track)]: the snapshot is 13, its
    arrays are 11 and 12, its cache is 14 and its result buffer is 15. *)
Definition example_bound_heap : list (@object SpecCache) :=
  (AnimSnapshot_new example_track example_heap).2.

(** The example track corrupted: its curve refers to input 3 or to output 7,
    which do not exist. *)
Definition corrupted_input_heap : list (@object SpecCache) :=
  <[4:=ObjAnimCurve 3 0 INTERPOLATION_LINEAR]> example_heap.
Definition corrupted_output_heap : list (@object SpecCache) :=
  <[4:=ObjAnimCurve 0 7 INTERPOLATION_LINEAR]> example_heap.

Definition example_view : track_view :=
  TrackView "walk" 1 [(1%Z, [0; 1#2; 1]%Q)] [(1%Z, [0; 1; 0]%Q)]
            [(0%Z, 0%Z, INTERPOLATION_LINEAR)] [].


(** ** The anim component layer (component-layer.js) *)

(** The values user code hands to the layer.  An object carries the
    constructor that made it, which is what [v.constructor] reads (an own
    [constructor] property that shadows it is not modelled). *)
Inductive js_constructor :=
  | CtorAnimTrack
  | CtorObject
  | CtorArray
  | CtorBoolean
  | CtorNumber
  | CtorString
  | CtorOther (name : string).

Global Instance js_constructor_eq_dec : EqDecision js_constructor.
Proof. solve_decision. Defined.

Global Instance Q_eq_dec : EqDecision Q.
Proof. solve_decision. Defined.

Inductive value :=
  | VUndefined
  | VNull
  | VBoolean (b : bool)
  | VNumber (q : Q)
  | VString (s : string)
  | VObject (ctor : js_constructor) (ref : loc).

Global Instance value_eq_dec : EqDecision value.
Proof. solve_decision. Defined.

(** [v.constructor]: reading a property of [undefined] or [null] raises a
    TypeError; a primitive is boxed. *)
Definition get_constructor (v : value) : option js_constructor :=
  match v with
  | VUndefined | VNull => None
  | VBoolean _ => Some CtorBoolean
  | VNumber _ => Some CtorNumber
  | VString _ => Some CtorString
  | VObject c _ => Some c
  end.

(** An AnimTrack is an object made by [new AnimTrack(...)]. *)
Definition is_AnimTrack (v : value) : Prop :=
  ∃ ref, v = VObject CtorAnimTrack ref.

(** Modelled from the spec: AnimTransition (anim-transition.js is missing),
    "{from, to, duration, transitionOffset∈[0,1]|null}"; the record holds
    the options the layer passes to [new AnimTransition({...})], a missing
    option being [None]. *)
Record AnimTransition := {
  transition_from : string;
  transition_to : string;
  transition_time : option Q;
  transition_offset : option Q
}.

(** What lies outside the layer: its controller and the component that owns
    it (anim-controller.js and anim/component.js are missing).  The layer
    reads and pushes onto the controller's [_transitions] array, which is
    therefore kept apart from the rest of their state [E]. *)
Record outside (E : Type) := Outside {
  _transitions : list AnimTransition;
  hidden : E
}.
Arguments Outside {E} _ _.
Arguments _transitions {E} _.
Arguments hidden {E} _.

(** Modelled from the spec: the members of the controller and of the
    component the layer uses, as state transformers; [assignMask] "returns
    whether the channel set changed".  The layer is verified against every
    implementation of this interface. *)
Class Collaborators (E : Type) := {
  controller_assignMask : value -> outside E -> bool * outside E;
  controller_assignAnimation : string -> value -> value -> value -> outside E -> outside E;
  component_rebind : outside E -> outside E;
  component_dirtifyTargets : outside E -> outside E;
  component_activate : outside E -> bool;
  component_playable : outside E -> bool;
  component_set_playing : bool -> outside E -> outside E
}.

(** The calls the layer makes to its collaborators and to [Debug]. *)
Inductive call :=
  | Call_controller_assignMask (mask : value)
  | Call_controller_assignAnimation (nodePath : string) (animTrack speed loop : value)
  | Call_component_rebind
  | Call_component_dirtifyTargets
  | Call_component_set_playing (playing : bool)
  | Call_Debug_error (message : string).

Definition is_controller_call (c : call) : bool :=
  match c with
  | Call_controller_assignMask _ | Call_controller_assignAnimation _ _ _ _ => true
  | _ => false
  end.

Global Instance call_is_rebind_dec (c : call) : Decision (c = Call_component_rebind).
Proof. destruct c; (by left) || (by right). Defined.

Section Layer.
Context {E : Type} `{!Collaborators E}.

(** The fields of an AnimComponentLayer, what lies outside it, and the calls
    made so far. *)
Record AnimComponentLayer := Layer {
  _name : string;
  _weight : Q;
  _blendType : string;
  _mask : value;
  world : outside E;
  calls : list call
}.

Definition with_weight (v : Q) (l : AnimComponentLayer) : AnimComponentLayer :=
  Layer (_name l) v (_blendType l) (_mask l) (world l) (calls l).
Definition with_blendType (v : string) (l : AnimComponentLayer) : AnimComponentLayer :=
  Layer (_name l) (_weight l) v (_mask l) (world l) (calls l).
Definition with_mask (v : value) (l : AnimComponentLayer) : AnimComponentLayer :=
  Layer (_name l) (_weight l) (_blendType l) v (world l) (calls l).
Definition with_world (w : outside E) (l : AnimComponentLayer) : AnimComponentLayer :=
  Layer (_name l) (_weight l) (_blendType l) (_mask l) w (calls l).
Definition with_call (c : call) (l : AnimComponentLayer) : AnimComponentLayer :=
  Layer (_name l) (_weight l) (_blendType l) (_mask l) (world l) (calls l ++ [c]).

Definition get {A} (f : AnimComponentLayer -> A) : M AnimComponentLayer A :=
  fun l => (Ok (f l), l).
Definition modify (f : AnimComponentLayer -> AnimComponentLayer) : M AnimComponentLayer unit :=
  fun l => (Ok tt, f l).

(** A call to a method of the controller or of the component. *)
Definition invoke {A} (c : call) (f : outside E -> A * outside E) : M AnimComponentLayer A :=
  fun l => let r := f (world l) in (Ok r.1, with_world r.2 (with_call c l)).
Definition invoke_ (c : call) (f : outside E -> outside E) : M AnimComponentLayer unit :=
  invoke c (fun w => (tt, f w)).

(** [Debug.error(message)] reports and returns (debug.js is missing). *)
Definition Debug_error (message : string) : M AnimComponentLayer unit :=
  modify (with_call (Call_Debug_error message)).

(** [constructor(name, controller, component, weight = 1, blendType =
    ANIM_LAYER_OVERWRITE)]; the constant is missing and passed in. *)
Definition AnimComponentLayer_new (name : string) (outer : outside E)
    (weight : option Q) (blendType : option string) (ANIM_LAYER_OVERWRITE : string)
    : AnimComponentLayer :=
  Layer name (default 1%Q weight) (default ANIM_LAYER_OVERWRITE blendType) VNull outer [].

(** [set weight(value) { this._weight = value; this._component.dirtifyTargets(); }] *)
Definition set_weight (v : Q) : M AnimComponentLayer unit :=
  do! modify (with_weight v) in
  invoke_ Call_component_dirtifyTargets component_dirtifyTargets.

Definition get_weight : M AnimComponentLayer Q := get _weight.

(** [set blendType(value) { if (value !== this._blendType) { this._blendType
    = value; this._component.rebind(); } }] *)
Definition set_blendType (v : string) : M AnimComponentLayer unit :=
  let! current := get _blendType in
  if decide (v ≠ current) then
    do! modify (with_blendType v) in
    invoke_ Call_component_rebind component_rebind
  else ret tt.

Definition get_blendType : M AnimComponentLayer string := get _blendType.

(** [get mask() { return this._mask; }] *)
Definition get_mask : M AnimComponentLayer value := get _mask.

(** [assignMask(mask) { if (this._controller.assignMask(mask)) {
    this._component.rebind(); } this._mask = mask; }] *)
Definition assignMask (mask : value) : M AnimComponentLayer unit :=
  let! changed := invoke (Call_controller_assignMask mask) (controller_assignMask mask) in
  do! (if changed : bool
       then invoke_ Call_component_rebind component_rebind
       else ret tt) in
  modify (with_mask mask).

(** [assignAnimation(nodePath, animTrack, speed, loop)]:

      if (animTrack.constructor !== AnimTrack) { Debug.error(...); return; }
      this._controller.assignAnimation(nodePath, animTrack, speed, loop);
      if (this._controller._transitions.length === 0)
          this._controller._transitions.push(
              new AnimTransition({ from: 'START', to: nodePath }));
      if (this._component.activate && this._component.playable)
          this._component.playing = true;
*)
Definition assignAnimation (nodePath : string) (animTrack speed loop : value)
    : M AnimComponentLayer unit :=
  let! ctor := defined (get_constructor animTrack) in
  if decide (ctor ≠ CtorAnimTrack) then
    Debug_error "assignAnimation: animTrack supplied to function was not of type AnimTrack"
  else
    do! invoke_ (Call_controller_assignAnimation nodePath animTrack speed loop)
                (controller_assignAnimation nodePath animTrack speed loop) in
    let! ts := get (fun l => _transitions (world l)) in
    do! (if decide (length ts = 0) then
           modify (fun l => with_world
             (Outside (_transitions (world l)
                         ++ [{| transition_from := "START"; transition_to := nodePath;
                                transition_time := None; transition_offset := None |}])
                      (hidden (world l))) l)
         else ret tt) in
    let! activate := get (fun l => component_activate (world l)) in
    let! playable := get (fun l => component_playable (world l)) in
    if activate && playable then
      invoke_ (Call_component_set_playing true) (component_set_playing true)
    else ret tt.

(** The calls to the owning component's [rebind] among [cs]. *)
Definition rebinds (cs : list call) : nat :=
  length (filter (fun c => c = Call_component_rebind) cs).

(** The calls made to the controller among [cs]. *)
Definition controller_calls (cs : list call) : list call :=
  filter (fun c => is_controller_call c = true) cs.

End Layer.

Arguments AnimComponentLayer E : clear implicits.

(** A small controller and component, to run the layer on: they remember
    the mask, the tracks bound to node paths, whether the component
    activates and whether it plays. *)
Record toy_state := Toy {
  toy_mask : value;
  toy_bindings : list (string * value);
  toy_activate : bool;
  toy_playing : bool;
  toy_rebinds : nat
}.

Global Instance toy_collaborators : Collaborators toy_state := {
  controller_assignMask mask w :=
    let t := hidden w in
    (bool_decide (mask ≠ toy_mask t),
     Outside (_transitions w)
       (Toy mask (toy_bindings t) (toy_activate t) (toy_playing t) (toy_rebinds t)));
  controller_assignAnimation nodePath animTrack speed loop w :=
    let t := hidden w in
    Outside (_transitions w)
      (Toy (toy_mask t) ((nodePath, animTrack) :: toy_bindings t)
           (toy_activate t) (toy_playing t) (toy_rebinds t));
  component_rebind w :=
    let t := hidden w in
    Outside (_transitions w)
      (Toy (toy_mask t) (toy_bindings t) (toy_activate t) (toy_playing t) (S (toy_rebinds t)));
  component_dirtifyTargets w := w;
  component_activate w := toy_activate (hidden w);
  component_playable w := bool_decide (toy_bindings (hidden w) ≠ []);
  component_set_playing playing w :=
    let t := hidden w in
    Outside (_transitions w)
      (Toy (toy_mask t) (toy_bindings t) (toy_activate t) playing (toy_rebinds t))
}.

(** A layer over them: nothing bound, no transition, blend type
    'overwrite'. *)
Definition example_layer : AnimComponentLayer toy_state :=
  AnimComponentLayer_new "base" (Outside [] (Toy VNull [] true false 0))
                         None None "overwrite".

(** ** More about the evaluator *)

Section EvaluatorViews.
Context {cache : Type} `{!AnimCache cache}.

(** What evaluation may do to an object: rewrite the numbers of an array,
    the state of a cache, the time of a snapshot.  Everything else stays. *)
Definition same_shape (o o' : @object cache) : Prop :=
  match o, o' with
  | ObjNumbers _, ObjNumbers _ => True
  | ObjAnimCache _, ObjAnimCache _ => True
  | ObjAnimSnapshot n _ c r, ObjAnimSnapshot n' _ c' r' => n = n' ∧ c = c' ∧ r = r'
  | _, _ => o = o'
  end.

(** A history on views: what the snapshots of a history are said to hold. *)
Definition replay (tv : track_view) (svs : list (@snapshot_view cache)) (op : operation)
    : list snapshot_view :=
  match op with
  | NewSnapshot => svs ++ [fresh_snapshot tv]
  | EvalSnapshot k time => alter (eval_spec time tv) k svs
  end.

Definition history_views (tv : track_view) (ops : list operation) : list snapshot_view :=
  foldl (replay tv) [] ops.

End EvaluatorViews.

(** ** hashCode (core/hash.js) *)

(** A JavaScript string: its UTF-16 code units. *)
Abbreviation jsstring := (list N).

(** ToInt32 on an integer: wrap into [-2^31, 2^31). *)
Definition to_int32 (z : Z) : Z := ((z + 2 ^ 31) mod 2 ^ 32 - 2 ^ 31)%Z.

(** [a << n] and [a | b] on integers: both operands go through ToInt32 (the
    shift count is taken modulo 32) and so does the result. *)
Definition shl32 (a n : Z) : Z := to_int32 (Z.shiftl (to_int32 a) (n mod 32)).
Definition or32 (a b : Z) : Z := to_int32 (Z.lor (to_int32 a) (to_int32 b)).

(** [hashCode(str)]:

      let hash = 0;
      for (let i = 0, len = str.length; i < len; i++) {
          hash = ((hash << 5) - hash) + str.charCodeAt(i);
          hash |= 0;
      }
      return hash;

    Between two wraps the value stays below 2^33 in size, where the
    arithmetic of JavaScript numbers is exact. *)
Definition hashCode (str : jsstring) : Z :=
  foldl (fun hash c => or32 ((shl32 hash 5 - hash) + Z.of_N c) 0)%Z 0%Z str.

(** The polynomial in 31 whose coefficients are the code units of a string,
    the first one of highest degree; and the same by Horner's rule. *)
Fixpoint poly31 (str : jsstring) : Z :=
  match str with
  | [] => 0
  | c :: str' => Z.of_N c * 31 ^ Z.of_nat (length str') + poly31 str'
  end%Z.

Definition horner31 (str : jsstring) : Z :=
  foldl (fun acc c => 31 * acc + Z.of_N c)%Z 0%Z str.

(** ** URIs (the second document of vr-manager.js) *)

(** The code unit of an ASCII character, and a string literal as code
    units. *)
Definition code (a : ascii) : N := N_of_ascii a.
Arguments code a%_char.
Definition js (s : string) : jsstring := code <$> String.list_ascii_of_string s.

(** [if (x)] on an optional string: [undefined] and the empty string are
    falsy. *)
Definition truthy (x : option jsstring) : bool :=
  match x with
  | Some (_ :: _) => true
  | _ => false
  end.

(** [s + x]: an [undefined] operand is converted to the string
    ['undefined']. *)
Definition to_str (x : option jsstring) : jsstring :=
  match x with
  | Some s => s
  | None => js "undefined"
  end.

(** [throw new Error(message)] *)
Inductive js_error := Error (message : string).

Record uri_options := UriOptions {
  o_scheme : option jsstring;
  o_authority : option jsstring;
  o_host : option jsstring;
  o_path : option jsstring;
  o_hostpath : option jsstring;
  o_query : option jsstring;
  o_fragment : option jsstring
}.

(** [createURI(options)] *)
Definition createURI (options : uri_options) : js_error + jsstring :=
  let s := [] in
  if (truthy (o_authority options) || truthy (o_scheme options))
     && (truthy (o_host options) || truthy (o_hostpath options)) then
    inl (Error "Can't have 'scheme' or 'authority' and 'host' or 'hostpath' option")
  else if truthy (o_host options) && truthy (o_hostpath options) then
    inl (Error "Can't have 'host' and 'hostpath' option")
  else if truthy (o_path options) && truthy (o_hostpath options) then
    inl (Error "Can't have 'path' and 'hostpath' option")
  else
    let s := if truthy (o_scheme options)
             then s ++ (to_str (o_scheme options) ++ js ":") else s in
    let s := if truthy (o_authority options)
             then s ++ (js "//" ++ to_str (o_authority options)) else s in
    let s := if truthy (o_host options) then s ++ to_str (o_host options) else s in
    let s := if truthy (o_path options) then s ++ to_str (o_path options) else s in
    let s := if truthy (o_hostpath options) then s ++ to_str (o_hostpath options) else s in
    let s := if truthy (o_query options)
             then s ++ (js "?" ++ to_str (o_query options)) else s in
    let s := if truthy (o_fragment options)
             then s ++ (js "#" ++ to_str (o_fragment options)) else s in
    inr s.

(** *** The regular expression of the URI constructor *)

(** The fragment of the regular expression language the source uses: a
    literal character, a character set under a greedy [*] or [+], sequence,
    a greedy [?] and capturing parentheses, numbered by their opening
    parenthesis.  The leading [^] is the anchor of [regex_match]. *)
Inductive charset :=
  | NoneOf (cs : jsstring)      (* [^...] *)
  | Dot.                        (* . : anything but a line terminator *)

Inductive regex :=
  | Char (c : N)
  | Star (c : charset)
  | Plus (c : charset)
  | Seq (r1 r2 : regex)
  | Opt (r : regex)
  | Group (n : nat) (r : regex).

(** The line terminators: LF, CR, LS and PS. *)
Definition line_terminators : jsstring := [10; 13; 8232; 8233]%N.

Definition in_charset (c : charset) (x : N) : bool :=
  match c with
  | NoneOf cs => bool_decide (x ∉ cs)
  | Dot => bool_decide (x ∉ line_terminators)
  end.

(** The captures of a match: the text of each pair of parentheses that took
    part, the last closed first. *)
Abbreviation captures := (list (nat * jsstring)).

Fixpoint group (n : nat) (caps : captures) : option jsstring :=
  match caps with
  | [] => None
  | (m, x) :: caps' => if Nat.eqb m n then Some x else group n caps'
  end.

(** A backtracking matcher in continuation passing style, as the language
    definition gives it: [k] is the rest of the pattern.  A greedy [*] tries
    the longest run first and gives characters back one at a time while the
    rest of the pattern fails; a greedy [?] tries its body first. *)
Fixpoint star {R} (c : charset) (s : jsstring) (k : jsstring -> option R) : option R :=
  match s with
  | x :: s' =>
      if in_charset c x then
        match star c s' k with
        | Some r => Some r
        | None => k s
        end
      else k s
  | [] => k s
  end.

Fixpoint matches (r : regex) (s : jsstring) (caps : captures)
    (k : jsstring -> captures -> option captures) : option captures :=
  match r with
  | Char c =>
      match s with
      | x :: s' => if decide (x = c) then k s' caps else None
      | [] => None
      end
  | Star c => star c s (fun s' => k s' caps)
  | Plus c =>
      match s with
      | x :: s' => if in_charset c x then star c s' (fun s'' => k s'' caps) else None
      | [] => None
      end
  | Seq r1 r2 => matches r1 s caps (fun s' caps' => matches r2 s' caps' k)
  | Opt r =>
      match matches r s caps k with
      | Some res => Some res
      | None => k s caps
      end
  | Group n r =>
      matches r s caps
        (fun s' caps' => k s' ((n, take (length s - length s') s) :: caps'))
  end.

(** [s.match(r)] for a pattern without flags that starts with [^]: the match
    is tried at index 0 only, and what follows the match is not looked at. *)
Definition regex_match (r : regex) (s : jsstring) : option captures :=
  matches r s [] (fun _ caps => Some caps).

(** The pattern of the source, with blanks between its tokens:

      ^ ( ( [^:\/?#]+ ) : )?  ( \/\/ ( [^\/?#]* ) )?  ( [^?#]* )
        ( \? ( [^#]* ) )?  ( # ( .* ) )?
*)
Definition re : regex :=
  Seq (Opt (Group 1 (Seq (Group 2 (Plus (NoneOf (js ":/?#")))) (Char (code ":")))))
 (Seq (Opt (Group 3 (Seq (Char (code "/")) (Seq (Char (code "/"))
                      (Group 4 (Star (NoneOf (js "/?#"))))))))
 (Seq (Group 5 (Star (NoneOf (js "?#"))))
 (Seq (Opt (Group 6 (Seq (Char (code "?")) (Group 7 (Star (NoneOf (js "#")))))))
      (Opt (Group 8 (Seq (Char (code "#")) (Group 9 (Star Dot)))))))).

(** *** The class URI *)

Record URI := MkURI {
  scheme : option jsstring;
  authority : option jsstring;
  path : option jsstring;
  query : option jsstring;
  fragment : option jsstring
}.

(** [new URI(uri)]: [result[n]] is [undefined] for parentheses that took no
    part; were [result] null, [result[2]] would throw a TypeError. *)
Definition URI_new (uri : jsstring) : outcome URI :=
  match regex_match re uri with
  | Some result =>
      Ok (MkURI (group 2 result) (group 4 result) (group 5 result)
                (group 7 result) (group 9 result))
  | None => Throw TypeError
  end.

(** [toString()] *)
Definition URI_toString (this : URI) : jsstring :=
  let s := [] in
  let s := if truthy (scheme this) then s ++ (to_str (scheme this) ++ js ":") else s in
  let s := if truthy (authority this) then s ++ (js "//" ++ to_str (authority this)) else s in
  let s := s ++ to_str (path this) in
  let s := if truthy (query this) then s ++ (js "?" ++ to_str (query this)) else s in
  let s := if truthy (fragment this) then s ++ (js "#" ++ to_str (fragment this)) else s in
  s.

(** The longest prefix of [s] inside a character set, and what follows. *)
Fixpoint span (c : charset) (s : jsstring) : jsstring * jsstring :=
  match s with
  | x :: s' =>
      if in_charset c x then let (p, r) := span c s' in (x :: p, r) else ([], s)
  | [] => ([], [])
  end.

(** The constructor's regular expression as a scanner that never looks
    back: the five parts of a URI string and what is left of it. *)
Definition scan_scheme (s : jsstring) : option jsstring * jsstring :=
  match span (NoneOf (js ":/?#")) s with
  | (x :: p, c :: r) => if decide (c = code ":") then (Some (x :: p), r) else (None, s)
  | _ => (None, s)
  end.

Fixpoint strip (m s : jsstring) : option jsstring :=
  match m, s with
  | [], _ => Some s
  | a :: m', x :: s' => if decide (x = a) then strip m' s' else None
  | _ :: _, [] => None
  end.

Definition scan_marked (m : jsstring) (c : charset) (s : jsstring)
    : option jsstring * jsstring :=
  match strip m s with
  | Some r => let (p, r') := span c r in (Some p, r')
  | None => (None, s)
  end.

Definition scan_uri (s : jsstring) : URI * jsstring :=
  let (sch, s1) := scan_scheme s in
  let (auth, s2) := scan_marked [code "/"; code "/"] (NoneOf (js "/?#")) s1 in
  let (pth, s3) := span (NoneOf (js "?#")) s2 in
  let (qry, s4) := scan_marked [code "?"] (NoneOf (js "#")) s3 in
  let (frg, s5) := scan_marked [code "#"] Dot s4 in
  (MkURI sch auth (Some pth) qry frg, s5).

(** What a string is made of, in terms of what the scanner returns. *)
Definition mark (m : jsstring) (x : option jsstring) : jsstring :=
  match x with
  | Some s => m ++ s
  | None => []
  end.

(** A URI whose parts can be told apart again once printed: no part is
    empty but the path; no part holds a character that ends it; after an
    authority the path is empty or starts with a slash; without one it does
    not start with a double slash; and without a scheme the path does not
    read as one. *)
Definition all_in (c : charset) (s : jsstring) : Prop :=
  Forall (λ x, in_charset c x = true) s.

Definition part_ok (c : charset) (x : option jsstring) : Prop :=
  match x with
  | Some s => s <> [] /\ all_in c s
  | None => True
  end.

Definition URI_wf (u : URI) : Prop :=
  part_ok (NoneOf (js ":/?#")) (scheme u) /\
  part_ok (NoneOf (js "/?#")) (authority u) /\
  (exists p, path u = Some p /\ all_in (NoneOf (js "?#")) p /\
     match authority u with
     | Some _ => p = [] \/ exists r, p = code "/" :: r
     | None => strip [code "/"; code "/"] p = None /\
               (scheme u = None -> (scan_scheme p).1 = None)
     end) /\
  part_ok (NoneOf (js "#")) (query u) /\
  part_ok Dot (fragment u).

(** A string that does not continue a run of the set [c]. *)
Definition stops (c : charset) (r : jsstring) : Prop :=
  match r with
  | [] => True
  | x :: _ => in_charset c x = false
  end.

(** The tail of a printed URI: a query and a fragment, with their marks. *)
Definition tail_of (qry frg : option jsstring) : jsstring :=
  mark [code "?"] qry ++ mark [code "#"] frg.

(** ** Render (scene/render.js) *)

(** Modelled from the spec: a Mesh (mesh.js is missing) is one of the
    "reference-counted mesh resources"; the four methods Render calls on it,
    as an interface.  Render is verified against every implementation. *)
Class MeshOps (mesh : Type) := {
  mesh_incRefCount : mesh -> mesh;
  mesh_decRefCount : mesh -> mesh;
  mesh_getRefCount : mesh -> Z;
  mesh_destroy : mesh -> mesh
}.

(** A Render: its [_meshes] (null or an array) and, of what it inherits from
    EventHandler (event-handler.js is missing), the events it has fired, with
    their argument. *)
Record render := MkRender {
  _meshes : option loc;
  fired : list (string * option loc)
}.

Section Render.
Context {mesh : Type} `{!MeshOps mesh}.

(** Meshes, arrays of meshes and renders are objects: several renders may
    hold the same mesh, and the array handed to a render stays the
    caller's.  A cell of an array holds a mesh or null. *)
Record scene := Scene {
  scene_meshes : list mesh;
  scene_arrays : list (list (option loc));
  scene_renders : list render
}.

Definition load_render (this : loc) : M scene render :=
  fun sc => defined (scene_renders sc !! this) sc.
Definition store_render (this : loc) (r : render) : M scene unit :=
  fun sc => (Ok tt, Scene (scene_meshes sc) (scene_arrays sc) (<[this:=r]> (scene_renders sc))).
Definition load_array (a : loc) : M scene (list (option loc)) :=
  fun sc => defined (scene_arrays sc !! a) sc.
Definition store_array (a : loc) (xs : list (option loc)) : M scene unit :=
  fun sc => (Ok tt, Scene (scene_meshes sc) (<[a:=xs]> (scene_arrays sc)) (scene_renders sc)).
Definition load_mesh (m : loc) : M scene mesh :=
  fun sc => defined (scene_meshes sc !! m) sc.
Definition store_mesh (m : loc) (x : mesh) : M scene unit :=
  fun sc => (Ok tt, Scene (<[m:=x]> (scene_meshes sc)) (scene_arrays sc) (scene_renders sc)).

(** A method call [mesh.f()] that updates the mesh. *)
Definition call_mesh (m : loc) (f : mesh -> mesh) : M scene unit :=
  let! x := load_mesh m in store_mesh m (f x).

(** [decRefMeshes()]:

      if (this._meshes) {
          const count = this._meshes.length;
          for (let i = 0; i < count; i++) {
              const mesh = this._meshes[i];
              if (mesh) {
                  mesh.decRefCount();
                  if (mesh.getRefCount() < 1) {
                      mesh.destroy();
                      this._meshes[i] = null;
                  }
              }
          }
      }
*)
Definition decRefMeshes (this : loc) : M scene unit :=
  let! r := load_render this in
  match _meshes r with
  | Some a =>
      let! xs := load_array a in
      let count := length xs in
      for_range count (fun i =>
        let! r := load_render this in
        let! a := defined (_meshes r) in
        let! xs := load_array a in
        match xs !! i with
        | Some (Some m) =>
            do! call_mesh m mesh_decRefCount in
            let! x := load_mesh m in
            if (mesh_getRefCount x <? 1)%Z then
              do! call_mesh m mesh_destroy in
              let! r := load_render this in
              let! a := defined (_meshes r) in
              let! xs := load_array a in
              store_array a (<[i:=None]> xs)
            else ret tt
        | _ => ret tt
        end)
  | None => ret tt
  end.

(** [incRefMeshes()] *)
Definition incRefMeshes (this : loc) : M scene unit :=
  let! r := load_render this in
  match _meshes r with
  | Some a =>
      let! xs := load_array a in
      let count := length xs in
      for_range count (fun i =>
        let! r := load_render this in
        let! a := defined (_meshes r) in
        let! xs := load_array a in
        match xs !! i with
        | Some (Some m) => call_mesh m mesh_incRefCount
        | _ => ret tt
        end)
  | None => ret tt
  end.

(** [this.fire('set:meshes', value)] *)
Definition fire (this : loc) (name : string) (arg : option loc) : M scene unit :=
  let! r := load_render this in
  store_render this (MkRender (_meshes r) (fired r ++ [(name, arg)])).

(** [set meshes(value)] *)
Definition set_meshes (this : loc) (value : option loc) : M scene unit :=
  do! decRefMeshes this in
  let! r := load_render this in
  do! store_render this (MkRender value (fired r)) in
  do! incRefMeshes this in
  fire this "set:meshes" value.

(** [get meshes()] *)
Definition get_meshes (this : loc) : M scene (option loc) :=
  let! r := load_render this in ret (_meshes r).

(** [destroy() { this.meshes = null; }] *)
Definition Render_destroy (this : loc) : M scene unit := set_meshes this None.

(** [new Render()] *)
Definition Render_new : M scene loc :=
  fun sc => (Ok (length (scene_renders sc)),
             Scene (scene_meshes sc) (scene_arrays sc)
                   (scene_renders sc ++ [MkRender None []])).

(** What releasing one reference does to a mesh, and whether the mesh
    survives it. *)
Definition released (x : mesh) : mesh :=
  let x' := mesh_decRefCount x in
  if (mesh_getRefCount x' <? 1)%Z then mesh_destroy x' else x'.
Definition survives (x : mesh) : bool :=
  negb (mesh_getRefCount (mesh_decRefCount x) <? 1)%Z.

(** The meshes of an array: its cells that are not null. *)
Definition cells (xs : list (option loc)) : list loc := omap id xs.

(** What is left of a cell once its mesh has been released. *)
Definition kept (ms : list mesh) (c : option loc) : option loc :=
  m ← c; x ← ms !! m; if survives x then Some m else None.

End Render.

(** A small Mesh, to run the model on: a counter and a flag. *)
Record counted := Counted {
  refCount : Z;
  destroyed : bool
}.

Global Instance counted_mesh : MeshOps counted := {
  mesh_incRefCount x := Counted (refCount x + 1) (destroyed x);
  mesh_decRefCount x := Counted (refCount x - 1) (destroyed x);
  mesh_getRefCount x := refCount x;
  mesh_destroy x := Counted (refCount x) true
}.

(** Two meshes, one of them held by somebody else, an array of both with a
    null cell between them, a render that holds the array and a render that
    holds nothing. *)
Definition example_scene : @scene counted :=
  Scene [Counted 1 false; Counted 2 false]
        [[Some 0; None; Some 1]]
        [MkRender (Some 0) []; MkRender None []].

(** ** LayoutChildComponent (layout-child/component.js) *)

(** The component as the JavaScript object it is: a map from property names
    to values; and, of what it inherits from EventHandler (event-handler.js
    is missing), the names of the events it has fired. *)
Record LayoutChildComponent := LayoutChild {
  properties : gmap string value;
  resize_events : list string
}.

(** [constructor(system, entity)], after [super(system, entity)]
    (component.js is missing). *)
Definition LayoutChildComponent_new : LayoutChildComponent :=
  LayoutChild
    (<["_excludeFromLayout" := VBoolean false]>
     (<["_fitHeightProportion" := VNumber 0]>
     (<["_fitWidthProportion" := VNumber 0]>
     (<["_maxHeight" := VNull]>
     (<["_maxWidth" := VNull]>
     (<["_minHeight" := VNumber 0]>
     (<["_minWidth" := VNumber 0]> ∅)))))))
    [].

(** [this[key]]: [undefined] when the object has no such property. *)
Definition get_property (key : string) (this : LayoutChildComponent) : value :=
  default VUndefined (properties this !! key).


(** The accessors [defineResizeProperty(name)] installs, with
    [_name = '_' + name]:

      get: function () { return this[_name]; }
      set: function (value) {
          if (this[_name] !== value) { this[_name] = value; this.fire('resize'); }
      }
*)
Definition resize_get (name : string) (this : LayoutChildComponent) : value :=
  let _name := "_" +:+ name in
  get_property _name this.


(** The seven properties the module defines. *)
Definition resize_properties : list string :=
  ["minWidth"; "minHeight"; "maxWidth"; "maxHeight";
   "fitWidthProportion"; "fitHeightProportion"; "excludeFromLayout"].

(** * Properties *)

(** The spec's sample values (§8) hold of the modelled cache. *)
Example spec_linear_samples :
  let ev := cold_eval INTERPOLATION_LINEAR 1 [0; 1]%Q [0; 10]%Q in
  (ev (1#2), ev 0, ev 1, ev (-1), ev 2)%Q = ([5], [0], [10], [0], [10])%Q.
Proof. reflexivity. Qed.

Example spec_step_sample :
  cold_eval INTERPOLATION_STEP 1 [0; 1; 2]%Q [5; 7; 9]%Q (9#10) = [5]%Q.
Proof. reflexivity. Qed.

Example spec_end_to_end_samples :
  let ev := cold_eval INTERPOLATION_LINEAR 1 [0; 1#2; 1]%Q [0; 1; 0]%Q in
  (ev (1#4), ev (3#4), ev 1)%Q = ([1#2], [1#2], [0])%Q.
Proof. reflexivity. Qed.

(** ** The modelled AnimCache: the bracket does not depend on the path *)

Section CacheProofs.

Lemma sorted_ascending_head a xs b j :
  sorted_ascending (a :: xs) = true -> xs !! j = Some b -> (a <= b)%Q.
Proof.
  revert a j. induction xs as [|x xs IH]; intros a j Hs Hj; [done|].
  simpl in Hs. apply andb_prop in Hs as [Hab Hs].
  apply Qle_bool_iff in Hab.
  destruct j as [|j]; simpl in Hj.
  - by inversion Hj; subst.
  - eapply Qle_trans; [exact Hab|]. by eapply IH.
Qed.

Lemma sorted_ascending_tail a xs :
  sorted_ascending (a :: xs) = true -> sorted_ascending xs = true.
Proof.
  destruct xs; [done|]. simpl. intros H. by apply andb_prop in H as [_ H].
Qed.

Lemma sorted_ascending_lookup xs i j a b :
  sorted_ascending xs = true -> i <= j ->
  xs !! i = Some a -> xs !! j = Some b -> (a <= b)%Q.
Proof.
  revert i j. induction xs as [|x xs IH]; intros i j Hs Hij Hi Hj; [done|].
  destruct i as [|i].
  - simpl in Hi. inversion Hi; subst.
    destruct j as [|j]; simpl in Hj.
    + inversion Hj; subst. apply Qle_refl.
    + by eapply sorted_ascending_head.
  - destruct j as [|j]; [lia|]. simpl in *.
    eapply (IH i j); eauto using sorted_ascending_tail; lia.
Qed.

(** A sorted time buffer has at most one bracket for a time. *)
Lemma is_bracket_unique xs time i j :
  sorted_ascending xs = true -> is_bracket xs time i -> is_bracket xs time j -> i = j.
Proof.
  intros Hs (a & b & Ha & Hb & Hat & Hbt) (a' & b' & Ha' & Hb' & Hat' & Hbt').
  destruct (decide (i = j)) as [|Hne]; [done|exfalso].
  destruct (decide (i < j)).
  - apply Hbt. eapply Qle_trans; [|exact Hat'].
    eapply (sorted_ascending_lookup xs (S i) j); eauto; lia.
  - apply Hbt'. eapply Qle_trans; [|exact Hat].
    eapply (sorted_ascending_lookup xs (S j) i); eauto; lia.
Qed.

(** The forward scan stops on the bracket. *)
Lemma forward_scan_bracket xs time fuel i a k b :
  xs !! i = Some a -> (a <= time)%Q ->
  xs !! k = Some b -> ~ (b <= time)%Q -> i < k -> k - i <= fuel + 1 ->
  sorted_ascending xs = true ->
  is_bracket xs time (forward_scan fuel time xs i).
Proof.
  intros Ha Hat Hb Hbt Hik Hfuel Hs.
  revert i a Ha Hat Hik Hfuel.
  induction fuel as [|fuel IH]; intros i a Ha Hat Hik Hfuel; cbn [forward_scan].
  - assert (k = S i) as -> by lia. by exists a, b.
  - destruct (xs !! S i) as [x|] eqn:Hx.
    + destruct (Qle_bool x time) eqn:Hle.
      * apply Qle_bool_iff in Hle.
        destruct (decide (S i = k)) as [E|].
        { subst k. rewrite Hx in Hb. inversion Hb; subst. done. }
        eapply IH; eauto; lia.
      * exists a, x. repeat split; auto.
        intros H. apply Qle_bool_iff in H. congruence.
    + apply lookup_ge_None in Hx. apply lookup_lt_Some in Hb. lia.
Qed.

(** The binary search stops on the bracket. *)
Lemma binary_search_bracket xs time fuel lo hi a b :
  xs !! lo = Some a -> (a <= time)%Q ->
  xs !! hi = Some b -> ~ (b <= time)%Q -> lo < hi -> hi - lo <= fuel + 1 ->
  is_bracket xs time (binary_search fuel time xs lo hi).
Proof.
  revert lo hi a b.
  induction fuel as [|fuel IH]; intros lo hi a b Ha Hat Hb Hbt Hlt Hfuel; cbn [binary_search].
  - assert (hi = S lo) as -> by lia. by exists a, b.
  - destruct (decide (hi - lo <= 1)).
    + assert (hi = S lo) as -> by lia. by exists a, b.
    + pose proof (Nat.div_mod_eq (lo + hi) 2) as Hdm.
      pose proof (Nat.mod_upper_bound (lo + hi) 2 ltac:(lia)) as Hm.
      assert (lo < (lo + hi) / 2 < hi) as [Hl Hh] by lia.
      destruct (xs !! ((lo + hi) / 2)) as [x|] eqn:Hx.
      * destruct (Qle_bool x time) eqn:Hle.
        -- apply Qle_bool_iff in Hle. eapply IH; eauto; lia.
        -- eapply IH; eauto; try lia.
           intros H. apply Qle_bool_iff in H. congruence.
      * apply lookup_ge_None in Hx. apply lookup_lt_Some in Hb. lia.
Qed.

(** Strictly inside a sorted time buffer, [locate] finds the bracket:
    "repositions the bracket [i, i+1) such that inputTimes[i] ≤ time <
    inputTimes[i+1]". *)
Lemma locate_bracket time xs c first last :
  sorted_ascending xs = true ->
  xs !! 0 = Some first -> xs !! (length xs - 1) = Some last ->
  ~ (time <= first)%Q -> ~ (last <= time)%Q ->
  is_bracket xs time (locate time xs c).
Proof.
  intros Hs Hfirst Hlast Hf Hl. unfold locate. rewrite Hfirst, Hlast.
  destruct (Qle_bool time first) eqn:Hf'; [by apply Qle_bool_iff in Hf'|].
  destruct (Qle_bool last time) eqn:Hl'; [by apply Qle_bool_iff in Hl'|].
  assert (first <= time)%Q as Hft.
  { destruct (Qlt_le_dec first time) as [H|H]; [by apply Qlt_le_weak|done]. }
  assert (0 < length xs - 1) as Hn.
  { destruct (decide (0 < length xs - 1)); [done|].
    assert (length xs - 1 = 0) as E by lia. rewrite E in Hlast.
    rewrite Hfirst in Hlast. inversion Hlast; subst. done. }
  assert (Hcold : is_bracket xs time (binary_search (length xs) time xs 0 (length xs - 1))).
  { eapply (binary_search_bracket xs time _ 0 (length xs - 1) first last); eauto; lia. }
  destruct (lastQueryTime c); [|done].
  destruct (xs !! bracketIndex c) as [cached|] eqn:Hc; [|done].
  destruct (Qle_bool cached time) eqn:Hct; [|done].
  apply Qle_bool_iff in Hct.
  assert (bracketIndex c < length xs - 1).
  { destruct (decide (bracketIndex c < length xs - 1)); [done|exfalso].
    apply Hl. eapply Qle_trans; [|exact Hct].
    eapply (sorted_ascending_lookup xs (length xs - 1) (bracketIndex c)); eauto; lia. }
  eapply (forward_scan_bracket xs time _ _ cached (length xs - 1) last); eauto; lia.
Qed.

(** The bracket [locate] finds does not depend on the state of the cache. *)
Lemma locate_cold time xs c :
  sorted_ascending xs = true -> locate time xs c = locate time xs SpecCache_new.
Proof.
  intros Hs. unfold locate.
  destruct (xs !! 0) as [first|] eqn:Hfirst; [|done].
  destruct (xs !! (length xs - 1)) as [last|] eqn:Hlast; [|done].
  destruct (Qle_bool time first) eqn:Hf; [done|].
  destruct (Qle_bool last time) eqn:Hl; [done|].
  assert (~ (last <= time)%Q) as Hl' by (intros H; apply Qle_bool_iff in H; congruence).
  assert (first <= time)%Q as Hf'.
  { destruct (Qlt_le_dec first time) as [H|H]; [by apply Qlt_le_weak|].
    apply Qle_bool_iff in H. congruence. }
  assert (0 < length xs - 1) as Hn.
  { destruct (decide (0 < length xs - 1)); [done|].
    assert (length xs - 1 = 0) as E by lia. rewrite E in Hlast.
    rewrite Hfirst in Hlast. inversion Hlast; subst. done. }
  simpl.
  destruct (lastQueryTime c); [|done].
  destruct (xs !! bracketIndex c) as [cached|] eqn:Hc; [|done].
  destruct (Qle_bool cached time) eqn:Hct; [|done].
  apply Qle_bool_iff in Hct.
  apply (is_bracket_unique xs time); [done| |].
  - assert (bracketIndex c < length xs - 1).
    { destruct (decide (bracketIndex c < length xs - 1)); [done|exfalso].
      apply Hl'. eapply Qle_trans; [|exact Hct].
      eapply (sorted_ascending_lookup xs (length xs - 1) (bracketIndex c)); eauto; lia. }
    eapply (forward_scan_bracket xs time _ _ cached (length xs - 1) last); eauto; lia.
  - eapply (binary_search_bracket xs time _ 0 (length xs - 1) first last); eauto; lia.
Qed.

(** Whatever the cache was asked before, a query leaves it as it leaves a
    fresh cache. *)
Lemma SpecCache_update_cold time xs c :
  sorted_ascending xs = true ->
  SpecCache_update time xs c = SpecCache_update time xs SpecCache_new.
Proof. intros Hs. unfold SpecCache_update. by rewrite (locate_cold time xs c). Qed.

(** C5.  For a sorted input time buffer, every output buffer, every
    interpolation mode and query times [t1 <= t2], the values the cache
    writes for [t2] are the same whether it was first queried at [t1] and
    then scanned forward to [t2], or is a fresh cache queried at [t2] (a
    cold seek); the two caches are in fact in the same state.  (The order
    of [t1] and [t2] is not needed: see [SpecCache_update_cold].) *)
Theorem cache_forward_scan_eq_cold_seek
    (inputTimes : list Q) (components : Z) (data result : list Q)
    (mode : interpolation) (t1 t2 : Q) :
  sorted_ascending inputTimes = true -> (t1 <= t2)%Q ->
  let scanned := SpecCache_update t2 inputTimes (SpecCache_update t1 inputTimes SpecCache_new) in
  let cold := SpecCache_update t2 inputTimes SpecCache_new in
  scanned = cold /\
  SpecCache_eval result mode components data scanned
  = SpecCache_eval result mode components data cold.
Proof.
  intros Hs _ scanned cold.
  assert (scanned = cold) as -> by (by apply SpecCache_update_cold).
  done.
Qed.

Lemma cache_forward_scan_eq_cold_seek_witness :
  let xs := [0; 1#2; 1; 2]%Q in
  let scanned := SpecCache_update (3#2) xs (SpecCache_update (1#4) xs SpecCache_new) in
  let cold := SpecCache_update (3#2) xs SpecCache_new in
  scanned = cold /\
  SpecCache_eval [0%Q] INTERPOLATION_LINEAR 1 [0; 1; 0; 4]%Q scanned
  = SpecCache_eval [0%Q] INTERPOLATION_LINEAR 1 [0; 1; 0; 4]%Q cold.
Proof.
  apply (cache_forward_scan_eq_cold_seek [0; 1#2; 1; 2]%Q 1 [0; 1; 0; 4]%Q [0%Q]
           INTERPOLATION_LINEAR (1#4) (3#2)).
  - reflexivity.
  - unfold Qle. simpl. lia.
Defined.

End CacheProofs.

(** *** Running the monad *)

Lemma bind_ok {St A B} (m : M St A) (k : A -> M St B) (st : St) a st' :
  m st = (Ok a, st') -> bind m k st = k a st'.
Proof. unfold bind. by intros ->. Qed.

(** A loop whose every iteration returns and re-establishes an invariant
    indexed by the loop counter returns, with the invariant at the bound. *)
Lemma for_each_seq_ok {St} (body : nat -> M St unit) (I : nat -> St -> Prop) n a (h : St) :
  I a h ->
  (forall i hc, a <= i < a + n -> I i hc -> exists hc', body i hc = (Ok tt, hc') /\ I (S i) hc') ->
  exists h', for_each body (seq a n) h = (Ok tt, h') /\ I (a + n) h'.
Proof.
  revert a h. induction n as [|n IH]; intros a h HI Hbody; simpl.
  - exists h. by rewrite Nat.add_0_r.
  - destruct (Hbody a h ltac:(lia) HI) as (h1 & Hb & HI1).
    destruct (IH (S a) h1 HI1) as (h' & Hrun & HI').
    { intros i hc Hi. apply Hbody. lia. }
    exists h'. rewrite (bind_ok _ _ _ _ _ Hb).
    split; [done|]. by replace (a + S n) with (S a + n) by lia.
Qed.

Lemma for_range_ok {St} (body : nat -> M St unit) (I : nat -> St -> Prop) n (h : St) :
  I 0 h ->
  (forall i hc, i < n -> I i hc -> exists hc', body i hc = (Ok tt, hc') /\ I (S i) hc') ->
  exists h', for_range n body h = (Ok tt, h') /\ I n h'.
Proof.
  intros HI Hbody. apply (for_each_seq_ok body I n 0 h HI).
  intros i hc Hi. apply Hbody. lia.
Qed.

Section EvaluatorProofs.
Context {cache : Type} `{!AnimCache cache}.
Implicit Types (h : list (@object cache)) (l s tr : loc).

Lemma load_refs_ok h l rs : h !! l = Some (ObjRefs rs) -> load_refs l h = (Ok rs, h).
Proof. unfold load_refs, load, bind. by intros ->. Qed.
Lemma load_numbers_ok h l xs : h !! l = Some (ObjNumbers xs) -> load_numbers l h = (Ok xs, h).
Proof. unfold load_numbers, load, bind. by intros ->. Qed.
Lemma load_data_ok h l c d : h !! l = Some (ObjAnimData c d) -> load_data l h = (Ok (c, d), h).
Proof. unfold load_data, load, bind. by intros ->. Qed.
Lemma load_curve_ok h l i o m :
  h !! l = Some (ObjAnimCurve i o m) -> load_curve l h = (Ok (i, o, m), h).
Proof. unfold load_curve, load, bind. by intros ->. Qed.
Lemma load_cache_ok h l c : h !! l = Some (ObjAnimCache c) -> load_cache l h = (Ok c, h).
Proof. unfold load_cache, load, bind. by intros ->. Qed.
Lemma load_track_ok h l n d i o c e :
  h !! l = Some (ObjAnimTrack n d i o c e) -> load_track l h = (Ok (TrackFields n d i o c e), h).
Proof. unfold load_track, load, bind. by intros ->. Qed.
Lemma load_snapshot_ok h l n t c r :
  h !! l = Some (ObjAnimSnapshot n t c r) ->
  load_snapshot l h = (Ok (SnapshotFields n t c r), h).
Proof. unfold load_snapshot, load, bind. by intros ->. Qed.

(** *** Classes of objects *)

Lemma as_numbers_Some (o : option (@object cache)) xs :
  as_numbers o = Some xs <-> o = Some (ObjNumbers xs).
Proof. destruct o as [[]|]; simpl; split; intros; by simplify_eq. Qed.
Lemma as_refs_Some (o : option (@object cache)) rs :
  as_refs o = Some rs <-> o = Some (ObjRefs rs).
Proof. destruct o as [[]|]; simpl; split; intros; by simplify_eq. Qed.
Lemma as_data_Some (o : option (@object cache)) c d :
  as_data o = Some (c, d) <-> o = Some (ObjAnimData c d).
Proof. destruct o as [[]|]; simpl; split; intros; by simplify_eq. Qed.
Lemma as_curve_Some (o : option (@object cache)) i j m :
  as_curve o = Some (i, j, m) <-> o = Some (ObjAnimCurve i j m).
Proof. destruct o as [[]|]; simpl; split; intros; by simplify_eq. Qed.
Lemma as_cache_Some (o : option (@object cache)) c :
  as_cache o = Some c <-> o = Some (ObjAnimCache c).
Proof. destruct o as [[]|]; simpl; split; intros; by simplify_eq. Qed.
Lemma as_events_Some (o : option (@object cache)) evs :
  as_events o = Some evs <-> o = Some (ObjAnimEvents evs).
Proof. destruct o as [[]|]; simpl; split; intros; by simplify_eq. Qed.
Lemma as_track_Some (o : option (@object cache)) n d i j c e :
  as_track o = Some (TrackFields n d i j c e) <-> o = Some (ObjAnimTrack n d i j c e).
Proof. destruct o as [[]|]; simpl; split; intros; by simplify_eq. Qed.
Lemma as_snapshot_Some (o : option (@object cache)) n t c r :
  as_snapshot o = Some (SnapshotFields n t c r) <-> o = Some (ObjAnimSnapshot n t c r).
Proof. destruct o as [[]|]; simpl; split; intros; by simplify_eq. Qed.

Lemma caches_not_elem h l o cs (caches : list cache) :
  Forall2 (λ l c, h !! l = Some (ObjAnimCache c)) cs caches ->
  h !! l = Some o -> ~ is_cache o -> l ∉ cs.
Proof.
  intros HF Hl Hk Hin.
  apply list_elem_of_lookup in Hin as [k Hk'].
  destruct (Forall2_lookup_l _ _ _ _ _ HF Hk') as (c & _ & Hc).
  rewrite Hl in Hc. inversion Hc; subst. by apply Hk.
Qed.

Lemma numbers_not_elem h l o bs (bufs : list (list Q)) :
  Forall2 (λ l b, h !! l = Some (ObjNumbers b)) bs bufs ->
  h !! l = Some o -> ~ is_numbers o -> l ∉ bs.
Proof.
  intros HF Hl Hk Hin.
  apply list_elem_of_lookup in Hin as [k Hk'].
  destruct (Forall2_lookup_l _ _ _ _ _ HF Hk') as (c & _ & Hc).
  rewrite Hl in Hc. inversion Hc; subst. by apply Hk.
Qed.

End EvaluatorProofs.

Section EvalCore.
Context {cache : Type} `{!AnimCache cache}.

Lemma view_data_Some (h : list (@object cache)) l c xs :
  view_data h l = Some (c, xs) <->
  exists dl, h !! l = Some (ObjAnimData c dl) /\ h !! dl = Some (ObjNumbers xs).
Proof.
  unfold view_data. split.
  - destruct (h !! l) as [[]|] eqn:Hl; simpl; try done.
    destruct (h !! _data) as [[]|] eqn:Hd; simpl; try done.
    intros [= <- <-]. eauto.
  - intros (dl & -> & Hd). simpl. by rewrite Hd.
Qed.

(** The facts [eval] relies on, spelled out location by location. *)
Variables (h : list (@object cache)) (tr s : loc) (time : Q).
Variables (sname : string) (stime : Q) (ca ra : loc) (cs bs : list loc).
Variables (caches : list cache) (bufs : list (list Q)).
Variables (tname : string) (tdur : Q) (li lo lc le : loc) (ins outs cvs : list loc).
Variables (inputs outputs : list (Z * list Q)) (curves : list (Z * Z * interpolation)).

Hypothesis Hs : h !! s = Some (ObjAnimSnapshot sname stime ca ra).
Hypothesis Hca : h !! ca = Some (ObjRefs cs).
Hypothesis Hra : h !! ra = Some (ObjRefs bs).
Hypothesis Hcs : Forall2 (λ l c, h !! l = Some (ObjAnimCache c)) cs caches.
Hypothesis Hbs : Forall2 (λ l b, h !! l = Some (ObjNumbers b)) bs bufs.
Hypothesis Htr : h !! tr = Some (ObjAnimTrack tname tdur li lo lc le).
Hypothesis Hli : h !! li = Some (ObjRefs ins).
Hypothesis Hlo : h !! lo = Some (ObjRefs outs).
Hypothesis Hlc : h !! lc = Some (ObjRefs cvs).
Hypothesis Hins : Forall2 (λ l d, view_data h l = Some d) ins inputs.
Hypothesis Houts : Forall2 (λ l d, view_data h l = Some d) outs outputs.
Hypothesis Hcvs : Forall2 (λ l c, as_curve (h !! l) = Some c) cvs curves.
Hypothesis Hlen_c : length caches = length inputs.
Hypothesis Hlen_b : length bufs = length curves.
Hypothesis Hnd_c : NoDup cs.
Hypothesis Hnd_b : NoDup bs.
Hypothesis Hsep : forall l c dl, l ∈ ins ++ outs -> h !! l = Some (ObjAnimData c dl) -> dl ∉ bs.
Hypothesis Hrange :
  Forall (λ curve : Z * Z * interpolation,
            (0 <= curve.1.1 < Z.of_nat (length inputs))%Z /\
            (0 <= curve.1.2 < Z.of_nat (length outputs))%Z) curves.

Let caches' := zip_with (λ c (input : Z * list Q), AnimCache_update time input.2 c) caches inputs.
Let results' := zip_with (eval_curve caches' outputs) curves bufs.

Lemma AnimTrack_eval_ok :
  exists h',
    AnimTrack_eval tr time s h = (Ok tt, h') /\
    length h' = length h /\
    (forall l, l <> s -> l ∉ cs -> l ∉ bs -> h' !! l = h !! l) /\
    h' !! s = Some (ObjAnimSnapshot sname time ca ra) /\
    Forall2 (λ l c, h' !! l = Some (ObjAnimCache c)) cs caches' /\
    Forall2 (λ l b, h' !! l = Some (ObjNumbers b)) bs results'.
Proof.
  unfold AnimTrack_eval.
  rewrite (bind_ok _ _ _ _ _ (load_snapshot_ok _ _ _ _ _ _ Hs)). cbn [s_name s_cache s_results].
  unfold store at 1. unfold bind at 1.
  set (h1 := <[s:=ObjAnimSnapshot sname time ca ra]> h).
  assert (Hs_lt : s < length h) by (by eapply lookup_lt_Some).
  assert (H1 : forall l, l <> s -> h1 !! l = h !! l).
  { intros l Hne. unfold h1. by rewrite list_lookup_insert_ne. }
  assert (H1s : h1 !! s = Some (ObjAnimSnapshot sname time ca ra)).
  { unfold h1. by rewrite list_lookup_insert_eq. }
  assert (Hs_cs : s ∉ cs) by (eapply (caches_not_elem h); eauto).
  assert (Hs_bs : s ∉ bs) by (eapply (numbers_not_elem h); eauto).
  assert (Htr1 : h1 !! tr = Some (ObjAnimTrack tname tdur li lo lc le)).
  { rewrite H1; [done|congruence]. }
  rewrite (bind_ok _ _ _ _ _ (load_track_ok _ _ _ _ _ _ _ _ Htr1)).
  cbn [t_inputs t_outputs t_curves].
  assert (Hli1 : h1 !! li = Some (ObjRefs ins)) by (rewrite H1; [done|congruence]).
  rewrite (bind_ok _ _ _ _ _ (bind_ok _ _ _ _ _ (load_refs_ok _ _ _ Hli1))).
  pose proof (Forall2_length _ _ _ Hcs) as Hlcs.
  pose proof (Forall2_length _ _ _ Hbs) as Hlbs.
  pose proof (Forall2_length _ _ _ Hins) as Hlins.
  pose proof (Forall2_length _ _ _ Houts) as Hlouts.
  pose proof (Forall2_length _ _ _ Hcvs) as Hlcvs.
  (* evaluate inputs *)
  set (I1 := fun (i : nat) (hc : list (@object cache)) =>
    length hc = length h /\
    (forall l, l ∉ cs -> hc !! l = h1 !! l) /\
    (forall k l c (d : Z * list Q), cs !! k = Some l -> caches !! k = Some c -> inputs !! k = Some d ->
       hc !! l = Some (ObjAnimCache (if decide (k < i) then AnimCache_update time d.2 c else c)))).
  match goal with
  | |- context [for_range ?n ?body] =>
      destruct (for_range_ok body I1 n h1) as (h2 & Hrun1 & HI2)
  end.
  { repeat split.
    - unfold h1. by rewrite length_insert.
    - intros k l c d Hk Hc Hd. destruct (decide (k < 0)); [lia|].
      rewrite H1.
      + by destruct (Forall2_lookup_lr _ _ _ _ _ _ Hcs Hk Hc).
      + intros ->. apply Hs_cs. by eapply list_elem_of_lookup_2. }
  { intros i hc Hi (Hlen & Hframe & Hpt).
    destruct (lookup_lt_is_Some_2 cs i ltac:(lia)) as [l Hl].
    destruct (lookup_lt_is_Some_2 caches i ltac:(lia)) as [c Hc].
    destruct (lookup_lt_is_Some_2 ins i ltac:(lia)) as [input Hinput].
    destruct (lookup_lt_is_Some_2 inputs i ltac:(lia)) as [[comp xs] Hd].
    pose proof (Forall2_lookup_lr _ _ _ _ _ _ Hins Hinput Hd) as Hvd.
    apply view_data_Some in Hvd as (dl & Hin_obj & Hdl).
    assert (Hnot : forall l' o, h !! l' = Some o -> ~ is_cache o -> l' <> s -> hc !! l' = Some o).
    { intros l' o Ho Hk Hne. rewrite Hframe, H1; [done..|]. eapply (caches_not_elem h); eauto. }
    rewrite (bind_ok _ _ _ _ _ (load_refs_ok _ _ _ (Hnot _ _ Hca ltac:(auto) ltac:(congruence)))).
    rewrite Hl. unfold defined at 1. unfold ret at 1. unfold bind at 1.
    pose proof (Hpt i l c (comp, xs) Hl Hc Hd) as Hlcache.
    destruct (decide (i < i)); [lia|].
    rewrite (bind_ok _ _ _ _ _ (load_cache_ok _ _ _ Hlcache)).
    rewrite (bind_ok _ _ _ _ _ (load_refs_ok _ _ _ (Hnot _ _ Hli ltac:(auto) ltac:(congruence)))).
    rewrite Hinput. unfold defined at 1. unfold ret at 1. unfold bind at 1.
    rewrite (bind_ok _ _ _ _ _ (load_data_ok _ _ _ _ (Hnot _ _ Hin_obj ltac:(auto) ltac:(congruence)))).
    cbn [snd].
    rewrite (bind_ok _ _ _ _ _ (load_numbers_ok _ _ _ (Hnot _ _ Hdl ltac:(auto) ltac:(congruence)))).
    unfold store. eexists. split; [reflexivity|].
    assert (l < length hc) by (by eapply lookup_lt_Some).
    repeat split.
    - by rewrite length_insert.
    - intros l' Hl'. rewrite list_lookup_insert_ne; [by apply Hframe|].
      intros ->. apply Hl'. by eapply list_elem_of_lookup_2.
    - intros k l' c' d' Hk' Hc' Hd'.
      destruct (decide (k = i)) as [->|Hne].
      + rewrite Hl in Hk'. rewrite Hc in Hc'. rewrite Hd in Hd'.
        inversion Hk'; inversion Hc'; inversion Hd'; subst.
        rewrite list_lookup_insert_eq by done.
        destruct (decide (i < S i)); [done|lia].
      + assert (l <> l') by (intros ->; apply Hne; eapply (NoDup_lookup cs k i); eauto).
        rewrite list_lookup_insert_ne by done.
        rewrite (Hpt k l' c' d' Hk' Hc' Hd').
        destruct (decide (k < i)), (decide (k < S i)); try done; lia. }
  rewrite (bind_ok _ _ _ _ _ Hrun1).
  destruct HI2 as (Hlen2 & Hframe2 & Hpt2).
  assert (Hcs2 : Forall2 (λ l c, h2 !! l = Some (ObjAnimCache c)) cs caches').
  { apply Forall2_same_length_lookup_2.
    - unfold caches'. rewrite length_zip_with. lia.
    - intros k l c' Hk Hc'. unfold caches' in Hc'.
      rewrite lookup_zip_with in Hc'.
      destruct (caches !! k) as [c|] eqn:Hc; [|done].
      destruct (inputs !! k) as [d|] eqn:Hd; [|done].
      simpl in Hc'. inversion Hc'; subst.
      rewrite (Hpt2 k l c d Hk Hc Hd).
      apply lookup_lt_Some in Hd.
      destruct (decide (k < length ins)); [done|lia]. }
  assert (H2 : forall l' o, h !! l' = Some o -> ~ is_cache o -> l' <> s -> h2 !! l' = Some o).
  { intros l' o Ho Hk Hne. rewrite Hframe2, H1; [done..|]. eapply (caches_not_elem h); eauto. }
  assert (Hbs2 : Forall2 (λ l b, h2 !! l = Some (ObjNumbers b)) bs bufs).
  { eapply Forall2_impl; [exact Hbs|]. intros l b Hl. simpl in *.
    apply H2; [done|auto|congruence]. }
  (* evaluate outputs *)
  rewrite (bind_ok _ _ _ _ _ (bind_ok _ _ _ _ _
             (load_refs_ok _ _ _ (H2 _ _ Hlc ltac:(auto) ltac:(congruence))))).
  set (I2 := fun (i : nat) (hc : list (@object cache)) =>
    length hc = length h /\
    (forall l, l ∉ bs -> hc !! l = h2 !! l) /\
    (forall k l b curve, bs !! k = Some l -> bufs !! k = Some b -> curves !! k = Some curve ->
       hc !! l = Some (ObjNumbers (if decide (k < i)
                                   then eval_curve caches' outputs curve b else b)))).
  match goal with
  | |- context [for_range ?n ?body] =>
      destruct (for_range_ok body I2 n h2) as (h3 & Hrun2 & HI3)
  end.
  { repeat split; [done|].
    intros k l b curve Hk Hb Hc. destruct (decide (k < 0)); [lia|].
    by destruct (Forall2_lookup_lr _ _ _ _ _ _ Hbs2 Hk Hb). }
  { intros i hc Hi (Hlen & Hframe & Hpt).
    destruct (lookup_lt_is_Some_2 cvs i ltac:(lia)) as [cv Hcv].
    destruct (lookup_lt_is_Some_2 curves i ltac:(lia)) as [[[ci co] m] Hcurve].
    destruct (lookup_lt_is_Some_2 bs i ltac:(lia)) as [res Hres].
    destruct (lookup_lt_is_Some_2 bufs i ltac:(lia)) as [b Hb].
    pose proof (Forall2_lookup_lr _ _ _ _ _ _ Hcvs Hcv Hcurve) as Hcv_obj.
    assert (Hcv_h : h !! cv = Some (ObjAnimCurve ci co m)).
    { by apply as_curve_Some. }
    pose proof (proj1 (Forall_lookup _ _) Hrange i _ Hcurve) as [Hci Hco]. simpl in Hci, Hco.
    destruct (lookup_lt_is_Some_2 outs (Z.to_nat co) ltac:(lia)) as [out Hout].
    destruct (lookup_lt_is_Some_2 outputs (Z.to_nat co) ltac:(lia)) as [[comp ys] Houtput].
    destruct (lookup_lt_is_Some_2 cs (Z.to_nat ci) ltac:(lia)) as [c Hc].
    destruct (lookup_lt_is_Some_2 caches' (Z.to_nat ci)) as [c' Hc'].
    { unfold caches'. rewrite length_zip_with. lia. }
    pose proof (Forall2_lookup_lr _ _ _ _ _ _ Houts Hout Houtput) as Hvd.
    apply view_data_Some in Hvd as (dl & Hout_obj & Hdl).
    assert (Hnot : forall l' o, h !! l' = Some o -> ~ is_cache o -> ~ is_numbers o ->
                                l' <> s -> hc !! l' = Some o).
    { intros l' o Ho Hk Hk' Hne. rewrite Hframe; [by apply H2|].
      eapply (numbers_not_elem h); eauto. }
    rewrite (bind_ok _ _ _ _ _ (load_refs_ok _ _ _
               (Hnot _ _ Hlc ltac:(auto) ltac:(auto) ltac:(congruence)))).
    rewrite Hcv. unfold defined at 1. unfold ret at 1. unfold bind at 1.
    rewrite (bind_ok _ _ _ _ _ (load_curve_ok _ _ _ _ _
               (Hnot _ _ Hcv_h ltac:(auto) ltac:(auto) ltac:(congruence)))).
    rewrite (bind_ok _ _ _ _ _ (load_refs_ok _ _ _
               (Hnot _ _ Hlo ltac:(auto) ltac:(auto) ltac:(congruence)))).
    rewrite (bind_ok _ _ _ _ _ (load_refs_ok _ _ _
               (Hnot _ _ Hra ltac:(auto) ltac:(auto) ltac:(congruence)))).
    rewrite (bind_ok _ _ _ _ _ (load_refs_ok _ _ _
               (Hnot _ _ Hca ltac:(auto) ltac:(auto) ltac:(congruence)))).
    unfold array_get.
    destruct (decide (0 <= ci)%Z); [|lia]. destruct (decide (0 <= co)%Z); [|lia].
    rewrite Hc, Hout, Hres.
    unfold defined at 1. unfold ret at 1. unfold bind at 1.
    pose proof (Forall2_lookup_lr _ _ _ _ _ _ Hcs2 Hc Hc') as Hc2.
    assert (Hc_hc : hc !! c = Some (ObjAnimCache c')).
    { rewrite Hframe; [done|].
      destruct (Forall2_lookup_l _ _ _ _ _ Hcs Hc) as (c0 & _ & Hc0).
      eapply (numbers_not_elem h _ _ _ _ Hbs Hc0); auto. }
    rewrite (bind_ok _ _ _ _ _ (load_cache_ok _ _ _ Hc_hc)).
    unfold defined at 1. unfold ret at 1. unfold bind at 1.
    rewrite (bind_ok _ _ _ _ _ (load_data_ok _ _ _ _
               (Hnot _ _ Hout_obj ltac:(auto) ltac:(auto) ltac:(congruence)))).
    cbn [fst snd].
    assert (Hdl_hc : hc !! dl = Some (ObjNumbers ys)).
    { rewrite Hframe; [apply H2; [done|auto|congruence]|].
      eapply Hsep; [|exact Hout_obj]. apply elem_of_app. right.
      by eapply list_elem_of_lookup_2. }
    rewrite (bind_ok _ _ _ _ _ (load_numbers_ok _ _ _ Hdl_hc)).
    unfold defined at 1. unfold ret at 1. unfold bind at 1.
    pose proof (Hpt i res b _ Hres Hb Hcurve) as Hres_hc.
    destruct (decide (i < i)); [lia|].
    rewrite (bind_ok _ _ _ _ _ (load_numbers_ok _ _ _ Hres_hc)).
    unfold store. eexists. split; [reflexivity|].
    assert (res < length hc) by (by eapply lookup_lt_Some).
    repeat split.
    - by rewrite length_insert.
    - intros l' Hl'. rewrite list_lookup_insert_ne; [by apply Hframe|].
      intros ->. apply Hl'. by eapply list_elem_of_lookup_2.
    - intros k l' b' curve' Hk' Hb' Hcurve'.
      destruct (decide (k = i)) as [->|Hne].
      + rewrite Hres in Hk'. rewrite Hb in Hb'. rewrite Hcurve in Hcurve'.
        inversion Hk'; inversion Hb'; inversion Hcurve'; subst.
        rewrite list_lookup_insert_eq by done.
        destruct (decide (i < S i)); [|lia].
        unfold eval_curve, array_get. simpl.
        destruct (decide (0 <= ci)%Z); [|lia]. destruct (decide (0 <= co)%Z); [|lia].
        by rewrite Hc', Houtput.
      + assert (res <> l') by (intros ->; apply Hne; eapply (NoDup_lookup bs k i); eauto).
        rewrite list_lookup_insert_ne by done.
        rewrite (Hpt k l' b' curve' Hk' Hb' Hcurve').
        destruct (decide (k < i)), (decide (k < S i)); try done; lia. }
  rewrite Hrun2.
  destruct HI3 as (Hlen3 & Hframe3 & Hpt3).
  exists h3. split; [done|]. split; [done|]. split; [|split; [|split]].
  - intros l Hne Hcs' Hbs'. by rewrite Hframe3, Hframe2, H1.
  - by rewrite Hframe3, Hframe2.
  - apply Forall2_same_length_lookup_2; [by eapply Forall2_length|].
    intros k l c Hk Hc.
    rewrite Hframe3; [by eapply (Forall2_lookup_lr _ _ _ _ _ _ Hcs2)|].
    destruct (Forall2_lookup_l _ _ _ _ _ Hcs Hk) as (c0 & _ & Hc0).
    eapply (numbers_not_elem h _ _ _ _ Hbs Hc0); auto.
  - apply Forall2_same_length_lookup_2.
    + unfold results'. rewrite length_zip_with. lia.
    + intros k l r Hk Hr. unfold results' in Hr.
      rewrite lookup_zip_with in Hr.
      destruct (curves !! k) as [curve|] eqn:Hcurve; [|done].
      destruct (bufs !! k) as [b|] eqn:Hb; [|done].
      simpl in Hr. inversion Hr; subst.
      rewrite (Hpt3 k l b curve Hk Hb Hcurve).
      apply lookup_lt_Some in Hcurve.
      destruct (decide (k < length cvs)); [done|lia].
Qed.

End EvalCore.

Section Views.
Context {cache : Type} `{!AnimCache cache}.
Implicit Types (h : list (@object cache)).

Lemma view_snapshot_Some h s sv :
  view_snapshot h s = Some sv <->
  exists ca ra cs bs,
    h !! s = Some (ObjAnimSnapshot (sv_name sv) (sv_time sv) ca ra) /\
    h !! ca = Some (ObjRefs cs) /\ h !! ra = Some (ObjRefs bs) /\
    Forall2 (λ l c, h !! l = Some (ObjAnimCache c)) cs (sv_cache sv) /\
    Forall2 (λ l b, h !! l = Some (ObjNumbers b)) bs (sv_results sv).
Proof.
  unfold view_snapshot. split.
  - intros Hv.
    destruct (as_snapshot (h !! s)) as [[n t ca ra]|] eqn:Hs; [|done]. simpl in Hv.
    destruct (as_refs (h !! ca)) as [cs|] eqn:Hca; [|done]. simpl in Hv.
    destruct (mapM _ cs) as [caches|] eqn:Hcs; [|done]. simpl in Hv.
    destruct (as_refs (h !! ra)) as [bs|] eqn:Hra; [|done]. simpl in Hv.
    destruct (mapM _ bs) as [bufs|] eqn:Hbs; [|done]. simpl in Hv.
    inversion Hv; subst; simpl.
    apply as_snapshot_Some in Hs. apply as_refs_Some in Hca, Hra.
    apply mapM_Some in Hcs, Hbs.
    exists ca, ra, cs, bs. repeat split; try done.
    + eapply Forall2_impl; [exact Hcs|]. intros ??; apply as_cache_Some.
    + eapply Forall2_impl; [exact Hbs|]. intros ??; apply as_numbers_Some.
  - intros (ca & ra & cs & bs & Hs & Hca & Hra & Hcs & Hbs).
    rewrite Hs. simpl. rewrite Hca. simpl.
    assert (mapM (λ l, as_cache (h !! l)) cs = Some (sv_cache sv)) as ->.
    { apply mapM_Some. eapply Forall2_impl; [exact Hcs|]. intros ??; apply as_cache_Some. }
    simpl. rewrite Hra. simpl.
    assert (mapM (λ l, as_numbers (h !! l)) bs = Some (sv_results sv)) as ->.
    { apply mapM_Some. eapply Forall2_impl; [exact Hbs|]. intros ??; apply as_numbers_Some. }
    simpl. by destruct sv.
Qed.

Lemma snapshot_footprint_Some h s fs :
  snapshot_footprint h s = Some fs <->
  exists n t ca ra cs bs,
    h !! s = Some (ObjAnimSnapshot n t ca ra) /\
    h !! ca = Some (ObjRefs cs) /\ h !! ra = Some (ObjRefs bs) /\
    fs = s :: ca :: ra :: cs ++ bs.
Proof.
  unfold snapshot_footprint. split.
  - intros Hv.
    destruct (as_snapshot (h !! s)) as [[n t ca ra]|] eqn:Hs; [|done]. simpl in Hv.
    destruct (as_refs (h !! ca)) as [cs|] eqn:Hca; [|done]. simpl in Hv.
    destruct (as_refs (h !! ra)) as [bs|] eqn:Hra; [|done]. simpl in Hv.
    inversion Hv; subst.
    apply as_snapshot_Some in Hs. apply as_refs_Some in Hca, Hra.
    by exists n, t, ca, ra, cs, bs.
  - intros (n & t & ca & ra & cs & bs & Hs & Hca & Hra & ->).
    rewrite Hs. simpl. rewrite Hca. simpl. by rewrite Hra.
Qed.

Lemma view_track_Some h tr tv :
  view_track h tr = Some tv <->
  exists li lo lc le ins outs cvs,
    h !! tr = Some (ObjAnimTrack (tv_name tv) (tv_duration tv) li lo lc le) /\
    h !! li = Some (ObjRefs ins) /\ h !! lo = Some (ObjRefs outs) /\
    h !! lc = Some (ObjRefs cvs) /\ h !! le = Some (ObjAnimEvents (tv_events tv)) /\
    Forall2 (λ l d, view_data h l = Some d) ins (tv_inputs tv) /\
    Forall2 (λ l d, view_data h l = Some d) outs (tv_outputs tv) /\
    Forall2 (λ l c, as_curve (h !! l) = Some c) cvs (tv_curves tv).
Proof.
  unfold view_track. split.
  - intros Hv.
    destruct (as_track (h !! tr)) as [[n d li lo lc le]|] eqn:Htr; [|done]. simpl in Hv.
    destruct (as_refs (h !! li)) as [ins|] eqn:Hli; [|done]. simpl in Hv.
    destruct (mapM _ ins) as [inputs|] eqn:Hins; [|done]. simpl in Hv.
    destruct (as_refs (h !! lo)) as [outs|] eqn:Hlo; [|done]. simpl in Hv.
    destruct (mapM _ outs) as [outputs|] eqn:Houts; [|done]. simpl in Hv.
    destruct (as_refs (h !! lc)) as [cvs|] eqn:Hlc; [|done]. simpl in Hv.
    destruct (mapM _ cvs) as [curves|] eqn:Hcvs; [|done]. simpl in Hv.
    destruct (as_events (h !! le)) as [evs|] eqn:Hle; [|done]. simpl in Hv.
    inversion Hv; subst; simpl.
    apply as_track_Some in Htr. apply as_refs_Some in Hli, Hlo, Hlc.
    apply as_events_Some in Hle. apply mapM_Some in Hins, Houts, Hcvs.
    by exists li, lo, lc, le, ins, outs, cvs.
  - intros (li & lo & lc & le & ins & outs & cvs & Htr & Hli & Hlo & Hlc & Hle & Hi & Ho & Hc).
    rewrite Htr. simpl. rewrite Hli. simpl.
    apply mapM_Some in Hi, Ho, Hc. rewrite Hi. simpl. rewrite Hlo. simpl.
    rewrite Ho. simpl. rewrite Hlc. simpl. rewrite Hc. simpl. rewrite Hle. simpl.
    by destruct tv.
Qed.

Lemma track_footprint_Some h tr ft :
  track_footprint h tr = Some ft <->
  exists n d li lo lc le ins outs cvs din dout,
    h !! tr = Some (ObjAnimTrack n d li lo lc le) /\
    h !! li = Some (ObjRefs ins) /\ h !! lo = Some (ObjRefs outs) /\
    h !! lc = Some (ObjRefs cvs) /\
    Forall2 (λ l dl, exists c, h !! l = Some (ObjAnimData c dl)) ins din /\
    Forall2 (λ l dl, exists c, h !! l = Some (ObjAnimData c dl)) outs dout /\
    ft = tr :: li :: lo :: lc :: le :: ins ++ din ++ outs ++ dout ++ cvs.
Proof.
  assert (Hd : forall l dl, snd <$> as_data (h !! l) = Some dl <->
                           exists c, h !! l = Some (ObjAnimData c dl)).
  { intros l dl. split.
    - destruct (as_data (h !! l)) as [[c d]|] eqn:E; [|done]. simpl.
      intros [= <-]. exists c. by apply as_data_Some.
    - intros [c ->]. done. }
  unfold track_footprint. split.
  - intros Hv.
    destruct (as_track (h !! tr)) as [[n d li lo lc le]|] eqn:Htr; [|done]. simpl in Hv.
    destruct (as_refs (h !! li)) as [ins|] eqn:Hli; [|done]. simpl in Hv.
    destruct (mapM _ ins) as [din|] eqn:Hins; [|done]. simpl in Hv.
    destruct (as_refs (h !! lo)) as [outs|] eqn:Hlo; [|done]. simpl in Hv.
    destruct (mapM _ outs) as [dout|] eqn:Houts; [|done]. simpl in Hv.
    destruct (as_refs (h !! lc)) as [cvs|] eqn:Hlc; [|done]. simpl in Hv.
    inversion Hv; subst; simpl.
    apply as_track_Some in Htr. apply as_refs_Some in Hli, Hlo, Hlc.
    apply mapM_Some in Hins, Houts.
    exists n, d, li, lo, lc, le, ins, outs, cvs, din, dout. repeat split; try done.
    + eapply Forall2_impl; [exact Hins|]. intros ??; apply Hd.
    + eapply Forall2_impl; [exact Houts|]. intros ??; apply Hd.
  - intros (n & d & li & lo & lc & le & ins & outs & cvs & din & dout
            & Htr & Hli & Hlo & Hlc & Hi & Ho & ->).
    rewrite Htr. simpl. rewrite Hli. simpl.
    assert (mapM (λ l, snd <$> as_data (h !! l)) ins = Some din) as ->.
    { apply mapM_Some. eapply Forall2_impl; [exact Hi|]. intros ??; apply Hd. }
    simpl. rewrite Hlo. simpl.
    assert (mapM (λ l, snd <$> as_data (h !! l)) outs = Some dout) as ->.
    { apply mapM_Some. eapply Forall2_impl; [exact Ho|]. intros ??; apply Hd. }
    simpl. by rewrite Hlc.
Qed.

End Views.

Section ConstructorCore.
Context {cache : Type} `{!AnimCache cache}.

Variables (h : list (@object cache)) (tr : loc).
Variables (tname : string) (tdur : Q) (li lo lc le : loc) (ins outs cvs : list loc).
Variables (outputs : list (Z * list Q)) (curves : list (Z * Z * interpolation)).

Hypothesis Htr : h !! tr = Some (ObjAnimTrack tname tdur li lo lc le).
Hypothesis Hli : h !! li = Some (ObjRefs ins).
Hypothesis Hlo : h !! lo = Some (ObjRefs outs).
Hypothesis Hlc : h !! lc = Some (ObjRefs cvs).
Hypothesis Houts : Forall2 (λ l d, view_data h l = Some d) outs outputs.
Hypothesis Hcvs : Forall2 (λ l c, as_curve (h !! l) = Some c) cvs curves.
Hypothesis Hrange :
  Forall (λ curve : Z * Z * interpolation,
            (0 <= curve.1.2 < Z.of_nat (length outputs))%Z) curves.

Let L := length h.
Let n := length ins.
Let m := length cvs.
Let buffers : list (list Q) :=
  (λ curve : Z * Z * interpolation,
     match array_get outputs curve.1.2 with
     | Some output => replicate (Z.to_nat output.1) 0%Q
     | None => []
     end) <$> curves.
Let snap : @object cache := ObjAnimSnapshot (tname ++ "Snapshot") (-1) L (S L).

(** The heap [new AnimSnapshot] leaves: the old heap, then the two arrays,
    the snapshot, one fresh cache per input and one buffer per curve. *)
Lemma AnimSnapshot_new_ok :
  AnimSnapshot_new tr h =
    (Ok (L + 2),
     h ++ ObjRefs (seq (L + 3) n) :: ObjRefs (seq (L + 3 + n) m) :: snap
       :: replicate n (ObjAnimCache AnimCache_new) ++ (ObjNumbers <$> buffers)).
Proof.
  pose proof (Forall2_length _ _ _ Houts) as Hlouts.
  pose proof (Forall2_length _ _ _ Hcvs) as Hlcvs.
  unfold AnimSnapshot_new, AnimTrack_name.
  rewrite (bind_ok _ _ _ _ _ (bind_ok _ _ _ _ _ (load_track_ok _ _ _ _ _ _ _ _ Htr))).
  cbn [t_name].
  unfold alloc at 1. unfold bind at 1.
  unfold alloc at 1. unfold bind at 1.
  unfold alloc at 1. unfold bind at 1.
  rewrite !length_app. cbn [length].
  replace (length h + 1) with (S L) by (unfold L; lia).
  replace (S L + 1) with (L + 2) by lia.
  fold L. fold snap.
  assert (Hheap0 : ((h ++ [ObjRefs []]) ++ [ObjRefs []]) ++ [snap]
                   = h ++ ObjRefs (seq (L + 3) 0) :: ObjRefs [] :: snap
                       :: replicate 0 (ObjAnimCache AnimCache_new)).
  { by rewrite <- !app_assoc. }
  rewrite Hheap0. clear Hheap0.
  match goal with
  | |- _ ?hh = _ => set (hA := hh)
  end.
  assert (Hold0 : forall l o, h !! l = Some o -> hA !! l = Some o).
  { intros l o Hl. unfold hA. by apply lookup_app_l_Some. }
  rewrite (bind_ok _ _ _ _ _ (load_track_ok _ _ _ _ _ _ _ _ (Hold0 _ _ Htr))).
  cbn [t_inputs t_outputs t_curves].
  rewrite (bind_ok _ _ _ _ _ (bind_ok _ _ _ _ _ (load_refs_ok _ _ _ (Hold0 _ _ Hli)))).
  fold n.
  (* pre-allocate input caches *)
  set (J1 := fun (i : nat) (hc : list (@object cache)) =>
    hc = h ++ ObjRefs (seq (L + 3) i) :: ObjRefs [] :: snap
           :: replicate i (ObjAnimCache AnimCache_new)).
  match goal with
  | |- context [for_range ?k ?body] =>
      destruct (for_range_ok body J1 k hA) as (hB & Hrun1 & HJ1)
  end.
  { done. }
  { intros i hc Hi ->. unfold alloc at 1. unfold bind at 1.
    rewrite length_app. cbn [length]. rewrite length_replicate. fold L.
    rewrite <- app_assoc. cbn [app].
    rewrite (bind_ok _ _ _ _ _ (load_refs_ok _ _ _ (list_lookup_middle _ _ _ L eq_refl))).
    unfold store. eexists. split; [reflexivity|]. unfold J1.
    rewrite insert_app_r_alt by (unfold L; lia).
    replace (L - length h) with 0 by (unfold L; lia). cbn [insert list_insert].
    unfold array_set. rewrite length_seq.
    destruct (decide (i < i)); [lia|].
    replace (L + S (S (S i))) with (L + 3 + i) by lia.
    rewrite <- seq_S. by rewrite replicate_S_end. }
  rewrite (bind_ok _ _ _ _ _ Hrun1). unfold J1 in HJ1. subst hB. clear Hrun1 J1.
  (* pre-allocate storage for evaluation results *)
  match goal with
  | |- _ ?hh = _ => set (hB := hh)
  end.
  assert (HoldB : forall l o, h !! l = Some o -> hB !! l = Some o).
  { intros l o Hl. unfold hB. by apply lookup_app_l_Some. }
  rewrite (bind_ok _ _ _ _ _ (bind_ok _ _ _ _ _ (load_refs_ok _ _ _ (HoldB _ _ Hlc)))).
  fold m.
  set (J2 := fun (k : nat) (hc : list (@object cache)) =>
    hc = h ++ ObjRefs (seq (L + 3) n) :: ObjRefs (seq (L + 3 + n) k) :: snap
           :: replicate n (ObjAnimCache AnimCache_new) ++ (ObjNumbers <$> take k buffers)).
  assert (Hlbuf : length buffers = m).
  { unfold buffers, m. rewrite length_fmap. lia. }
  match goal with
  | |- context [for_range ?k ?body] =>
      destruct (for_range_ok body J2 k hB) as (hC & Hrun2 & HJ2)
  end.
  { unfold J2, hB. by rewrite take_0, app_nil_r. }
  { intros k hc Hk HJ.
    assert (Hold : forall l o, h !! l = Some o -> hc !! l = Some o).
    { intros l o Hl. rewrite HJ. by apply lookup_app_l_Some. }
    destruct (lookup_lt_is_Some_2 cvs k ltac:(lia)) as [cv Hcv].
    destruct (lookup_lt_is_Some_2 curves k ltac:(lia)) as [[[ci co] mode] Hcurve].
    pose proof (Forall2_lookup_lr _ _ _ _ _ _ Hcvs Hcv Hcurve) as Hcv_obj.
    apply as_curve_Some in Hcv_obj.
    pose proof (proj1 (Forall_lookup _ _) Hrange k _ Hcurve) as Hco. simpl in Hco.
    destruct (lookup_lt_is_Some_2 outs (Z.to_nat co) ltac:(lia)) as [out Hout].
    destruct (lookup_lt_is_Some_2 outputs (Z.to_nat co) ltac:(lia)) as [[comp ys] Houtput].
    pose proof (Forall2_lookup_lr _ _ _ _ _ _ Houts Hout Houtput) as Hvd.
    apply view_data_Some in Hvd as (dl & Hout_obj & Hdl).
    rewrite (bind_ok _ _ _ _ _ (load_refs_ok _ _ _ (Hold _ _ Hlc))).
    rewrite Hcv. unfold defined at 1. unfold ret at 1. unfold bind at 1.
    rewrite (bind_ok _ _ _ _ _ (load_curve_ok _ _ _ _ _ (Hold _ _ Hcv_obj))).
    rewrite (bind_ok _ _ _ _ _ (load_refs_ok _ _ _ (Hold _ _ Hlo))).
    cbn [fst snd]. unfold alloc at 1. unfold bind at 1. unfold array_get at 1.
    destruct (decide (0 <= co)%Z); [|lia].
    rewrite Hout. unfold defined at 1. unfold ret at 1. unfold bind at 1.
    rewrite (bind_ok _ _ _ _ _ (load_data_ok _ _ _ _
               (lookup_app_l_Some _ _ _ _ (Hold _ _ Hout_obj)))).
    cbn [fst].
    (* the storage of this curve *)
    set (K := fun (j : nat) (hcc : list (@object cache)) =>
      hcc = hc ++ [ObjNumbers (replicate j 0%Q)]).
    match goal with
    | |- context [for_range ?k' ?body] =>
        destruct (for_range_ok body K k' (hc ++ [ObjNumbers []])) as (hD & Hrun3 & HK)
    end.
    { done. }
    { intros j hcc Hj ->.
      rewrite (bind_ok _ _ _ _ _ (load_numbers_ok _ _ _
                 (list_lookup_middle _ _ _ (length hc) eq_refl))).
      unfold store. eexists. split; [reflexivity|]. unfold K.
      rewrite insert_app_r_alt by lia. rewrite Nat.sub_diag. cbn [insert list_insert].
      unfold array_set. rewrite length_replicate.
      destruct (decide (j < j)); [lia|]. by rewrite replicate_S_end. }
    rewrite (bind_ok _ _ _ _ _ Hrun3). unfold K in HK. subst hD. clear Hrun3 K.
    assert (Hlen_hc : length hc = L + 3 + n + k).
    { rewrite HJ, length_app. cbn [length]. rewrite length_app, length_replicate,
        length_fmap, length_take. unfold L. lia. }
    assert (HSL : (hc ++ [ObjNumbers (replicate (Z.to_nat comp) 0%Q)]) !! S L
                  = Some (ObjRefs (seq (L + 3 + n) k))).
    { apply lookup_app_l_Some. rewrite HJ. rewrite lookup_app_r by (unfold L; lia).
      replace (S L - length h) with 1 by (unfold L; lia). done. }
    rewrite (bind_ok _ _ _ _ _ (load_refs_ok _ _ _ HSL)).
    unfold store. eexists. split; [reflexivity|]. unfold J2.
    rewrite Hlen_hc, HJ. rewrite <- app_assoc.
    rewrite insert_app_r_alt by (unfold L; lia).
    replace (S L - length h) with 1 by (unfold L; lia). cbn [app insert list_insert].
    unfold array_set. rewrite length_seq.
    destruct (decide (k < k)); [lia|].
    rewrite <- seq_S.
    assert (Hbuf : buffers !! k = Some (replicate (Z.to_nat comp) 0%Q)).
    { unfold buffers. rewrite list_lookup_fmap, Hcurve. simpl.
      unfold array_get. destruct (decide (0 <= co)%Z); [|lia]. by rewrite Houtput. }
    rewrite (take_S_r _ _ _ Hbuf), fmap_app, <- app_assoc. done. }
  rewrite (bind_ok _ _ _ _ _ Hrun2). unfold J2 in HJ2. subst hC.
  unfold ret. rewrite take_ge by lia. done.
Qed.

End ConstructorCore.

(** Membership in a footprint written with [::] and [++]. *)
Ltac solve_elem := rewrite ?elem_of_cons, ?elem_of_app in *; tauto.

Lemma mapM_ext_elem {A B} (f g : A -> option B) (l : list A) :
  (forall x, x ∈ l -> f x = g x) -> mapM f l = mapM g l.
Proof.
  induction l as [|x l IH]; intros Hfg; [done|].
  cbn. rewrite (Hfg x) by left. rewrite IH; [done|].
  intros y Hy. apply Hfg. by right.
Qed.

Section Locality.
Context {cache : Type} `{!AnimCache cache}.
Implicit Types (h : list (@object cache)).

(** A snapshot is read through its footprint only. *)
Lemma view_snapshot_local h h' s fs :
  snapshot_footprint h s = Some fs ->
  (forall l, l ∈ fs -> h' !! l = h !! l) ->
  view_snapshot h' s = view_snapshot h s /\ snapshot_footprint h' s = Some fs.
Proof.
  intros Hfs Hsame.
  apply snapshot_footprint_Some in Hfs as (n & t & ca & ra & cs & bs & Hs & Hca & Hra & ->).
  assert (Hs' : h' !! s = h !! s) by (apply Hsame; solve_elem).
  assert (Hca' : h' !! ca = h !! ca) by (apply Hsame; solve_elem).
  assert (Hra' : h' !! ra = h !! ra) by (apply Hsame; solve_elem).
  split.
  - unfold view_snapshot. rewrite Hs', Hs. simpl. rewrite Hca', Hca, Hra', Hra. simpl.
    rewrite (mapM_ext_elem (λ l, as_cache (h' !! l)) (λ l, as_cache (h !! l)) cs).
    2:{ intros l Hl. rewrite Hsame; [done|solve_elem]. }
    rewrite (mapM_ext_elem (λ l, as_numbers (h' !! l)) (λ l, as_numbers (h !! l)) bs).
    2:{ intros l Hl. rewrite Hsame; [done|solve_elem]. }
    done.
  - apply snapshot_footprint_Some. exists n, t, ca, ra, cs, bs.
    by rewrite Hs', Hca', Hra'.
Qed.

(** A track is read through its footprint only. *)
Lemma view_track_local h h' tr ft :
  track_footprint h tr = Some ft ->
  (forall l, l ∈ ft -> h' !! l = h !! l) ->
  view_track h' tr = view_track h tr /\ track_footprint h' tr = Some ft.
Proof.
  intros Hft Hsame.
  apply track_footprint_Some in Hft
    as (n & d & li & lo & lc & le & ins & outs & cvs & din & dout
        & Htr & Hli & Hlo & Hlc & Hi & Ho & ->).
  assert (Htr' : h' !! tr = h !! tr) by (apply Hsame; solve_elem).
  assert (Hli' : h' !! li = h !! li) by (apply Hsame; solve_elem).
  assert (Hlo' : h' !! lo = h !! lo) by (apply Hsame; solve_elem).
  assert (Hlc' : h' !! lc = h !! lc) by (apply Hsame; solve_elem).
  assert (Hle' : h' !! le = h !! le) by (apply Hsame; solve_elem).
  assert (Hdata : forall ls ds l,
            Forall2 (λ l dl, exists c, h !! l = Some (ObjAnimData c dl)) ls ds ->
            (forall x, x ∈ ls ++ ds -> h' !! x = h !! x) ->
            l ∈ ls -> view_data h' l = view_data h l).
  { intros ls ds l HF Hx Hl.
    apply list_elem_of_lookup in Hl as [k Hk].
    destruct (Forall2_lookup_l _ _ _ _ _ HF Hk) as (dl & Hdl & c & Hobj).
    unfold view_data. rewrite Hx.
    2:{ apply elem_of_app. left. by eapply list_elem_of_lookup_2. }
    rewrite Hobj. simpl. rewrite Hx; [done|].
    apply elem_of_app. right. by eapply list_elem_of_lookup_2. }
  split.
  - unfold view_track. rewrite Htr', Htr. simpl.
    rewrite Hli', Hli, Hlo', Hlo, Hlc', Hlc, Hle'. simpl.
    rewrite (mapM_ext_elem (view_data h') (view_data h) ins).
    2:{ intros l Hl. apply (Hdata ins din); [done| |done].
        intros x Hx. apply Hsame. solve_elem. }
    rewrite (mapM_ext_elem (view_data h') (view_data h) outs).
    2:{ intros l Hl. apply (Hdata outs dout); [done| |done].
        intros x Hx. apply Hsame. solve_elem. }
    rewrite (mapM_ext_elem (λ l, as_curve (h' !! l)) (λ l, as_curve (h !! l)) cvs).
    2:{ intros l Hl. rewrite Hsame; [done|solve_elem]. }
    done.
  - apply track_footprint_Some.
    exists n, d, li, lo, lc, le, ins, outs, cvs, din, dout.
    rewrite Htr', Hli', Hlo', Hlc'. repeat split; try done.
    + apply Forall2_same_length_lookup_2; [by eapply Forall2_length|].
      intros k l dl Hk Hd. destruct (Forall2_lookup_lr _ _ _ _ _ _ Hi Hk Hd) as [c Hc].
      exists c. rewrite Hsame; [done|].
      apply list_elem_of_lookup_2 in Hk. solve_elem.
    + apply Forall2_same_length_lookup_2; [by eapply Forall2_length|].
      intros k l dl Hk Hd. destruct (Forall2_lookup_lr _ _ _ _ _ _ Ho Hk Hd) as [c Hc].
      exists c. rewrite Hsame; [done|].
      apply list_elem_of_lookup_2 in Hk. solve_elem.
Qed.

End Locality.

Section Bound.
Context {cache : Type} `{!AnimCache cache}.
Implicit Types (h : list (@object cache)).

Lemma eval_spec_lengths time tv (sv : @snapshot_view cache) :
  length (sv_cache sv) = length (tv_inputs tv) ->
  length (sv_results sv) = length (tv_curves tv) ->
  length (sv_cache (eval_spec time tv sv)) = length (tv_inputs tv) /\
  length (sv_results (eval_spec time tv sv)) = length (tv_curves tv).
Proof. intros H1 H2. simpl. rewrite !length_zip_with. lia. Qed.

(** Evaluating a track into a snapshot bound to it returns, changes nothing
    outside the snapshot's footprint, leaves the snapshot with the view
    [eval_spec] describes, and keeps it bound. *)
Lemma eval_bound h tr s time tv sv fs :
  bound h tr s -> track_ok h tr tv ->
  view_snapshot h s = Some sv -> snapshot_footprint h s = Some fs ->
  exists h',
    AnimTrack_eval tr time s h = (Ok tt, h') /\
    length h' = length h /\
    (forall l, l ∉ fs -> h' !! l = h !! l) /\
    view_snapshot h' s = Some (eval_spec time tv sv) /\
    snapshot_footprint h' s = Some fs /\
    track_ok h' tr tv /\ bound h' tr s.
Proof.
  intros (tv0 & sv0 & fs0 & ft & Htv & Hsv & Hfs & Hft & Hl1 & Hl2 & Hnd & Hdisj)
         [Htv' Hrange] Hsv' Hfs'.
  rewrite Htv in Htv'. rewrite Hsv in Hsv'. rewrite Hfs in Hfs'.
  injection Htv' as <-. injection Hsv' as <-. injection Hfs' as <-.
  pose proof Htv as Htv0. pose proof Hsv as Hsv0. pose proof Hfs as Hfs0.
  pose proof Hft as Hft0.
  apply view_track_Some in Htv
    as (li & lo & lc & le & ins & outs & cvs & Htr & Hli & Hlo & Hlc & Hle & Hi & Ho & Hc).
  apply view_snapshot_Some in Hsv as (ca & ra & cs & bs & Hs & Hca & Hra & Hcs & Hbs).
  apply snapshot_footprint_Some in Hfs as (?&?&?&?&?&?& Hs2 & Hca2 & Hra2 & ->).
  rewrite Hs in Hs2. injection Hs2 as <- <- <- <-.
  rewrite Hca in Hca2. rewrite Hra in Hra2. injection Hca2 as <-. injection Hra2 as <-.
  apply track_footprint_Some in Hft
    as (?&?&?&?&?&?&?&?&?& din & dout & Htr2 & Hli2 & Hlo2 & Hlc2 & Hdi & Hdo & ->).
  rewrite Htr in Htr2. injection Htr2 as <- <- <- <- <- <-.
  rewrite Hli in Hli2. rewrite Hlo in Hlo2. rewrite Hlc in Hlc2.
  injection Hli2 as <-. injection Hlo2 as <-. injection Hlc2 as <-.
  assert (Hnd_c : NoDup cs /\ NoDup bs).
  { apply NoDup_cons in Hnd as [_ Hnd]. apply NoDup_cons in Hnd as [_ Hnd].
    apply NoDup_cons in Hnd as [_ Hnd]. apply NoDup_app in Hnd. tauto. }
  destruct Hnd_c as [Hnd_c Hnd_b].
  assert (Hsep : forall l c dl, l ∈ ins ++ outs -> h !! l = Some (ObjAnimData c dl) -> dl ∉ bs).
  { intros l c dl Hl Hobj Hin.
    assert (dl ∈ din ++ dout) as Hd.
    { apply elem_of_app in Hl as [Hl|Hl]; apply list_elem_of_lookup in Hl as [k Hk].
      - destruct (Forall2_lookup_l _ _ _ _ _ Hdi Hk) as (dl' & Hk' & c' & Hobj').
        rewrite Hobj in Hobj'. simplify_eq.
        apply elem_of_app. left. by eapply list_elem_of_lookup_2.
      - destruct (Forall2_lookup_l _ _ _ _ _ Hdo Hk) as (dl' & Hk' & c' & Hobj').
        rewrite Hobj in Hobj'. simplify_eq.
        apply elem_of_app. right. by eapply list_elem_of_lookup_2. }
    apply (Hdisj dl); solve_elem. }
  destruct (AnimTrack_eval_ok h tr s time _ _ _ _ _ _ _ _ _ _ _ _ _ _ _ _ _ _ _ _
              Hs Hca Hra Hcs Hbs Htr Hli Hlo Hlc Hi Ho Hc Hl1 Hl2 Hnd_c Hnd_b Hsep Hrange)
    as (h' & Hrun & Hlen & Hframe & Hs' & Hcs' & Hbs').
  assert (Hout : forall l, l ∉ s :: ca :: ra :: cs ++ bs -> h' !! l = h !! l).
  { intros l Hl. apply Hframe; intros ?; apply Hl; subst; solve_elem. }
  pose proof Hnd as Hnd0.
  apply NoDup_cons in Hnd as [Hs_nin Hnd]. apply NoDup_cons in Hnd as [Hca_nin Hnd].
  apply NoDup_cons in Hnd as [Hra_nin Hnd].
  assert (Hca' : h' !! ca = Some (ObjRefs cs)).
  { rewrite Hframe; [done|intros ->; apply Hs_nin; solve_elem|intros ?; apply Hca_nin; solve_elem..]. }
  assert (Hra' : h' !! ra = Some (ObjRefs bs)).
  { rewrite Hframe; [done|intros ->; apply Hs_nin; solve_elem|intros ?; apply Hra_nin; solve_elem..]. }
  assert (Hsv1 : view_snapshot h' s = Some (eval_spec time tv0 sv0)).
  { apply view_snapshot_Some. exists ca, ra, cs, bs. by repeat split. }
  assert (Hfs1 : snapshot_footprint h' s = Some (s :: ca :: ra :: cs ++ bs)).
  { apply snapshot_footprint_Some. by exists (sv_name sv0), time, ca, ra, cs, bs. }
  destruct (view_track_local h h' tr _ Hft0) as [Htv1 Hft1].
  { intros l Hl. apply Hout. intros Hl'. by apply (Hdisj l). }
  rewrite Htv0 in Htv1.
  exists h'. repeat split; try done.
  destruct (eval_spec_lengths time tv0 sv0 Hl1 Hl2) as [Hl1' Hl2'].
  by eexists tv0, _, _, _.
Qed.

End Bound.

Section Allocation.
Context {cache : Type} `{!AnimCache cache}.
Implicit Types (h : list (@object cache)).

Lemma lookup_skip3 {A} (a b c : A) (l : list A) (k : nat) :
  (a :: b :: c :: l) !! (3 + k) = l !! k.
Proof. reflexivity. Qed.

(** The footprint of a track that can be read is allocated. *)
Lemma track_footprint_allocated h tr tv :
  view_track h tr = Some tv ->
  exists ft, track_footprint h tr = Some ft /\ forall l, l ∈ ft -> l < length h.
Proof.
  intros Htv.
  apply view_track_Some in Htv
    as (li & lo & lc & le & ins & outs & cvs & Htr & Hli & Hlo & Hlc & Hle & Hi & Ho & Hc).
  assert (Hdata : forall ls ds,
            Forall2 (λ l d, view_data h l = Some d) ls ds ->
            exists dls, Forall2 (λ l dl, exists c, h !! l = Some (ObjAnimData c dl)) ls dls /\
                        forall l, l ∈ ls ++ dls -> l < length h).
  { intros ls ds HF. induction HF as [|l [c xs] ls ds Hl HF (dls & IH1 & IH2)].
    - exists []. split; [constructor|]. intros l Hl. by apply elem_of_nil in Hl.
    - apply view_data_Some in Hl as (dl & Hobj & Hdl).
      exists (dl :: dls). split; [constructor; eauto|].
      intros l' Hl'. rewrite elem_of_app, !elem_of_cons in Hl'.
      destruct Hl' as [[->|Hl']|[->|Hl']].
      + by eapply lookup_lt_Some.
      + apply IH2. solve_elem.
      + by eapply lookup_lt_Some.
      + apply IH2. solve_elem. }
  destruct (Hdata _ _ Hi) as (din & Hdi & Hin_lt).
  destruct (Hdata _ _ Ho) as (dout & Hdo & Hout_lt).
  exists (tr :: li :: lo :: lc :: le :: ins ++ din ++ outs ++ dout ++ cvs). split.
  - apply track_footprint_Some.
    by exists (tv_name tv), (tv_duration tv), li, lo, lc, le, ins, outs, cvs, din, dout.
  - intros l Hl. rewrite !elem_of_cons, !elem_of_app in Hl.
    destruct Hl as [->|[->|[->|[->|[->|[Hl|[Hl|[Hl|[Hl|Hl]]]]]]]]];
      try (by eapply lookup_lt_Some).
    + apply Hin_lt. solve_elem.
    + apply Hin_lt. solve_elem.
    + apply Hout_lt. solve_elem.
    + apply Hout_lt. solve_elem.
    + apply list_elem_of_lookup in Hl as [k Hk].
      destruct (Forall2_lookup_l _ _ _ _ _ Hc Hk) as ([[ci co] m] & _ & Hobj).
      apply as_curve_Some in Hobj. by eapply lookup_lt_Some.
Qed.

(** The footprint of a snapshot that can be read is allocated. *)
Lemma snapshot_footprint_allocated h s sv :
  view_snapshot h s = Some sv ->
  exists fs, snapshot_footprint h s = Some fs /\ forall l, l ∈ fs -> l < length h.
Proof.
  intros Hsv.
  apply view_snapshot_Some in Hsv as (ca & ra & cs & bs & Hs & Hca & Hra & Hcs & Hbs).
  exists (s :: ca :: ra :: cs ++ bs). split.
  - apply snapshot_footprint_Some. by exists (sv_name sv), (sv_time sv), ca, ra, cs, bs.
  - intros l Hl. rewrite !elem_of_cons, elem_of_app in Hl.
    destruct Hl as [->|[->|[->|[Hl|Hl]]]]; try (by eapply lookup_lt_Some).
    + apply list_elem_of_lookup in Hl as [k Hk].
      destruct (Forall2_lookup_l _ _ _ _ _ Hcs Hk) as (c & _ & Hobj).
      by eapply lookup_lt_Some.
    + apply list_elem_of_lookup in Hl as [k Hk].
      destruct (Forall2_lookup_l _ _ _ _ _ Hbs Hk) as (c & _ & Hobj).
      by eapply lookup_lt_Some.
Qed.

(** [new AnimSnapshot(track)] returns; it leaves the objects that exist as
    they are and builds, out of new locations only, a snapshot bound to the
    track, with the view [fresh_snapshot] describes. *)
Lemma new_snapshot_bound h tr tv :
  track_ok h tr tv ->
  exists s h' fs,
    AnimSnapshot_new tr h = (Ok s, h') /\
    (forall l, l < length h -> h' !! l = h !! l) /\
    view_snapshot h' s = Some (fresh_snapshot tv) /\
    snapshot_footprint h' s = Some fs /\
    (forall l, l ∈ fs -> length h <= l) /\
    track_ok h' tr tv /\ bound h' tr s.
Proof.
  intros [Htv Hrange].
  destruct (track_footprint_allocated h tr tv Htv) as (ft & Hft & Hft_lt).
  pose proof Htv as Htv0.
  apply view_track_Some in Htv
    as (li & lo & lc & le & ins & outs & cvs & Htr & Hli & Hlo & Hlc & Hle & Hi & Ho & Hc).
  assert (Hrange_out : Forall (λ curve : Z * Z * interpolation,
            (0 <= curve.1.2 < Z.of_nat (length (tv_outputs tv)))%Z) (tv_curves tv)).
  { eapply Forall_impl; [exact Hrange|]. by intros ? [_ ?]. }
  pose proof (AnimSnapshot_new_ok h tr _ _ li lo lc le ins outs cvs _ _
                Htr Hli Hlo Hlc Ho Hc Hrange_out) as Hrun.
  pose proof (Forall2_length _ _ _ Hi) as Hlen_i.
  pose proof (Forall2_length _ _ _ Hc) as Hlen_c.
  set (L := length h) in *. set (n := length ins) in *. set (m := length cvs) in *.
  match type of Hrun with _ = (_, h ++ ?t) => set (tl := t) in * end.
  set (h' := h ++ tl) in *.
  set (cs := seq (L + 3) n). set (bs := seq (L + 3 + n) m).
  assert (Hold : forall l, l < length h -> h' !! l = h !! l).
  { intros l Hl. unfold h'. by rewrite lookup_app_l. }
  assert (Hnew : forall k, h' !! (L + k) = tl !! k).
  { intros k. unfold h'. rewrite lookup_app_r by (unfold L; lia). f_equal. unfold L. lia. }
  assert (Hs' : h' !! (L + 2) = Some (ObjAnimSnapshot (tv_name tv ++ "Snapshot") (-1) L (S L)))
    by (by rewrite Hnew).
  assert (Hca' : h' !! L = Some (ObjRefs cs)).
  { replace L with (L + 0) at 1 by lia. by rewrite Hnew. }
  assert (Hra' : h' !! S L = Some (ObjRefs bs)).
  { replace (S L) with (L + 1) by lia. by rewrite Hnew. }
  assert (Hsv' : view_snapshot h' (L + 2) = Some (fresh_snapshot tv)).
  { apply view_snapshot_Some. exists L, (S L), cs, bs.
    split; [done|]. split; [done|]. split; [done|]. split.
    - simpl. rewrite <- Hlen_i. fold n. unfold cs.
      apply Forall2_same_length_lookup_2; [by rewrite length_seq, length_replicate|].
      intros k l c Hk Hcache. apply lookup_seq in Hk as [-> Hk].
      apply lookup_replicate in Hcache as [-> _].
      replace (L + 3 + k) with (L + (3 + k)) by lia. rewrite Hnew.
      unfold tl. rewrite lookup_skip3. rewrite lookup_app_l by (by rewrite length_replicate).
      by rewrite lookup_replicate_2.
    - simpl. unfold bs.
      apply Forall2_same_length_lookup_2; [rewrite length_seq, length_fmap; lia|].
      intros k l b Hk Hb. apply lookup_seq in Hk as [-> Hk].
      replace (L + 3 + n + k) with (L + (3 + (n + k))) by lia. rewrite Hnew.
      unfold tl. rewrite lookup_skip3.
      rewrite lookup_app_r by (rewrite length_replicate; lia).
      rewrite length_replicate. replace (n + k - n) with k by lia.
      by rewrite list_lookup_fmap, Hb. }
  set (fs := (L + 2) :: L :: S L :: cs ++ bs).
  assert (Hfs' : snapshot_footprint h' (L + 2) = Some fs).
  { apply snapshot_footprint_Some. by eexists _, _, L, (S L), cs, bs. }
  assert (Hfs_ge : forall l, l ∈ fs -> L <= l).
  { intros l Hl. unfold fs, cs, bs in Hl.
    rewrite !elem_of_cons, elem_of_app, !elem_of_seq in Hl. lia. }
  assert (Hnd : NoDup fs).
  { unfold fs, cs, bs. repeat (apply NoDup_cons; split).
    - rewrite !elem_of_cons, elem_of_app, !elem_of_seq. lia.
    - rewrite !elem_of_cons, elem_of_app, !elem_of_seq. lia.
    - rewrite elem_of_app, !elem_of_seq. lia.
    - apply NoDup_app. repeat split; try apply NoDup_seq.
      intros l. rewrite !elem_of_seq. lia. }
  destruct (view_track_local h h' tr ft Hft) as [Htv' Hft'].
  { intros l Hl. apply Hold. by apply Hft_lt. }
  rewrite Htv0 in Htv'.
  exists (L + 2), h', fs. repeat split; try done.
  exists tv, (fresh_snapshot tv), fs, ft. repeat split; try done.
  - simpl. by rewrite length_replicate.
  - simpl. by rewrite length_fmap.
  - intros l Hl Hl'. apply Hfs_ge in Hl. apply Hft_lt in Hl'. unfold L in *. lia.
Qed.

End Allocation.

Section Histories.
Context {cache : Type} `{!AnimCache cache}.
Implicit Types (h : list (@object cache)).

(** A bound snapshot stays bound, with the same view, while its footprint
    and the track's are left alone. *)
Lemma bound_local h h' tr s fs :
  bound h tr s -> snapshot_footprint h s = Some fs ->
  (forall l ft, track_footprint h tr = Some ft -> l ∈ fs ++ ft -> h' !! l = h !! l) ->
  bound h' tr s /\ view_snapshot h' s = view_snapshot h s /\
  snapshot_footprint h' s = Some fs.
Proof.
  intros (tv & sv & fs0 & ft & Htv & Hsv & Hfs & Hft & Hl1 & Hl2 & Hnd & Hdisj) Hfs' Hsame.
  rewrite Hfs in Hfs'. injection Hfs' as <-.
  destruct (view_snapshot_local h h' s fs0 Hfs) as [Hsv' Hfs'].
  { intros l Hl. apply (Hsame l ft Hft). solve_elem. }
  destruct (view_track_local h h' tr ft Hft) as [Htv' Hft'].
  { intros l Hl. apply (Hsame l ft Hft). solve_elem. }
  split; [|done].
  exists tv, sv, fs0, ft. rewrite Htv', Hsv'. by repeat split.
Qed.

Lemma bound_footprints h tr s :
  bound h tr s ->
  exists fs ft, snapshot_footprint h s = Some fs /\ track_footprint h tr = Some ft /\
    (forall l, l ∈ fs -> l < length h) /\ (forall l, l ∈ ft -> l < length h) /\
    (forall l, l ∈ fs -> l ∉ ft).
Proof.
  intros (tv & sv & fs & ft & Htv & Hsv & Hfs & Hft & _ & _ & _ & Hdisj).
  destruct (track_footprint_allocated h tr tv Htv) as (ft' & Hft' & Hlt).
  destruct (snapshot_footprint_allocated h s sv Hsv) as (fs' & Hfs' & Hlt').
  rewrite Hft in Hft'. rewrite Hfs in Hfs'. injection Hft' as <-. injection Hfs' as <-.
  by exists fs, ft.
Qed.

Lemma perform_inv tr tv st op :
  history_inv tr tv st -> history_inv tr tv (perform tr st op).
Proof.
  destruct st as [h snaps]. intros (Hok & Hbound & Hdisj). simpl in *.
  destruct op as [|k time]; simpl.
  - (* a new snapshot is made of new locations *)
    destruct (new_snapshot_bound h tr tv Hok)
      as (s & h' & fs & -> & Hold & Hsv & Hfs & Hge & Hok' & Hb').
    assert (Hkeep : forall A, bound h tr A ->
              bound h' tr A /\ forall fa, snapshot_footprint h' A = Some fa ->
                snapshot_footprint h A = Some fa /\ forall l, l ∈ fa -> l < length h).
    { intros A HA. destruct (bound_footprints h tr A HA) as (fa & ft & Hfa & Hft & Hlt & Hlt' & _).
      destruct (bound_local h h' tr A fa HA Hfa) as (HA' & _ & Hfa').
      { intros l ft' Hft'' Hl. rewrite Hft in Hft''. injection Hft'' as <-.
        apply Hold. apply elem_of_app in Hl as [Hl|Hl]; auto. }
      split; [done|]. intros fa' Hfa''. rewrite Hfa' in Hfa''. by injection Hfa'' as <-. }
    repeat split; simpl.
    + apply Hok'.
    + apply Hok'.
    + intros k A Hk. apply lookup_app_Some in Hk as [Hk|[_ Hk]].
      * by apply Hkeep, (Hbound k).
      * apply list_lookup_singleton_Some in Hk as [_ <-]. done.
    + intros i j A B fa fb Hne Hi Hj Hfa Hfb l Hl Hl'.
      apply lookup_app_Some in Hi as [Hi|[Hlen_i Hi]];
        apply lookup_app_Some in Hj as [Hj|[Hlen_j Hj]].
      * destruct (Hkeep A (Hbound i A Hi)) as [_ HA]. destruct (HA fa Hfa) as [Hfa0 _].
        destruct (Hkeep B (Hbound j B Hj)) as [_ HB]. destruct (HB fb Hfb) as [Hfb0 _].
        by apply (Hdisj i j A B fa fb Hne Hi Hj Hfa0 Hfb0 l).
      * apply list_lookup_singleton_Some in Hj as [_ <-].
        rewrite Hfs in Hfb. injection Hfb as <-.
        destruct (Hkeep A (Hbound i A Hi)) as [_ HA]. destruct (HA fa Hfa) as [_ Hlt].
        apply Hlt in Hl. apply Hge in Hl'. lia.
      * apply list_lookup_singleton_Some in Hi as [_ <-].
        rewrite Hfs in Hfa. injection Hfa as <-.
        destruct (Hkeep B (Hbound j B Hj)) as [_ HB]. destruct (HB fb Hfb) as [_ Hlt].
        apply Hlt in Hl'. apply Hge in Hl. lia.
      * apply list_lookup_singleton_Some in Hi as [Hi _].
        apply list_lookup_singleton_Some in Hj as [Hj _]. lia.
  - (* an evaluation stays inside the footprint of its snapshot *)
    destruct (snaps !! k) as [A|] eqn:HkA; [|split; [done|split; done]].
    pose proof (Hbound k A HkA) as HA.
    destruct (bound_footprints h tr A HA) as (fa & ft & Hfa & Hft & _ & _ & HdA).
    destruct HA as (tv0 & sv & fs0 & ft0 & Htv0 & Hsv & Hrest).
    destruct (eval_bound h tr A time tv sv fa (Hbound k A HkA) Hok Hsv Hfa)
      as (h' & Hrun & Hlen & Hframe & Hsv' & Hfa' & Hok' & HA').
    rewrite Hrun. simpl.
    assert (Hkeep : forall j B, j <> k -> snaps !! j = Some B ->
              bound h' tr B /\ forall fb, snapshot_footprint h' B = Some fb ->
                snapshot_footprint h B = Some fb).
    { intros j B Hne HjB. pose proof (Hbound j B HjB) as HB.
      destruct (bound_footprints h tr B HB) as (fb & ft' & Hfb & Hft' & _ & _ & _).
      rewrite Hft in Hft'. injection Hft' as <-.
      destruct (bound_local h h' tr B fb HB Hfb) as (HB' & _ & Hfb').
      { intros l ft' Hft'' Hl. rewrite Hft in Hft''. injection Hft'' as <-.
        apply Hframe. intros Hl'. apply elem_of_app in Hl as [Hl|Hl].
        - by apply (Hdisj k j A B fa fb ltac:(auto) HkA HjB Hfa Hfb l).
        - by apply (HdA l). }
      split; [done|]. intros fb' Hfb''. rewrite Hfb' in Hfb''. by injection Hfb'' as <-. }
    assert (HkeepA : forall fb, snapshot_footprint h' A = Some fb ->
                                 snapshot_footprint h A = Some fb).
    { intros fb Hfb. rewrite Hfa' in Hfb. by injection Hfb as <-. }
    repeat split; simpl.
    + apply Hok'.
    + apply Hok'.
    + intros j B HjB. destruct (decide (j = k)) as [->|Hne].
      * rewrite HkA in HjB. by injection HjB as <-.
      * by apply (Hkeep j B).
    + intros i j X Y fx fy Hne Hi Hj Hfx Hfy.
      apply (Hdisj i j X Y fx fy Hne Hi Hj).
      * destruct (decide (i = k)) as [->|Hik].
        -- rewrite HkA in Hi. injection Hi as <-. by apply HkeepA.
        -- by apply (Hkeep i X Hik Hi).
      * destruct (decide (j = k)) as [->|Hjk].
        -- rewrite HkA in Hj. injection Hj as <-. by apply HkeepA.
        -- by apply (Hkeep j Y Hjk Hj).
Qed.

Lemma history_inv_run tr tv ops st :
  history_inv tr tv st -> history_inv tr tv (foldl (perform tr) st ops).
Proof.
  revert st. induction ops as [|op ops IH]; intros st Hinv; [done|].
  simpl. by apply IH, perform_inv.
Qed.

Lemma history_inv_history tr tv h ops :
  track_ok h tr tv -> history_inv tr tv (history tr h ops).
Proof.
  intros Hok. apply history_inv_run. repeat split; simpl; try apply Hok.
  - intros k s Hk. by rewrite lookup_nil in Hk.
  - intros i j A B fa fb _ Hi. by rewrite lookup_nil in Hi.
Qed.

End Histories.

(** ** The claims about the evaluator *)

Section EvaluatorClaims.
Context {cache : Type} `{!AnimCache cache}.
Implicit Types (h : list (@object cache)).

(** C1.  For every time [time] and every snapshot bound to a track (whose
    curves index its input and output pools), [AnimTrack.eval(time,
    snapshot)] returns and leaves the snapshot as [eval_spec] describes:
    every cache [i] has been updated with [(time, inputs[i].data)], every
    curve's result buffer holds what the updated [cache[curve.input]] writes
    for [curve.interpolation] and [outputs[curve.output]], and the
    snapshot's time is [time]. *)
Theorem AnimTrack_eval_correct h tr s time tv sv :
  track_ok h tr tv -> bound h tr s -> view_snapshot h s = Some sv ->
  exists h',
    AnimTrack_eval tr time s h = (Ok tt, h') /\
    view_snapshot h' s = Some (eval_spec time tv sv) /\
    sv_time (eval_spec time tv sv) = time /\
    (forall i c input, sv_cache sv !! i = Some c -> tv_inputs tv !! i = Some input ->
       sv_cache (eval_spec time tv sv) !! i = Some (AnimCache_update time input.2 c)) /\
    (forall k curve result,
       tv_curves tv !! k = Some curve -> sv_results sv !! k = Some result ->
       exists c output,
         array_get (sv_cache (eval_spec time tv sv)) curve.1.1 = Some c /\
         array_get (tv_outputs tv) curve.1.2 = Some output /\
         sv_results (eval_spec time tv sv) !! k
         = Some (AnimCache_eval result curve.2 output.1 output.2 c)).
Proof.
  intros Hok Hb Hsv.
  destruct Hb as (tv0 & sv0 & fs & ft & Htv0 & Hsv0 & Hfs & Hrest).
  destruct (eval_bound h tr s time tv sv fs) as (h' & Hrun & _ & _ & Hsv' & _); try done.
  { by exists tv0, sv0, fs, ft. }
  destruct Hok as [Htv Hrange]. destruct Hrest as (_ & Hl1 & Hl2 & _).
  rewrite Htv in Htv0. rewrite Hsv in Hsv0. injection Htv0 as <-. injection Hsv0 as <-.
  exists h'. split; [done|]. split; [done|]. split; [done|]. split.
  - intros i c input Hc Hin. simpl. by rewrite lookup_zip_with, Hc, Hin.
  - intros k curve result Hcurve Hres.
    pose proof (proj1 (Forall_lookup _ _) Hrange k _ Hcurve) as [Hci Hco].
    set (caches' := sv_cache (eval_spec time tv sv)).
    assert (Hlen : length caches' = length (tv_inputs tv)).
    { unfold caches'. simpl. rewrite length_zip_with. lia. }
    destruct (lookup_lt_is_Some_2 caches' (Z.to_nat curve.1.1) ltac:(lia)) as [c Hc].
    destruct (lookup_lt_is_Some_2 (tv_outputs tv) (Z.to_nat curve.1.2) ltac:(lia))
      as [output Hout].
    assert (Hgc : array_get caches' curve.1.1 = Some c).
    { unfold array_get. destruct (decide (0 <= curve.1.1)%Z); [done|lia]. }
    assert (Hgo : array_get (tv_outputs tv) curve.1.2 = Some output).
    { unfold array_get. destruct (decide (0 <= curve.1.2)%Z); [done|lia]. }
    exists c, output. split; [done|]. split; [done|].
    change (sv_results (eval_spec time tv sv))
      with (zip_with (eval_curve caches' (tv_outputs tv)) (tv_curves tv) (sv_results sv)).
    rewrite lookup_zip_with, Hcurve, Hres. cbn [mbind option_bind].
    unfold eval_curve. by rewrite Hgc, Hgo.
Qed.

(** C3.  Constructing an AnimSnapshot from a track (whose curves index its
    output pool) returns a snapshot with exactly one new AnimCache per input
    and exactly one result buffer per curve, all of them distinct objects;
    each buffer is all zeros and as long as the component count of the
    output AnimData its curve refers to. *)
Theorem AnimSnapshot_new_correct h tr tv :
  track_ok h tr tv ->
  exists s h' sv fs,
    AnimSnapshot_new tr h = (Ok s, h') /\
    view_snapshot h' s = Some sv /\
    snapshot_footprint h' s = Some fs /\ NoDup fs /\
    sv_cache sv = replicate (length (tv_inputs tv)) AnimCache_new /\
    length (sv_results sv) = length (tv_curves tv) /\
    (forall k curve, tv_curves tv !! k = Some curve ->
       exists output,
         array_get (tv_outputs tv) curve.1.2 = Some output /\
         sv_results sv !! k = Some (replicate (Z.to_nat output.1) 0%Q) /\
         ((0 <= output.1)%Z ->
          Z.of_nat (length (replicate (Z.to_nat output.1) 0%Q)) = output.1)).
Proof.
  intros Hok.
  destruct (new_snapshot_bound h tr tv Hok) as (s & h' & fs & Hrun & _ & Hsv & Hfs & _ & _ & Hb).
  destruct Hb as (_ & _ & fs0 & _ & _ & _ & Hfs0 & _ & _ & _ & Hnd & _).
  rewrite Hfs in Hfs0. injection Hfs0 as <-.
  exists s, h', (fresh_snapshot tv), fs. repeat split; try done.
  - simpl. by rewrite length_fmap.
  - intros k curve Hcurve.
    destruct Hok as [_ Hrange].
    pose proof (proj1 (Forall_lookup _ _) Hrange k _ Hcurve) as [_ Hco].
    destruct (lookup_lt_is_Some_2 (tv_outputs tv) (Z.to_nat curve.1.2) ltac:(lia))
      as [output Hout].
    assert (Hgo : array_get (tv_outputs tv) curve.1.2 = Some output).
    { unfold array_get. destruct (decide (0 <= curve.1.2)%Z); [done|lia]. }
    exists output. split; [done|]. split.
    + simpl. by rewrite list_lookup_fmap, Hcurve; simpl; rewrite Hgo.
    + intros Hc. rewrite length_replicate. lia.
Qed.

(** C4.  Take any history of a track: snapshots created from it and
    evaluated at any times, in any order.  For two distinct snapshots [A]
    and [B] of the history and every time, [eval(time, A)] returns, changes
    no location outside [A]'s footprint, and leaves [B] (its time, its
    caches and its result buffers) exactly as it was. *)
Theorem AnimTrack_eval_frame h0 tr tv ops h snaps i j A B time :
  track_ok h0 tr tv -> history tr h0 ops = (h, snaps) ->
  snaps !! i = Some A -> snaps !! j = Some B -> i <> j ->
  exists h' fa,
    AnimTrack_eval tr time A h = (Ok tt, h') /\
    snapshot_footprint h A = Some fa /\
    (forall l, l ∉ fa -> h' !! l = h !! l) /\
    is_Some (view_snapshot h B) /\
    view_snapshot h' B = view_snapshot h B.
Proof.
  intros Hok Hhist HA HB Hne.
  pose proof (history_inv_history tr tv h0 ops Hok) as Hinv.
  rewrite Hhist in Hinv. destruct Hinv as (Hok' & Hbound & Hdisj). simpl in *.
  pose proof (Hbound i A HA) as HbA. pose proof (Hbound j B HB) as HbB.
  destruct (bound_footprints h tr A HbA) as (fa & ft & Hfa & Hft & _ & _ & _).
  destruct (bound_footprints h tr B HbB) as (fb & ft' & Hfb & _ & _ & _ & _).
  destruct HbA as (tv0 & svA & HrestA). pose proof HrestA as (? & ? & _ & HsvA & _).
  destruct HbB as (tv1 & svB & HrestB). pose proof HrestB as (? & ? & _ & HsvB & _).
  destruct (eval_bound h tr A time tv svA fa) as (h' & Hrun & _ & Hframe & _); try done.
  { by exists tv0, svA. }
  exists h', fa. split; [done|]. split; [done|]. split; [done|]. split.
  - rewrite HsvB. by eexists.
  - apply (view_snapshot_local h h' B fb Hfb).
    intros l Hl. apply Hframe. intros Hl'.
    by apply (Hdisj i j A B fa fb Hne HA HB Hfa Hfb l).
Qed.

End EvaluatorClaims.

Section TrackClaims.
Context {cache : Type} `{!AnimCache cache}.
Implicit Types (h : list (@object cache)).

(** C2, as amended.  [new AnimData(components, data)] checks nothing: for
    every component count and every data array it returns a new AnimData
    whose getters give back exactly that count and that array; the numbers
    seen through it are all the numbers of the array (nothing is cut off). *)
Theorem AnimData_new_stores h (components : Z) (data : loc) :
  let this := length h in
  let h' := h ++ [ObjAnimData components data] in
  AnimData_new components data h = (Ok this, h') /\
  AnimData_components this h' = (Ok components, h') /\
  AnimData_data this h' = (Ok data, h') /\
  (forall l, l < length h -> h' !! l = h !! l) /\
  (forall xs, h !! data = Some (ObjNumbers xs) -> view_data h' this = Some (components, xs)).
Proof.
  intros this h'.
  assert (Hthis : h' !! this = Some (ObjAnimData components data)).
  { unfold h', this. by apply list_lookup_middle. }
  split; [done|]. split; [|split; [|split]].
  - unfold AnimData_components. by rewrite (bind_ok _ _ _ _ _ (load_data_ok _ _ _ _ Hthis)).
  - unfold AnimData_data. by rewrite (bind_ok _ _ _ _ _ (load_data_ok _ _ _ _ Hthis)).
  - intros l Hl. unfold h'. by rewrite lookup_app_l.
  - intros xs Hxs. apply view_data_Some. exists data. split; [done|].
    unfold h'. by apply lookup_app_l_Some.
Qed.

(** C8, as amended.  On a track (whose curves index its pools): the getters
    of AnimTrack and AnimData leave the heap as it is; binding a snapshot
    and evaluating into a bound snapshot leave the track and its AnimData
    as they are, evaluation writing into the snapshot's footprint only; the
    [events] setter replaces the events of the track and changes nothing
    else. *)
Theorem AnimTrack_changes_by_events_setter_only h tr tv :
  track_ok h tr tv ->
  (AnimTrack_name tr h = (Ok (tv_name tv), h) /\
   AnimTrack_duration tr h = (Ok (tv_duration tv), h) /\
   AnimTrack_events tr h = (Ok (tv_events tv), h) /\
   (exists li, AnimTrack_inputs tr h = (Ok li, h)) /\
   (exists lo, AnimTrack_outputs tr h = (Ok lo, h)) /\
   (exists lc, AnimTrack_curves tr h = (Ok lc, h))) /\
  (forall d, (AnimData_components d h).2 = h /\ (AnimData_data d h).2 = h) /\
  (exists s h', AnimSnapshot_new tr h = (Ok s, h') /\ view_track h' tr = Some tv /\
                forall l, l < length h -> h' !! l = h !! l) /\
  (forall s time, bound h tr s ->
     exists h' fs, AnimTrack_eval tr time s h = (Ok tt, h') /\ view_track h' tr = Some tv /\
                   snapshot_footprint h s = Some fs /\
                   forall l, l ∉ fs -> h' !! l = h !! l) /\
  (forall e evs, h !! e = Some (ObjAnimEvents evs) ->
     exists h', AnimTrack_set_events tr e h = (Ok tt, h') /\
                view_track h' tr
                = Some (TrackView (tv_name tv) (tv_duration tv) (tv_inputs tv)
                                  (tv_outputs tv) (tv_curves tv) evs) /\
                forall l, l <> tr -> h' !! l = h !! l).
Proof.
  intros Hok. pose proof Hok as [Htv Hrange].
  apply view_track_Some in Htv
    as (li & lo & lc & le & ins & outs & cvs & Htr & Hli & Hlo & Hlc & Hle & Hi & Ho & Hc).
  pose proof (load_track_ok _ _ _ _ _ _ _ _ Htr) as Hload.
  split; [|split; [|split; [|split]]].
  - unfold AnimTrack_name, AnimTrack_duration, AnimTrack_events, AnimTrack_inputs,
      AnimTrack_outputs, AnimTrack_curves.
    rewrite !(bind_ok _ _ _ _ _ Hload). cbn [t_animEvents].
    unfold load at 1. unfold bind at 1. rewrite Hle. eauto 10.
  - intros d. unfold AnimData_components, AnimData_data, load_data, load, bind, defined.
    by destruct (as_data (h !! d)).
  - destruct (new_snapshot_bound h tr tv Hok) as (s & h' & fs & Hrun & Hold & _ & _ & _ & Hok' & _).
    exists s, h'. split; [done|]. split; [apply Hok'|done].
  - intros s time Hb.
    destruct (bound_footprints h tr s Hb) as (fs & ft & Hfs & _).
    pose proof Hb as (tv0 & sv & ? & ? & _ & Hsv & _).
    destruct (eval_bound h tr s time tv sv fs Hb Hok Hsv Hfs)
      as (h' & Hrun & _ & Hframe & _ & _ & Hok' & _).
    exists h', fs. split; [done|]. split; [apply Hok'|done].
  - intros e evs He.
    unfold AnimTrack_set_events. rewrite (bind_ok _ _ _ _ _ Hload).
    cbn [t_name t_duration t_inputs t_outputs t_curves]. unfold store.
    eexists. split; [reflexivity|].
    assert (Htr_lt : tr < length h) by (by eapply lookup_lt_Some).
    assert (Hother : forall l, l <> tr ->
              <[tr:=ObjAnimTrack (tv_name tv) (tv_duration tv) li lo lc e]> h !! l = h !! l).
    { intros l Hl. by rewrite list_lookup_insert_ne. }
    split; [|done].
    apply view_track_Some. exists li, lo, lc, e, ins, outs, cvs. simpl.
    assert (Hdata : forall ls ds, Forall2 (λ l d, view_data h l = Some d) ls ds ->
              Forall2 (λ l d, view_data
                 (<[tr:=ObjAnimTrack (tv_name tv) (tv_duration tv) li lo lc e]> h) l = Some d)
                ls ds).
    { intros ls ds HF. eapply Forall2_impl; [exact HF|]. intros l [c xs] Hl. simpl in *.
      apply view_data_Some in Hl as (dl & Hobj & Hdl). apply view_data_Some.
      exists dl. rewrite !Hother by congruence. done. }
    split; [by rewrite list_lookup_insert_eq|].
    rewrite !Hother by congruence.
    repeat split; try done; try by apply Hdata.
    eapply Forall2_impl; [exact Hc|]. intros l [[ci co] m] Hl. simpl in *.
    apply as_curve_Some in Hl. rewrite Hother by congruence. by rewrite Hl.
Qed.

End TrackClaims.

(** *** The claims on the example track *)

Lemma example_track_ok (h : list (@object SpecCache)) :
  view_track h example_track = Some example_view -> track_ok h example_track example_view.
Proof.
  intros Hv. split; [done|].
  repeat constructor; simpl; lia.
Qed.

(** "Curve referencing an out-of-range input/output index: fatal": a
    snapshot cannot be made for an output that does not exist, and
    evaluation stops on an input that does not exist. *)
Example corrupted_track_is_fatal :
  (AnimSnapshot_new example_track corrupted_output_heap).1 = Throw TypeError /\
  (AnimSnapshot_new example_track corrupted_input_heap).1 = Ok 13 /\
  (AnimTrack_eval example_track 0 13
     (AnimSnapshot_new example_track corrupted_input_heap).2).1 = Throw TypeError.
Proof. repeat split. Qed.

Lemma AnimData_new_accepts_malformed :
  let h := example_heap in
  AnimData_new 0 0 h = (Ok 11, h ++ [ObjAnimData 0 0]) /\
  AnimData_new (-1) 0 h = (Ok 11, h ++ [ObjAnimData (-1) 0]) /\
  AnimData_new 2 0 h = (Ok 11, h ++ [ObjAnimData 2 0]) /\
  view_data (h ++ [ObjAnimData 2 0]) 11 = Some (2%Z, [0; 1#2; 1]%Q).
Proof. repeat split. Qed.

Lemma AnimTrack_events_setter_mutates :
  AnimTrack_events example_track example_heap = (Ok [], example_heap) /\
  exists h',
    AnimTrack_set_events example_track 10 example_heap = (Ok tt, h') /\
    AnimTrack_events example_track h' = (Ok [((1#2)%Q, "step")], h') /\
    view_track h' example_track <> view_track example_heap example_track.
Proof.
  split; [reflexivity|]. eexists. split; [reflexivity|]. split; [reflexivity|].
  vm_compute. discriminate.
Qed.

Lemma example_bound : bound example_bound_heap example_track 13.
Proof.
  exists example_view, (fresh_snapshot example_view),
    [13; 11; 12; 14; 15], [9; 5; 6; 7; 8; 2; 0; 3; 1; 4].
  repeat split; try reflexivity.
  - compute_done.
  - apply (proj1 (Forall_forall _ _)). compute_done.
Defined.

Lemma AnimTrack_eval_correct_witness :
  exists h',
    AnimTrack_eval example_track (1#4) 13 example_bound_heap = (Ok tt, h') /\
    sv_results <$> view_snapshot h' 13 = Some [[(1#2)%Q]].
Proof.
  destruct (AnimTrack_eval_correct example_bound_heap example_track 13 (1#4)
              example_view (fresh_snapshot example_view))
    as (h' & Hrun & Hview & _).
  - apply example_track_ok. reflexivity.
  - exact example_bound.
  - reflexivity.
  - exists h'. split; [exact Hrun|]. rewrite Hview. reflexivity.
Defined.

Lemma AnimSnapshot_new_correct_witness :
  exists s h' sv,
    AnimSnapshot_new example_track example_heap = (Ok s, h') /\
    view_snapshot h' s = Some sv /\
    length (sv_cache sv) = 1 /\ length (sv_results sv) = 1.
Proof.
  destruct (AnimSnapshot_new_correct example_heap example_track example_view)
    as (s & h' & sv & fs & Hrun & Hview & _ & _ & Hcache & Hres & _).
  - apply example_track_ok. reflexivity.
  - exists s, h', sv. split; [exact Hrun|]. split; [exact Hview|].
    rewrite Hcache, Hres. split; reflexivity.
Defined.

Lemma AnimTrack_eval_frame_witness :
  let st := history example_track example_heap
              [NewSnapshot; NewSnapshot; EvalSnapshot 1 (3#4)] in
  exists h',
    AnimTrack_eval example_track (1#4) 13 st.1 = (Ok tt, h') /\
    view_snapshot h' 18 = view_snapshot st.1 18.
Proof.
  intros st.
  destruct (AnimTrack_eval_frame example_heap example_track example_view
              [NewSnapshot; NewSnapshot; EvalSnapshot 1 (3#4)] st.1 st.2 0 1 13 18 (1#4))
    as (h' & fa & Hrun & _ & _ & _ & Hsame).
  - apply example_track_ok. reflexivity.
  - apply surjective_pairing.
  - reflexivity.
  - reflexivity.
  - lia.
  - exists h'. split; [exact Hrun|exact Hsame].
Defined.

Lemma AnimTrack_changes_by_events_setter_only_witness :
  AnimTrack_events example_track example_heap = (Ok [], example_heap) /\
  exists h',
    AnimTrack_set_events example_track 10 example_heap = (Ok tt, h') /\
    tv_curves <$> view_track h' example_track = Some (tv_curves example_view).
Proof.
  destruct (AnimTrack_changes_by_events_setter_only example_heap example_track example_view)
    as ((_ & _ & Hev & _) & _ & _ & _ & Hset).
  - apply example_track_ok. reflexivity.
  - split; [exact Hev|].
    destruct (Hset 10 [((1#2)%Q, "step")] eq_refl) as (h' & Hrun & Hview & _).
    exists h'. split; [exact Hrun|]. rewrite Hview. reflexivity.
Defined.

(** ** The claims about the anim component layer *)

Section LayerClaims.
Context {E : Type} `{!Collaborators E}.
Implicit Types (l : AnimComponentLayer E).

Lemma rebinds_app (cs cs' : list call) : rebinds (cs ++ cs') = rebinds cs + rebinds cs'.
Proof. unfold rebinds. by rewrite filter_app, length_app. Qed.

(** C6.  For every mask value (null and undefined included),
    [assignMask(mask)] returns; afterwards the [mask] getter returns exactly
    that value; and the owning component's [rebind] is called once if the
    controller's [assignMask] reported a change and not at all otherwise. *)
Theorem assignMask_stores_and_rebinds l (mask : value) :
  let reported := controller_assignMask mask (world l) in
  exists l',
    assignMask mask l = (Ok tt, l') /\
    get_mask l' = (Ok mask, l') /\
    calls l' = calls l ++ Call_controller_assignMask mask
                 :: (if reported.1 then [Call_component_rebind] else []) /\
    rebinds (calls l') = rebinds (calls l) + (if reported.1 then 1 else 0) /\
    world l' = (if reported.1 then component_rebind reported.2 else reported.2).
Proof.
  intros reported.
  exists (Layer (_name l) (_weight l) (_blendType l) mask
            (if reported.1 then component_rebind reported.2 else reported.2)
            (calls l ++ Call_controller_assignMask mask
               :: (if reported.1 then [Call_component_rebind] else []))).
  split; [|split; [done|split; [done|split; [|done]]]].
  - unfold assignMask, invoke_, invoke, bind, modify, ret. cbn. fold reported.
    destruct (reported.1); cbn; [|done].
    unfold with_mask, with_world, with_call. cbn. by rewrite <- app_assoc.
  - cbn [calls]. rewrite rebinds_app. f_equal. by destruct (reported.1).
Qed.

(** C9, as amended.  Setting [weight] to any value stores it and calls the
    component's [dirtifyTargets]; setting [blendType] stores the value and
    calls the component's [rebind] when the value differs from the current
    blend type, and does nothing at all when it is the current one. *)
Theorem weight_and_blendType_setters l (w : Q) (b : string) :
  set_weight w l
  = (Ok tt, Layer (_name l) w (_blendType l) (_mask l)
                  (component_dirtifyTargets (world l))
                  (calls l ++ [Call_component_dirtifyTargets])) /\
  set_blendType b l
  = (Ok tt, if decide (b = _blendType l) then l
            else Layer (_name l) (_weight l) b (_mask l)
                       (component_rebind (world l))
                       (calls l ++ [Call_component_rebind])).
Proof.
  split; [done|].
  unfold set_blendType, get, bind. destruct l as [n wt bt m wd cs]; cbn.
  destruct (decide (b ≠ bt)) as [Hne|Heq], (decide (b = bt)) as [Heq'|Hne'];
    try done; congruence.
Qed.

(** C10.  When [animTrack] is an AnimTrack and the controller's transition
    list is empty once the controller has assigned the animation,
    [assignAnimation] returns, having pushed onto that list the default
    transition from 'START' to [nodePath]; what follows is the activation
    step alone ([component.playing = true] if the component activates and
    is playable). *)
Theorem assignAnimation_default_transition l (nodePath : string) (ref : loc)
    (speed loop : value) :
  let animTrack := VObject CtorAnimTrack ref in
  let assigned := controller_assignAnimation nodePath animTrack speed loop (world l) in
  _transitions assigned = [] ->
  let pushed :=
    Outside [{| transition_from := "START"; transition_to := nodePath;
                transition_time := None; transition_offset := None |}]
            (hidden assigned) in
  exists l',
    assignAnimation nodePath animTrack speed loop l = (Ok tt, l') /\
    world l' = (if component_activate pushed && component_playable pushed
                then component_set_playing true pushed else pushed) /\
    Call_controller_assignAnimation nodePath animTrack speed loop ∈ calls l'.
Proof.
  intros animTrack assigned Hempty pushed.
  unfold assignAnimation, bind, defined, ret. cbn [get_constructor animTrack].
  destruct (decide (CtorAnimTrack ≠ CtorAnimTrack)) as [Hne|_]; [done|].
  unfold invoke_, invoke, get, modify. cbn.
  unfold pushed. unfold assigned in *. rewrite !Hempty.
  destruct (decide (length (@nil AnimTransition) = 0)) as [_|Hn]; [|done].
  cbn. rewrite !Hempty. cbn [app].
  match goal with |- context [if ?b then _ else _] => destruct b end; cbn.
  - eexists. split; [reflexivity|]. cbn. split; [done|].
    rewrite !elem_of_app, !list_elem_of_singleton. tauto.
  - eexists. split; [reflexivity|]. cbn. split; [done|].
    rewrite !elem_of_app, !list_elem_of_singleton. tauto.
Qed.

(** C7, where the code departs from it: handed [null] or [undefined],
    [assignAnimation] raises a TypeError on [animTrack.constructor]; it does
    not reach [Debug.error] and does not return.  (Nothing has been changed
    and no collaborator has been called.) *)
Theorem assignAnimation_nullish_throws l (nodePath : string) (speed loop : value) :
  assignAnimation nodePath VNull speed loop l = (Throw TypeError, l) /\
  assignAnimation nodePath VUndefined speed loop l = (Throw TypeError, l).
Proof. split; reflexivity. Qed.

(** Every other value that is not an AnimTrack is reported with
    [Debug.error] and changes nothing else. *)
Lemma assignAnimation_not_track l (nodePath : string) (v speed loop : value) :
  ~ is_AnimTrack v ->
  assignAnimation nodePath v speed loop l
  = match get_constructor v with
    | None => (Throw TypeError, l)
    | Some _ =>
        (Ok tt, with_call (Call_Debug_error
           "assignAnimation: animTrack supplied to function was not of type AnimTrack") l)
    end.
Proof.
  intros Hnot. unfold assignAnimation, bind, defined.
  destruct v as [| | | | |ctor ref]; try reflexivity. cbn.
  destruct (decide (ctor ≠ CtorAnimTrack)) as [|Heq]; [done|].
  exfalso. apply Hnot. exists ref. f_equal.
  by destruct (decide (ctor = CtorAnimTrack)).
Qed.

(** In either case nothing of the layer or outside it has changed and the
    controller has not been called. *)
Lemma assignAnimation_not_track_untouched l (nodePath : string) (v speed loop : value) :
  ~ is_AnimTrack v ->
  let l' := (assignAnimation nodePath v speed loop l).2 in
  world l' = world l /\ controller_calls (calls l') = controller_calls (calls l) /\
  (_name l', _weight l', _blendType l', _mask l')
  = (_name l, _weight l, _blendType l, _mask l).
Proof.
  intros Hnot l'. unfold l'. rewrite assignAnimation_not_track by done.
  destruct (get_constructor v); [|done]. cbn.
  split; [done|]. split; [|done].
  unfold controller_calls. rewrite filter_app. cbn. by rewrite app_nil_r.
Qed.

End LayerClaims.

(** *** The claims on the example layer *)

Lemma set_blendType_current_value_is_silent :
  _blendType example_layer = "overwrite" /\
  set_blendType "overwrite" example_layer = (Ok tt, example_layer) /\
  calls (set_blendType "overwrite" example_layer).2 = [].
Proof. repeat split. Qed.

Lemma assignAnimation_default_transition_witness :
  exists l',
    assignAnimation "idle" (VObject CtorAnimTrack 9) VUndefined VUndefined example_layer
    = (Ok tt, l') /\
    _transitions (world l')
    = [{| transition_from := "START"; transition_to := "idle";
          transition_time := None; transition_offset := None |}].
Proof.
  destruct (assignAnimation_default_transition example_layer "idle" 9 VUndefined VUndefined)
    as (l' & Hrun & Hworld & _).
  - reflexivity.
  - exists l'. split; [exact Hrun|]. rewrite Hworld. reflexivity.
Defined.

(** ** More about the evaluator *)

(** *** Loops and sequencing, whatever the outcome *)

Lemma bind_cases {St A B} (m : M St A) (k : A -> M St B) (h : St)
    (Q : outcome B * St -> Prop) :
  (forall a h', m h = (Ok a, h') -> Q (k a h')) ->
  (forall e h', m h = (Throw e, h') -> Q (Throw e, h')) ->
  Q (bind m k h).
Proof. unfold bind. destruct (m h) as [[a|e] h']; auto. Qed.

(** An invariant that every iteration keeps, returning or throwing, holds
    of the state a loop leaves. *)
Lemma for_each_invariant {St A} (I : St -> Prop) (body : A -> M St unit) ixs h :
  I h -> (forall i hc, I hc -> I (body i hc).2) -> I (for_each body ixs h).2.
Proof.
  intros HI Hbody. revert h HI. induction ixs as [|i ixs IH]; intros h HI; [done|].
  cbn [for_each]. apply bind_cases.
  - intros [] h' Hb. apply IH. specialize (Hbody i h HI). by rewrite Hb in Hbody.
  - intros e h' Hb. specialize (Hbody i h HI). by rewrite Hb in Hbody.
Qed.

Lemma for_range_invariant {St} (I : St -> Prop) (body : nat -> M St unit) n h :
  I h -> (forall i hc, I hc -> I (body i hc).2) -> I (for_range n body h).2.
Proof. apply for_each_invariant. Qed.

(** When a loop returns, every iteration has returned, from a state that
    satisfies the invariant. *)
Lemma for_each_returns {St A} (I : St -> Prop) (body : A -> M St unit) ixs h r h' :
  I h -> (forall i hc, I hc -> I (body i hc).2) ->
  for_each body ixs h = (Ok r, h') ->
  I h' /\ forall i, i ∈ ixs -> exists hc r' hc', I hc /\ body i hc = (Ok r', hc').
Proof.
  intros HI Hbody. revert h HI. induction ixs as [|j ixs IH]; intros h HI Hrun.
  - injection Hrun as _ <-. split; [done|]. intros i Hi. by apply elem_of_nil in Hi.
  - cbn [for_each] in Hrun. unfold bind in Hrun.
    destruct (body j h) as [[r1|e] h1] eqn:Hb; [|done].
    assert (HI1 : I h1). { specialize (Hbody j h HI). by rewrite Hb in Hbody. }
    destruct (IH h1 HI1 Hrun) as [HI' Hrest]. split; [done|].
    intros i Hi. apply elem_of_cons in Hi as [->|Hi]; [by exists h, r1, h1|by apply Hrest].
Qed.

Lemma for_range_returns {St} (I : St -> Prop) (body : nat -> M St unit) n h r h' :
  I h -> (forall i hc, I hc -> I (body i hc).2) ->
  for_range n body h = (Ok r, h') ->
  I h' /\ forall i, i < n -> exists hc r' hc', I hc /\ body i hc = (Ok r', hc').
Proof.
  intros HI Hbody Hrun.
  destruct (for_each_returns I body (seq 0 n) h r h' HI Hbody Hrun) as [HI' Hall].
  split; [done|]. intros i Hi. apply Hall, elem_of_seq. lia.
Qed.

Section Reads.
Context {cache : Type} `{!AnimCache cache}.
Implicit Types (h : list (@object cache)).

(** A typed read leaves the heap alone, and returns only what is there. *)
Lemma load_refs_inv h l r h' :
  load_refs l h = (r, h') ->
  h' = h /\ forall rs, r = Ok rs -> h !! l = Some (ObjRefs rs).
Proof.
  unfold load_refs, load, bind, defined, as_refs, ret, throw.
  destruct (h !! l) as [[]|]; intros [= <- <-]; split; try done; by intros ? [= ->].
Qed.
Lemma load_numbers_inv h l r h' :
  load_numbers l h = (r, h') ->
  h' = h /\ forall xs, r = Ok xs -> h !! l = Some (ObjNumbers xs).
Proof.
  unfold load_numbers, load, bind, defined, as_numbers, ret, throw.
  destruct (h !! l) as [[]|]; intros [= <- <-]; split; try done; by intros ? [= ->].
Qed.
Lemma load_data_inv h l r h' :
  load_data l h = (r, h') ->
  h' = h /\ forall d, r = Ok d -> h !! l = Some (ObjAnimData d.1 d.2).
Proof.
  unfold load_data, load, bind, defined, as_data, ret, throw.
  destruct (h !! l) as [[]|]; intros [= <- <-]; split; try done; by intros ? [= <-].
Qed.
Lemma load_curve_inv h l r h' :
  load_curve l h = (r, h') ->
  h' = h /\ forall c, r = Ok c -> h !! l = Some (ObjAnimCurve c.1.1 c.1.2 c.2).
Proof.
  unfold load_curve, load, bind, defined, as_curve, ret, throw.
  destruct (h !! l) as [[]|]; intros [= <- <-]; split; try done; by intros ? [= <-].
Qed.
Lemma load_cache_inv h l r h' :
  load_cache l h = (r, h') ->
  h' = h /\ forall c, r = Ok c -> h !! l = Some (ObjAnimCache c).
Proof.
  unfold load_cache, load, bind, defined, as_cache, ret, throw.
  destruct (h !! l) as [[]|]; intros [= <- <-]; split; try done; by intros ? [= ->].
Qed.
Lemma load_track_inv h l r h' :
  load_track l h = (r, h') ->
  h' = h /\ forall t, r = Ok t ->
    h !! l = Some (ObjAnimTrack (t_name t) (t_duration t) (t_inputs t) (t_outputs t)
                                (t_curves t) (t_animEvents t)).
Proof.
  unfold load_track, load, bind, defined, as_track, ret, throw.
  destruct (h !! l) as [[]|]; intros [= <- <-]; split; try done; by intros ? [= <-].
Qed.
Lemma load_snapshot_inv h l r h' :
  load_snapshot l h = (r, h') ->
  h' = h /\ forall s, r = Ok s ->
    h !! l = Some (ObjAnimSnapshot (s_name s) (s_time s) (s_cache s) (s_results s)).
Proof.
  unfold load_snapshot, load, bind, defined, as_snapshot, ret, throw.
  destruct (h !! l) as [[]|]; intros [= <- <-]; split; try done; by intros ? [= <-].
Qed.
Lemma defined_inv {A} (o : option A) h r h' :
  defined o h = (r, h') -> h' = h /\ forall a, r = Ok a -> o = Some a.
Proof.
  unfold defined, ret, throw. destruct o; intros [= <- <-]; split; try done; by intros ? [= ->].
Qed.
Lemma ret_length_inv h l (k : list loc -> nat) r h' :
  (let! rs := load_refs l in ret (k rs)) h = (r, h') ->
  h' = h /\ forall n, r = Ok n -> exists rs, h !! l = Some (ObjRefs rs) /\ n = k rs.
Proof.
  unfold bind. destruct (load_refs l h) as [[rs|e] h1] eqn:Hl;
    apply load_refs_inv in Hl as [-> Hrs]; unfold ret; intros [= <- <-]; split; try done.
  intros n [= <-]. exists rs. split; [by apply Hrs|done].
Qed.
End Reads.

Ltac read_inv H :=
  first [ apply load_refs_inv in H as [-> H]
        | apply load_numbers_inv in H as [-> H]
        | apply load_data_inv in H as [-> H]
        | apply load_curve_inv in H as [-> H]
        | apply load_cache_inv in H as [-> H]
        | apply load_track_inv in H as [-> H]
        | apply load_snapshot_inv in H as [-> H]
        | apply ret_length_inv in H as [-> H]
        | apply defined_inv in H as [-> H] ].

(** One step of a computation under an invariant [I] of the heap: a read
    that throws leaves the goal [I] of the heap as it is; a read that returns
    names its value and says what the heap holds. *)
Tactic Notation "step" constr(I) "as" ident(a) ident(H) :=
  cbv beta zeta;
  match goal with
  | |- I (snd (bind ?m ?k ?hc)) =>
      apply (bind_cases m k hc (λ r, I (snd r)));
      [ intros a ? H; read_inv H; specialize (H _ eq_refl)
      | intros ? ? H; read_inv H; try assumption ]
  end.

Ltac loop I H :=
  match goal with
  | |- I (snd (bind (for_range ?n ?body) ?k ?hc)) =>
      let Hl := fresh "Hl" in
      assert (Hl : I (snd (for_range n body hc)));
      [ apply (for_range_invariant I); [assumption | intros ? ? ?]
      | apply (bind_cases (for_range n body) k hc (λ r, I (snd r)));
        [ intros ? ? H; rewrite H in Hl; cbn [snd] in Hl
        | intros ? ? H; rewrite H in Hl; exact Hl ] ]
  end.

Section Shape.
Context {cache : Type} `{!AnimCache cache}.
Implicit Types (h : list (@object cache)).

Lemma same_shape_refl (o : @object cache) : same_shape o o.
Proof. by destruct o. Qed.

Lemma same_shape_trans (o1 o2 o3 : @object cache) :
  same_shape o1 o2 -> same_shape o2 o3 -> same_shape o1 o3.
Proof.
  destruct o1, o2, o3; cbn; try done; try congruence; intuition congruence.
Qed.

Lemma shape_refl h : Forall2 same_shape h h.
Proof. apply Forall_Forall2_diag, Forall_forall. intros. apply same_shape_refl. Qed.

Lemma shape_store h0 h l o o' :
  Forall2 same_shape h0 h -> h !! l = Some o -> same_shape o o' ->
  Forall2 same_shape h0 (<[l:=o']> h).
Proof.
  intros HF Hl Hs.
  destruct (Forall2_lookup_r _ _ _ _ _ HF Hl) as (o0 & Hl0 & Hs0).
  rewrite <- (list_insert_id h0 l o0 Hl0).
  apply Forall2_insert; [done|]. by eapply same_shape_trans.
Qed.

(** [AnimTrack.eval] under an invariant of the heap that survives the two
    writes of its loops: a cache object replaced by a cache object
    and a number array replaced by a number array. *)
Section EvalInvariant.
Variable I : list (@object cache) -> Prop.
Hypothesis I_cache : forall hc l c c',
  I hc -> hc !! l = Some (ObjAnimCache c) -> I (<[l:=ObjAnimCache c']> hc).
Hypothesis I_numbers : forall hc l xs xs',
  I hc -> hc !! l = Some (ObjNumbers xs) -> I (<[l:=ObjNumbers xs']> hc).

Lemma eval_inputs_body_invariant (time : Q) (cache_ inputs : loc) i hc :
  I hc ->
  I ((let! cs := load_refs cache_ in
      let! c := defined (cs !! i) in
      let! co := load_cache c in
      let! ins := load_refs inputs in
      let! input := defined (ins !! i) in
      let! d := load_data input in
      let! xs := load_numbers (snd d) in
      store c (ObjAnimCache (AnimCache_update time xs co))) hc).2.
Proof.
  intros HI.
  step I as cs Hcs. step I as c Hc. step I as co Hco. step I as ins Hins.
  step I as input Hinput. step I as d Hd. step I as xs Hxs.
  unfold store. cbn [snd]. by eapply I_cache.
Qed.

Lemma eval_curves_body_invariant (cache_ results outputs curves : loc) i hc :
  I hc ->
  I ((let! cvs := load_refs curves in
      let! cv := defined (cvs !! i) in
      let! curve := load_curve cv in
      let '(c_input, c_output, c_interpolation) := curve in
      let! os := load_refs outputs in
      let output := array_get os c_output in
      let! rs := load_refs results in
      let result := rs !! i in
      let! cs := load_refs cache_ in
      let! c := defined (array_get cs c_input) in
      let! co := load_cache c in
      let! out := defined output in
      let! d := load_data out in
      let! ys := load_numbers (snd d) in
      let! res := defined result in
      let! buf := load_numbers res in
      store res (ObjNumbers (AnimCache_eval buf c_interpolation (fst d) ys co))) hc).2.
Proof.
  intros HI.
  step I as cvs Hcvs. step I as cv Hcv. step I as curve Hcurve.
  destruct curve as [[c_input c_output] c_interpolation]. cbv beta iota.
  step I as os Hos. step I as rs Hrs. step I as cs Hcs. step I as c Hc.
  step I as co Hco. step I as out Hout. step I as d Hd.
  step I as ys Hys. step I as res Hres. step I as buf Hbuf.
  unfold store. cbn [snd]. by eapply I_numbers.
Qed.

Lemma AnimTrack_eval_invariant h tr time s f :
  as_snapshot (h !! s) = Some f ->
  I (<[s:=ObjAnimSnapshot (s_name f) time (s_cache f) (s_results f)]> h) ->
  I (AnimTrack_eval tr time s h).2.
Proof.
  intros Hs HI. unfold AnimTrack_eval.
  assert (Hload : load_snapshot s h = (Ok f, h)).
  { unfold load_snapshot, load, bind. by rewrite Hs. }
  rewrite (bind_ok _ _ _ _ _ Hload).
  unfold store at 1. unfold bind at 1.
  revert HI. generalize (<[s:=ObjAnimSnapshot (s_name f) time (s_cache f) (s_results f)]> h).
  intros h1 HI.
  step I as t Ht. step I as n Hn.
  loop I Hloop. { by apply eval_inputs_body_invariant. }
  step I as m Hm.
  apply (for_range_invariant I); [assumption|]. intros i hc HIc.
  by apply eval_curves_body_invariant.
Qed.

End EvalInvariant.

Lemma AnimTrack_eval_not_snapshot h tr time s :
  as_snapshot (h !! s) = None -> AnimTrack_eval tr time s h = (Throw TypeError, h).
Proof.
  intros Hs. unfold AnimTrack_eval. unfold load_snapshot, load. unfold bind at 1 2.
  by rewrite Hs.
Qed.

Lemma AnimTrack_eval_shape h tr time s :
  Forall2 same_shape h (AnimTrack_eval tr time s h).2.
Proof.
  destruct (as_snapshot (h !! s)) as [f|] eqn:Hs.
  - apply (AnimTrack_eval_invariant (Forall2 same_shape h)) with (f := f); [| |done|].
    + intros hc l c c' HI Hl. by eapply shape_store.
    + intros hc l c c' HI Hl. by eapply shape_store.
    + destruct (h !! s) as [[]|] eqn:Hl; try done. injection Hs as <-.
      eapply shape_store; [apply shape_refl|done|done].
  - rewrite AnimTrack_eval_not_snapshot by done. apply shape_refl.
Qed.

Lemma bind_alloc {B} (o : @object cache) (k : loc -> M _ B) h :
  bind (alloc o) k h = k (length h) (h ++ [o]).
Proof. reflexivity. Qed.

Lemma AnimTrack_name_inv h l r h' :
  AnimTrack_name l h = (r, h') -> h' = h.
Proof.
  unfold AnimTrack_name, bind. destruct (load_track l h) as [[t|e] h1] eqn:Hl;
    apply load_track_inv in Hl as [-> _]; unfold ret; by intros [= <- <-].
Qed.

Lemma prefix_store h hc l (o : @object cache) :
  h `prefix_of` hc -> length h <= l -> h `prefix_of` <[l:=o]> hc.
Proof.
  intros [k ->] Hl. exists (<[l - length h:=o]> k). by rewrite insert_app_r_alt.
Qed.

Lemma prefix_alloc h hc (o : @object cache) :
  h `prefix_of` hc -> h `prefix_of` (hc ++ [o]).
Proof. intros H. by apply prefix_app_r. Qed.

Lemma new_caches_body_prefix h (cache_ : loc) i hc :
  length h <= cache_ -> h `prefix_of` hc ->
  h `prefix_of`
    ((let! c := alloc (ObjAnimCache AnimCache_new) in
      let! cs := load_refs cache_ in
      store cache_ (ObjRefs (array_set i c cs))) hc).2.
Proof.
  intros Hcache HI. set (I := prefix h) in *.
  rewrite bind_alloc.
  assert (HI' : I (hc ++ [ObjAnimCache AnimCache_new])) by (by apply prefix_alloc).
  revert HI'. generalize (hc ++ [ObjAnimCache AnimCache_new]). generalize (length hc).
  intros c h2 HI2.
  step I as cs Hcs. unfold store. cbn [snd]. by apply prefix_store.
Qed.

Lemma new_results_body_prefix h (curves outputs results : loc) i hc :
  length h <= results -> h `prefix_of` hc ->
  h `prefix_of`
    ((let! cvs := load_refs curves in
      let! cv := defined (cvs !! i) in
      let! curve := load_curve cv in
      let! os := load_refs outputs in
      let output := array_get os (snd (fst curve)) in
      let! storage := alloc (ObjNumbers []) in
      let! out := defined output in
      let! d := load_data out in
      do! for_range (Z.to_nat (fst d)) (fun j =>
        let! xs := load_numbers storage in
        store storage (ObjNumbers (array_set j 0%Q xs))) in
      let! rs := load_refs results in
      store results (ObjRefs (array_set i storage rs))) hc).2.
Proof.
  intros Hresults HI. set (I := prefix h) in *.
  step I as cvs Hcvs. step I as cv Hcv. step I as curve Hcurve. step I as os Hos.
  cbv beta zeta. rewrite bind_alloc.
  assert (HI' : I (hc ++ [ObjNumbers []])) by (by apply prefix_alloc).
  assert (Hstorage : length h <= length hc) by (by apply prefix_length).
  revert HI' Hstorage. generalize (hc ++ [ObjNumbers []]). generalize (length hc).
  intros storage h2 HI2 Hstorage.
  step I as out Hout. step I as d Hd.
  loop I Hloop3.
  { step I as xs Hxs. unfold store. cbn [snd]. by apply prefix_store. }
  step I as rs Hrs. unfold store. cbn [snd]. by apply prefix_store.
Qed.

Lemma AnimSnapshot_new_prefix h tr : h `prefix_of` (AnimSnapshot_new tr h).2.
Proof.
  unfold AnimSnapshot_new.
  set (I := prefix h).
  assert (HI : I h) by (by exists []; rewrite app_nil_r).
  apply (bind_cases _ _ h (λ r, I r.2)); intros name h0 Hname;
    apply AnimTrack_name_inv in Hname as ->; [|done].
  rewrite !bind_alloc.
  set (results := length (h ++ [ObjRefs []])).
  set (this := length ((h ++ [ObjRefs []]) ++ [ObjRefs []])).
  set (cache_ := length h).
  assert (Hcache : length h <= cache_) by (unfold cache_; lia).
  assert (Hresults : length h <= results) by (unfold results; rewrite length_app; lia).
  match goal with
  | |- I (snd (_ ?hh)) =>
      assert (HI1 : I hh) by (by do 3 apply prefix_alloc); revert HI1; generalize hh
  end.
  clearbody cache_ results this. clear HI. intros h1 HI.
  step I as t Ht. step I as n Hn.
  loop I Hloop. { by apply new_caches_body_prefix. }
  step I as m Hm.
  loop I Hloop2. { by apply new_results_body_prefix. }
  done.
Qed.

End Shape.

(** One step of a computation that is known to return: a read that throws
    contradicts it. *)
Tactic Notation "step_ok" "as" ident(a) ident(H) :=
  cbv beta zeta;
  match goal with
  | |- forall r h', bind ?m ?k ?hc = (Ok r, h') -> ?P =>
      apply (bind_cases m k hc (λ x, forall r h', x = (Ok r, h') -> P));
      [ intros a ? H; read_inv H; specialize (H _ eq_refl)
      | intros ? ? _ ? ? [=] ]
  end.

Section Failure.
Context {cache : Type} `{!AnimCache cache}.
Implicit Types (h : list (@object cache)).

Lemma array_get_Some_range {A} (xs : list A) (i : Z) (x : A) :
  array_get xs i = Some x -> (0 <= i < Z.of_nat (length xs))%Z.
Proof.
  unfold array_get. destruct (decide (0 <= i)%Z); [|done].
  intros Hx%lookup_lt_Some. lia.
Qed.

Lemma AnimSnapshot_new_returns h tr tv s h' :
  view_track h tr = Some tv ->
  AnimSnapshot_new tr h = (Ok s, h') ->
  Forall (λ curve : Z * Z * interpolation,
            (0 <= curve.1.2 < Z.of_nat (length (tv_outputs tv)))%Z) (tv_curves tv).
Proof.
  intros Htv.
  apply view_track_Some in Htv
    as (li & lo & lc & le & ins & outs & cvs & Htr & Hli & Hlo & Hlc & Hle & Hi & Ho & Hc).
  revert s h'. unfold AnimSnapshot_new.
  set (I := prefix h).
  match goal with
  | |- forall r h', bind ?m ?k ?hc = (Ok r, h') -> ?P =>
      apply (bind_cases m k hc (λ x, forall r h', x = (Ok r, h') -> P));
      [ intros name h0 Hname; apply AnimTrack_name_inv in Hname as ->
      | intros ? ? _ ? ? [=] ]
  end.
  rewrite !bind_alloc.
  set (results := length (h ++ [ObjRefs []])).
  set (this := length ((h ++ [ObjRefs []]) ++ [ObjRefs []])).
  set (cache_ := length h).
  assert (Hcache : length h <= cache_) by (unfold cache_; lia).
  assert (Hresults : length h <= results) by (unfold results; rewrite length_app; lia).
  match goal with
  | |- forall r h', _ ?hh = _ -> _ =>
      assert (HI : I hh) by (by do 3 apply prefix_alloc); revert HI; generalize hh
  end.
  clearbody cache_ results this. intros h1 HI.
  step_ok as t Ht.
  rewrite (prefix_lookup_Some _ _ _ _ Htr HI) in Ht.
  destruct t as [tn td ti to tc te]. cbn [t_name t_duration t_inputs t_outputs t_curves t_animEvents] in *.
  injection Ht as <- <- <- <- <- <-.
  step_ok as n Hn.
  cbv beta zeta.
  match goal with
  | |- forall r h', bind ?m ?k ?hc = (Ok r, h') -> ?P =>
      apply (bind_cases m k hc (λ x, forall r h', x = (Ok r, h') -> P));
      [ intros [] h2 Hloop1 | intros ? ? _ ? ? [=] ]
  end.
  apply (for_range_returns I) in Hloop1 as [HI2 _]; [|done|];
    [|intros i hc HIc; by apply new_caches_body_prefix].
  step_ok as m Hm. destruct Hm as (cvs' & Hcvs' & ->).
  rewrite (prefix_lookup_Some _ _ _ _ Hlc HI2) in Hcvs'. injection Hcvs' as <-.
  match goal with
  | |- forall r h', bind ?m ?k ?hc = (Ok r, h') -> ?P =>
      apply (bind_cases m k hc (λ x, forall r h', x = (Ok r, h') -> P));
      [ intros [] h3 Hloop2 | intros ? ? _ ? ? [=] ]
  end.
  intros _ _ _.
  apply (for_range_returns I) in Hloop2 as [_ Hbodies]; [|done|];
    [|intros i hc HIc; by apply new_results_body_prefix].
  apply Forall_lookup. intros k curve Hk.
  destruct (Forall2_lookup_r _ _ _ _ _ Hc Hk) as (cv & Hcv & Hcurve).
  destruct (Hbodies k) as (hc & r' & hc' & HIc & Hbody); [by eapply lookup_lt_Some|].
  revert r' hc' Hbody.
  step_ok as cvs' Hcvs'.
  rewrite (prefix_lookup_Some _ _ _ _ Hlc HIc) in Hcvs'. injection Hcvs' as <-.
  step_ok as cv' Hcv'. rewrite Hcv in Hcv'. injection Hcv' as <-.
  step_ok as curve' Hcurve'.
  destruct (h !! cv) as [[]|] eqn:Hobj; try done. cbn in Hcurve. injection Hcurve as <-.
  rewrite (prefix_lookup_Some _ _ _ _ Hobj HIc) in Hcurve'.
  destruct curve' as [[ci co'] cm]. cbn in Hcurve'. injection Hcurve' as <- <- <-.
  step_ok as os Hos.
  rewrite (prefix_lookup_Some _ _ _ _ Hlo HIc) in Hos. injection Hos as <-.
  cbv beta zeta. rewrite bind_alloc.
  step_ok as out Hout.
  intros _ _ _. cbn [fst snd] in *.
  rewrite <- (Forall2_length _ _ _ Ho). by eapply array_get_Some_range.
Qed.

Lemma bind_store {B} l (o : @object cache) (k : unit -> M _ B) h :
  bind (store l o) k h = k tt (<[l:=o]> h).
Proof. reflexivity. Qed.

Lemma shape_lookup h hc l (o : @object cache) :
  Forall2 same_shape h hc -> h !! l = Some o ->
  (forall o', same_shape o o' -> o' = o) -> hc !! l = Some o.
Proof.
  intros HF Hl Hfix. destruct (Forall2_lookup_l _ _ _ _ _ HF Hl) as (o' & Hl' & Hs).
  by rewrite Hl', (Hfix o' Hs).
Qed.

Lemma shape_lookup_refs h hc l rs :
  Forall2 same_shape h hc -> h !! l = Some (ObjRefs rs) -> hc !! l = Some (ObjRefs rs).
Proof. intros HF Hl. by apply (shape_lookup h hc l _ HF Hl). Qed.

Lemma AnimTrack_eval_returns h tr time s tv sv r h' :
  view_track h tr = Some tv -> view_snapshot h s = Some sv ->
  length (sv_cache sv) = length (tv_inputs tv) ->
  AnimTrack_eval tr time s h = (Ok r, h') ->
  Forall (curve_in_range tv) (tv_curves tv).
Proof.
  intros Htv Hsv Hlen.
  apply view_track_Some in Htv
    as (li & lo & lc & le & ins & outs & cvs & Htr & Hli & Hlo & Hlc & Hle & Hi & Ho & Hc).
  apply view_snapshot_Some in Hsv as (ca & ra & cs & bs & Hs & Hca & Hra & Hcs & Hbs).
  revert r h'. unfold AnimTrack_eval.
  set (I := Forall2 same_shape h).
  assert (Hbody1 : forall (cache_ inputs : loc) i hc, I hc -> I
            ((let! cs := load_refs cache_ in
              let! c := defined (cs !! i) in
              let! co := load_cache c in
              let! ins := load_refs inputs in
              let! input := defined (ins !! i) in
              let! d := load_data input in
              let! xs := load_numbers (snd d) in
              store c (ObjAnimCache (AnimCache_update time xs co))) hc).2).
  { intros. apply (eval_inputs_body_invariant I); [|done].
    intros ? ? ? ? ? ?. by eapply shape_store. }
  step_ok as f Hf. rewrite Hs in Hf.
  destruct f as [fn ft fc fr]. cbn [s_name s_time s_cache s_results] in *.
  injection Hf as <- <- <- <-.
  rewrite bind_store.
  assert (HI : I (<[s:=ObjAnimSnapshot (sv_name sv) time ca ra]> h)).
  { eapply shape_store; [apply shape_refl|done|done]. }
  revert HI. generalize (<[s:=ObjAnimSnapshot (sv_name sv) time ca ra]> h). intros h1 HI.
  step_ok as t Ht.
  rewrite (shape_lookup _ _ _ _ HI Htr) in Ht by (by intros []).
  destruct t as [tn td ti to tc te].
  cbn [t_name t_duration t_inputs t_outputs t_curves t_animEvents] in *.
  injection Ht as <- <- <- <- <- <-.
  step_ok as n Hn.
  cbv beta zeta.
  match goal with
  | |- forall r h', bind ?m ?k ?hc = (Ok r, h') -> ?P =>
      apply (bind_cases m k hc (λ x, forall r h', x = (Ok r, h') -> P));
      [ intros [] h2 Hloop1 | intros ? ? _ ? ? [=] ]
  end.
  apply (for_range_returns I) in Hloop1 as [HI2 _]; [|done|].
  2:{ intros i hc HIc. by apply Hbody1. }
  step_ok as m Hm. destruct Hm as (cvs' & Hcvs' & ->).
  rewrite (shape_lookup_refs _ _ _ _ HI2 Hlc) in Hcvs'. injection Hcvs' as <-.
  intros r h' Hloop2.
  apply (for_range_returns I) in Hloop2 as [_ Hbodies]; [|done|].
  2:{ intros i hc HIc. apply (eval_curves_body_invariant I); [|done].
      intros ? ? ? ? ? ?. by eapply shape_store. }
  apply Forall_lookup. intros k curve Hk.
  destruct (Forall2_lookup_r _ _ _ _ _ Hc Hk) as (cv & Hcv & Hcurve).
  destruct (Hbodies k) as (hc & r' & hc' & HIc & Hbody); [by eapply lookup_lt_Some|].
  revert r' hc' Hbody.
  step_ok as cvs' Hcvs'.
  rewrite (shape_lookup_refs _ _ _ _ HIc Hlc) in Hcvs'. injection Hcvs' as <-.
  step_ok as cv' Hcv'. rewrite Hcv in Hcv'. injection Hcv' as <-.
  step_ok as curve' Hcurve'.
  destruct (h !! cv) as [[]|] eqn:Hobj; try done. cbn in Hcurve. injection Hcurve as <-.
  rewrite (shape_lookup _ _ _ _ HIc Hobj) in Hcurve' by (by intros []).
  destruct curve' as [[ci co'] cm]. cbn in Hcurve'. injection Hcurve' as <- <- <-.
  cbv beta iota.
  step_ok as os Hos.
  rewrite (shape_lookup_refs _ _ _ _ HIc Hlo) in Hos. injection Hos as <-.
  step_ok as rs Hrs.
  step_ok as cs' Hcs'.
  rewrite (shape_lookup_refs _ _ _ _ HIc Hca) in Hcs'. injection Hcs' as <-.
  step_ok as c Hcc. step_ok as co Hco. step_ok as out Hout.
  intros _ _ _. split; cbn [fst snd].
  - rewrite <- Hlen, <- (Forall2_length _ _ _ Hcs). by eapply array_get_Some_range.
  - rewrite <- (Forall2_length _ _ _ Ho). by eapply array_get_Some_range.
Qed.

End Failure.

Section EvaluatorBehaviour.
Context {cache : Type} `{!AnimCache cache}.
Implicit Types (h : list (@object cache)).

(** X1.  [AnimTrack.eval] works in place, whether it returns or throws and
    whatever the track and the snapshot share: on a track and a snapshot that
    can be read (nothing is asked of the curves' indices, of the number of
    caches and buffers, or of who owns what), it allocates nothing, and
    every object keeps its class and all its references; only the numbers of
    an array, the state of a cache and the time of a snapshot may differ
    afterwards. *)
Theorem AnimTrack_eval_in_place h tr time s tv sv :
  view_track h tr = Some tv -> view_snapshot h s = Some sv ->
  let h' := (AnimTrack_eval tr time s h).2 in
  length h' = length h /\
  forall l o, h !! l = Some o -> exists o', h' !! l = Some o' /\ same_shape o o'.
Proof.
  intros _ _. pose proof (AnimTrack_eval_shape h tr time s) as HF. split.
  - symmetry. by eapply Forall2_length.
  - intros l o Hl. by eapply Forall2_lookup_l.
Qed.

(** X2.  [AnimTrack.eval] records the time before anything else: on a track and
    a snapshot that can be read, and also when the evaluation then throws
    (a curve that indexes outside the pools, a cache or a buffer that is
    missing), the snapshot holds the new time afterwards, with its name and
    its two arrays as before. *)
Theorem AnimTrack_eval_records_time_first h tr time s tv sv :
  view_track h tr = Some tv -> view_snapshot h s = Some sv ->
  exists ca ra,
    h !! s = Some (ObjAnimSnapshot (sv_name sv) (sv_time sv) ca ra) /\
    (AnimTrack_eval tr time s h).2 !! s = Some (ObjAnimSnapshot (sv_name sv) time ca ra).
Proof.
  intros _ Hsv.
  apply view_snapshot_Some in Hsv as (ca & ra & cs & bs & Hs & _).
  exists ca, ra. split; [done|].
  set (snap := ObjAnimSnapshot (sv_name sv) time ca ra).
  apply (AnimTrack_eval_invariant (λ hc, hc !! s = Some snap))
    with (f := SnapshotFields (sv_name sv) (sv_time sv) ca ra).
  - intros hc l c c' Hsnap Hl. rewrite list_lookup_insert_ne; [done|].
    by intros ->; rewrite Hsnap in Hl.
  - intros hc l c c' Hsnap Hl. rewrite list_lookup_insert_ne; [done|].
    by intros ->; rewrite Hsnap in Hl.
  - by rewrite Hs.
  - apply list_lookup_insert_eq. by eapply lookup_lt_Some.
Qed.

(** X3.  On a snapshot bound to a track, [AnimTrack.eval] returns exactly when
    every curve of the track indexes the input and the output pool; it
    throws a TypeError otherwise. *)
Theorem AnimTrack_eval_returns_iff h tr time s tv :
  bound h tr s -> view_track h tr = Some tv ->
  (exists h', AnimTrack_eval tr time s h = (Ok tt, h')) <->
  Forall (curve_in_range tv) (tv_curves tv).
Proof.
  intros Hb Htv. split.
  - intros [h' Hrun].
    destruct Hb as (tv0 & sv & fs & ft & Htv0 & Hsv & _ & _ & Hlen & _).
    rewrite Htv in Htv0. injection Htv0 as <-.
    by eapply AnimTrack_eval_returns.
  - intros Hrange.
    pose proof Hb as (tv0 & sv & fs & ft & Htv0 & Hsv & Hfs & _).
    destruct (eval_bound h tr s time tv sv fs Hb (conj Htv Hrange) Hsv Hfs) as (h' & Hrun & _).
    by exists h'.
Qed.

(** X4.  [new AnimSnapshot(track)] never touches an object that exists: on every
    heap and whether it returns or throws, the heap it leaves is the old heap
    followed by new objects. *)
Theorem AnimSnapshot_new_extends_heap h tr :
  exists new_objects, (AnimSnapshot_new tr h).2 = h ++ new_objects.
Proof. apply AnimSnapshot_new_prefix. Qed.

(** X5.  [new AnimSnapshot(track)] returns exactly when every curve of the track
    refers to an output that exists (the input index is not looked at); it
    throws a TypeError otherwise. *)
Theorem AnimSnapshot_new_returns_iff h tr tv :
  view_track h tr = Some tv ->
  (exists s h', AnimSnapshot_new tr h = (Ok s, h')) <->
  Forall (λ curve : Z * Z * interpolation,
            (0 <= curve.1.2 < Z.of_nat (length (tv_outputs tv)))%Z) (tv_curves tv).
Proof.
  intros Htv. split.
  - intros (s & h' & Hrun). by eapply AnimSnapshot_new_returns.
  - intros Hrange.
    apply view_track_Some in Htv
      as (li & lo & lc & le & ins & outs & cvs & Htr & Hli & Hlo & Hlc & Hle & Hi & Ho & Hc).
    eexists _, _.
    exact (AnimSnapshot_new_ok h tr _ _ li lo lc le ins outs cvs _ _
             Htr Hli Hlo Hlc Ho Hc Hrange).
Qed.

(** X6.  Constructor and evaluation composed: a snapshot made from a track and
    evaluated at [time] holds what [eval_spec] gives on the fresh snapshot,
    and neither step has changed an object that existed before. *)
Theorem new_snapshot_then_eval h tr tv time :
  track_ok h tr tv ->
  exists s h1 h2,
    AnimSnapshot_new tr h = (Ok s, h1) /\
    AnimTrack_eval tr time s h1 = (Ok tt, h2) /\
    view_snapshot h2 s = Some (eval_spec time tv (fresh_snapshot tv)) /\
    view_track h2 tr = Some tv /\
    forall l, l < length h -> h2 !! l = h !! l.
Proof.
  intros Hok.
  destruct (new_snapshot_bound h tr tv Hok)
    as (s & h1 & fs & Hnew & Hold & Hsv & Hfs & Hge & Hok1 & Hb).
  destruct (eval_bound h1 tr s time tv _ fs Hb Hok1 Hsv Hfs)
    as (h2 & Hrun & _ & Hframe & Hsv2 & _ & [Htv2 _] & _).
  exists s, h1, h2. repeat split; try done.
  intros l Hl. rewrite Hframe; [by apply Hold|].
  intros Hin. apply Hge in Hin. lia.
Qed.

Lemma perform_views tr tv st svs op :
  history_inv tr tv st ->
  Forall2 (λ s sv, view_snapshot st.1 s = Some sv) st.2 svs ->
  Forall2 (λ s sv, view_snapshot (perform tr st op).1 s = Some sv)
          (perform tr st op).2 (replay tv svs op).
Proof.
  destruct st as [h snaps]. intros (Hok & Hbound & Hdisj) Hviews. simpl in *.
  destruct op as [|k time]; simpl.
  - destruct (new_snapshot_bound h tr tv Hok)
      as (s & h' & fs & -> & Hold & Hsv & Hfs & Hge & Hok' & Hb').
    simpl. apply Forall2_app; [|by repeat constructor].
    apply Forall2_same_length_lookup_2; [by eapply Forall2_length|].
    intros i A sv HA Hsvi.
    destruct (bound_footprints h tr A (Hbound i A HA)) as (fa & ft & Hfa & _ & Hlt & _).
    destruct (view_snapshot_local h h' A fa Hfa) as [-> _].
    { intros l Hl. by apply Hold, Hlt. }
    by destruct (Forall2_lookup_l _ _ _ _ _ Hviews HA) as (sv' & [= ->]%(eq_trans (eq_sym Hsvi)) & ?).
  - destruct (snaps !! k) as [A|] eqn:HkA.
    + pose proof (Hbound k A HkA) as HA.
      destruct (bound_footprints h tr A HA) as (fa & ft & Hfa & Hft & _ & _ & HdA).
      destruct (Forall2_lookup_l _ _ _ _ _ Hviews HkA) as (sv & Hsvk & Hsv).
      destruct (eval_bound h tr A time tv sv fa HA Hok Hsv Hfa)
        as (h' & Hrun & Hlen & Hframe & Hsv' & _).
      rewrite Hrun. simpl.
      apply Forall2_same_length_lookup_2.
      { rewrite length_alter. by eapply Forall2_length. }
      intros j B svj HjB Hsvj.
      destruct (decide (j = k)) as [->|Hne].
      * rewrite HkA in HjB. injection HjB as <-.
        rewrite list_lookup_alter_eq, Hsvk in Hsvj. by injection Hsvj as <-.
      * rewrite list_lookup_alter_ne in Hsvj by done.
        destruct (bound_footprints h tr B (Hbound j B HjB)) as (fb & ft' & Hfb & _).
        destruct (view_snapshot_local h h' B fb Hfb) as [-> _].
        { intros l Hl. apply Hframe. intros Hl'.
          by apply (Hdisj k j A B fa fb ltac:(auto) HkA HjB Hfa Hfb l). }
        destruct (Forall2_lookup_l _ _ _ _ _ Hviews HjB) as (sv' & Hsv'' & ?).
        rewrite Hsvj in Hsv''. by injection Hsv'' as <-.
    + simpl. assert (Hnone : svs !! k = None).
      { apply lookup_ge_None. rewrite <- (Forall2_length _ _ _ Hviews).
        by apply lookup_ge_None. }
      apply Forall2_same_length_lookup_2.
      { rewrite length_alter. by eapply Forall2_length. }
      intros j B svj HjB Hsvj.
      rewrite list_lookup_alter_ne in Hsvj by (intros ->; by rewrite HkA in HjB).
      destruct (Forall2_lookup_l _ _ _ _ _ Hviews HjB) as (sv' & Hsv'' & ?).
      rewrite Hsvj in Hsv''. by injection Hsv'' as <-.
Qed.

(** X7.  Histories refine their replay on views: after any sequence of snapshot
    constructions and evaluations on one track, the [k]-th snapshot created
    reads as the fresh snapshot evaluated, in order, at the times of the
    evaluations that named it; evaluations of the other snapshots do not
    show. *)
Theorem history_refines_views h tr tv ops :
  track_ok h tr tv ->
  Forall2 (λ s sv, view_snapshot (history tr h ops).1 s = Some sv)
          (history tr h ops).2 (history_views tv ops).
Proof.
  intros Hok. unfold history, history_views.
  assert (Hinv : history_inv tr tv (h, [])) by (apply (history_inv_history tr tv h []); done).
  assert (Hviews : Forall2 (λ s sv, view_snapshot (h, @nil loc).1 s = Some sv)
                     (h, @nil loc).2 (@nil (@snapshot_view cache))) by constructor.
  revert Hinv Hviews. generalize (h, @nil loc). generalize (@nil (@snapshot_view cache)).
  induction ops as [|op ops IH]; intros svs st Hinv Hviews; [done|].
  cbn [foldl]. apply IH; [by apply perform_inv|by apply perform_views].
Qed.

End EvaluatorBehaviour.

Section TrackConstruction.
Context {cache : Type} `{!AnimCache cache}.
Implicit Types (h : list (@object cache)).

(** X8.  [new AnimTrack(...)] and the getters: the constructor returns a new
    object, leaves every existing object as it is, and each getter of the new
    track gives back the argument it was built from; the events are those of
    the AnimEvents handed over, and none when the argument is left out (the
    default [new AnimEvents([])]). *)
Theorem AnimTrack_new_getters h (name : string) (duration : Q)
    (inputs outputs curves : loc) (animEvents : option loc) (evs : list AnimEvent) :
  match animEvents with
  | Some e => h !! e = Some (ObjAnimEvents evs)
  | None => evs = []
  end ->
  exists tr h',
    AnimTrack_new name duration inputs outputs curves animEvents h = (Ok tr, h') /\
    h `prefix_of` h' /\ length h <= tr /\
    AnimTrack_name tr h' = (Ok name, h') /\
    AnimTrack_duration tr h' = (Ok duration, h') /\
    AnimTrack_inputs tr h' = (Ok inputs, h') /\
    AnimTrack_outputs tr h' = (Ok outputs, h') /\
    AnimTrack_curves tr h' = (Ok curves, h') /\
    AnimTrack_events tr h' = (Ok evs, h').
Proof.
  intros Hev. unfold AnimTrack_new.
  destruct animEvents as [e|].
  - rewrite (bind_ok _ _ h e h) by done. unfold alloc.
    exists (length h), (h ++ [ObjAnimTrack name duration inputs outputs curves e]).
    assert (Htr : (h ++ [ObjAnimTrack name duration inputs outputs curves e]) !! length h
                  = Some (ObjAnimTrack name duration inputs outputs curves e)).
    { by rewrite lookup_app_r, Nat.sub_diag by lia. }
    pose proof (load_track_ok _ _ _ _ _ _ _ _ Htr) as Hload.
    split; [done|]. split; [by apply prefix_app_r|]. split; [lia|].
    unfold AnimTrack_name, AnimTrack_duration, AnimTrack_inputs, AnimTrack_outputs,
      AnimTrack_curves, AnimTrack_events.
    rewrite !(bind_ok _ _ _ _ _ Hload). cbn [t_name t_duration t_inputs t_outputs t_curves
      t_animEvents]. repeat (split; [done|]).
    unfold load, bind. by rewrite (lookup_app_l_Some _ _ _ _ Hev).
  - subst evs. rewrite bind_alloc. unfold alloc.
    set (h1 := h ++ [ObjAnimEvents []]).
    exists (length h1), (h1 ++ [ObjAnimTrack name duration inputs outputs curves (length h)]).
    assert (Htr : (h1 ++ [ObjAnimTrack name duration inputs outputs curves (length h)])
                    !! length h1
                  = Some (ObjAnimTrack name duration inputs outputs curves (length h))).
    { by rewrite lookup_app_r, Nat.sub_diag by lia. }
    pose proof (load_track_ok _ _ _ _ _ _ _ _ Htr) as Hload.
    split; [done|]. split; [by do 2 apply prefix_app_r|].
    split; [unfold h1; rewrite length_app; lia|].
    unfold AnimTrack_name, AnimTrack_duration, AnimTrack_inputs, AnimTrack_outputs,
      AnimTrack_curves, AnimTrack_events.
    rewrite !(bind_ok _ _ _ _ _ Hload). cbn [t_name t_duration t_inputs t_outputs t_curves
      t_animEvents]. repeat (split; [done|]).
    unfold load, bind.
    assert ((h1 ++ [ObjAnimTrack name duration inputs outputs curves (length h)]) !! length h
            = Some (ObjAnimEvents [])) as ->; [|done].
    apply lookup_app_l_Some. unfold h1. by rewrite lookup_app_r, Nat.sub_diag by lia.
Qed.

End TrackConstruction.

(** *** These properties on the example track *)

Lemma AnimTrack_new_getters_witness :
  exists tr h',
    AnimTrack_new "run" 2 5 6 7 None example_heap = (Ok tr, h') /\
    AnimTrack_events tr h' = (Ok [], h') /\
    AnimTrack_curves tr h' = (Ok 7, h').
Proof.
  destruct (AnimTrack_new_getters example_heap "run" 2 5 6 7 None [])
    as (tr & h' & Hnew & _ & _ & _ & _ & _ & _ & Hcurves & Hevents).
  - reflexivity.
  - exists tr, h'. split; [exact Hnew|]. split; [exact Hevents|exact Hcurves].
Defined.

(** The example track with a curve that names input 3, and a snapshot made
    for it: evaluation throws, in place, with the time recorded. *)
Lemma AnimTrack_eval_in_place_witness :
  let h := (AnimSnapshot_new example_track corrupted_input_heap).2 in
  let h' := (AnimTrack_eval example_track (1#4) 13 h).2 in
  (AnimTrack_eval example_track (1#4) 13 h).1 = Throw TypeError /\
  length h' = length h /\
  forall l o, h !! l = Some o -> exists o', h' !! l = Some o' /\ same_shape o o'.
Proof.
  intros h h'. split; [reflexivity|].
  apply (AnimTrack_eval_in_place h example_track (1#4) 13
           (TrackView "walk" 1 [(1%Z, [0; 1#2; 1]%Q)] [(1%Z, [0; 1; 0]%Q)]
                      [(3%Z, 0%Z, INTERPOLATION_LINEAR)] [])
           (SnapshotView "walkSnapshot" (-1) [SpecCache_new] [[0%Q]])).
  - reflexivity.
  - reflexivity.
Defined.

Lemma AnimTrack_eval_records_time_first_witness :
  let h := (AnimSnapshot_new example_track corrupted_input_heap).2 in
  (AnimTrack_eval example_track (1#4) 13 h).1 = Throw TypeError /\
  exists ca ra,
    (AnimTrack_eval example_track (1#4) 13 h).2 !! 13
    = Some (ObjAnimSnapshot "walkSnapshot" (1#4) ca ra).
Proof.
  intros h. split; [reflexivity|].
  destruct (AnimTrack_eval_records_time_first h example_track (1#4) 13
              (TrackView "walk" 1 [(1%Z, [0; 1#2; 1]%Q)] [(1%Z, [0; 1; 0]%Q)]
                         [(3%Z, 0%Z, INTERPOLATION_LINEAR)] [])
              (SnapshotView "walkSnapshot" (-1) [SpecCache_new] [[0%Q]]))
    as (ca & ra & _ & Htime).
  - reflexivity.
  - reflexivity.
  - exists ca, ra. exact Htime.
Defined.

Lemma AnimTrack_eval_returns_iff_witness :
  (exists h', AnimTrack_eval example_track (1#4) 13 example_bound_heap = (Ok tt, h')) <->
  Forall (curve_in_range example_view) (tv_curves example_view).
Proof.
  apply (AnimTrack_eval_returns_iff example_bound_heap example_track (1#4) 13 example_view).
  - exact example_bound.
  - reflexivity.
Defined.

Lemma AnimSnapshot_new_returns_iff_witness :
  (exists s h', AnimSnapshot_new example_track example_heap = (Ok s, h')) <->
  Forall (λ curve : Z * Z * interpolation,
            (0 <= curve.1.2 < Z.of_nat (length (tv_outputs example_view)))%Z)
         (tv_curves example_view).
Proof.
  apply (AnimSnapshot_new_returns_iff example_heap example_track example_view).
  reflexivity.
Defined.

Lemma new_snapshot_then_eval_witness :
  exists s h1 h2,
    AnimSnapshot_new example_track example_heap = (Ok s, h1) /\
    AnimTrack_eval example_track (1#4) s h1 = (Ok tt, h2) /\
    sv_results <$> view_snapshot h2 s = Some [[(1#2)%Q]].
Proof.
  destruct (new_snapshot_then_eval example_heap example_track example_view (1#4))
    as (s & h1 & h2 & Hnew & Hrun & Hview & _).
  - apply example_track_ok. reflexivity.
  - exists s, h1, h2. split; [exact Hnew|]. split; [exact Hrun|].
    rewrite Hview. reflexivity.
Defined.

Lemma history_refines_views_witness :
  let ops := [NewSnapshot; NewSnapshot; EvalSnapshot 1 (3#4); EvalSnapshot 0 (1#4);
              EvalSnapshot 1 1] in
  Forall2 (λ s sv, view_snapshot (history example_track example_heap ops).1 s = Some sv)
          (history example_track example_heap ops).2 (history_views example_view ops) /\
  (sv_time <$> history_views example_view ops) = [(1#4)%Q; 1%Q].
Proof.
  intros ops. split.
  - apply (history_refines_views example_heap example_track example_view ops).
    apply example_track_ok. reflexivity.
  - reflexivity.
Defined.

(** ** More about the anim component layer *)

Section LayerBehaviour.
Context {E : Type} `{!Collaborators E}.
Implicit Types (l : AnimComponentLayer E).

(** X9.  The blend type reads back as it was set, and setting it is idempotent:
    a second assignment of the same value changes nothing and does not
    rebind again; at most one rebind is caused by the two. *)
Theorem set_blendType_idempotent l (b : string) :
  exists l',
    set_blendType b l = (Ok tt, l') /\
    get_blendType l' = (Ok b, l') /\
    set_blendType b l' = (Ok tt, l') /\
    rebinds (calls l') <= rebinds (calls l) + 1.
Proof.
  destruct l as [n wt bt m wd cs].
  destruct (decide (b = bt)) as [<-|Hne].
  - exists (Layer n wt b m wd cs).
    assert (Hsame : set_blendType b (Layer n wt b m wd cs) = (Ok tt, Layer n wt b m wd cs)).
    { unfold set_blendType, get, bind. cbn. by destruct (decide (b ≠ b)). }
    split; [done|]. split; [done|]. split; [done|]. cbn [calls]. lia.
  - exists (Layer n wt b m (component_rebind wd) (cs ++ [Call_component_rebind])).
    split; [|split; [done|split]].
    + unfold set_blendType, get, bind. cbn. by destruct (decide (b ≠ bt)).
    + unfold set_blendType, get, bind. cbn. by destruct (decide (b ≠ b)).
    + cbn [calls]. rewrite rebinds_app.
      assert (rebinds [Call_component_rebind] = 1) as -> by reflexivity. lia.
Qed.


End LayerBehaviour.


(** ** hashCode *)

Lemma to_int32_range z : (- 2 ^ 31 <= to_int32 z < 2 ^ 31)%Z.
Proof. unfold to_int32. pose proof (Z.mod_pos_bound (z + 2 ^ 31) (2 ^ 32)). lia. Qed.

Lemma to_int32_small z : (- 2 ^ 31 <= z < 2 ^ 31)%Z -> to_int32 z = z.
Proof. intros H. unfold to_int32. rewrite Z.mod_small; lia. Qed.

Lemma to_int32_mod a b : (a mod 2 ^ 32 = b mod 2 ^ 32)%Z -> to_int32 a = to_int32 b.
Proof.
  intros H. unfold to_int32. f_equal.
  rewrite <- (Z.add_mod_idemp_l a), <- (Z.add_mod_idemp_l b) by lia. by rewrite H.
Qed.

Lemma to_int32_wraps z : exists q, to_int32 z = (z + q * 2 ^ 32)%Z.
Proof.
  exists (- ((z + 2 ^ 31) / 2 ^ 32))%Z. unfold to_int32.
  rewrite (Z.mod_eq (z + 2 ^ 31) (2 ^ 32)) by lia. lia.
Qed.

Lemma to_int32_congr z : (to_int32 z mod 2 ^ 32 = z mod 2 ^ 32)%Z.
Proof. destruct (to_int32_wraps z) as [q ->]. apply Z_mod_plus_full. Qed.

Lemma to_int32_idem z : to_int32 (to_int32 z) = to_int32 z.
Proof. apply to_int32_small, to_int32_range. Qed.

(** One turn of the loop: shifting by five and subtracting is multiplying
    by 31. *)
Lemma hash_step hash c :
  or32 ((shl32 hash 5 - hash) + Z.of_N c) 0 = to_int32 (31 * hash + Z.of_N c).
Proof.
  unfold or32, shl32. rewrite Z.lor_0_r, to_int32_idem.
  apply to_int32_mod.
  change (5 mod 32)%Z with 5%Z. rewrite Z.shiftl_mul_pow2 by lia.
  destruct (to_int32_wraps hash) as [q ->].
  destruct (to_int32_wraps ((hash + q * 2 ^ 32) * 2 ^ 5)) as [q' ->].
  replace ((hash + q * 2 ^ 32) * 2 ^ 5 + q' * 2 ^ 32 - hash + Z.of_N c)%Z
    with (31 * hash + Z.of_N c + (32 * q + q') * 2 ^ 32)%Z by lia.
  apply Z_mod_plus_full.
Qed.

Lemma hashCode_snoc str c :
  hashCode (str ++ [c]) = to_int32 (31 * hashCode str + Z.of_N c).
Proof. unfold hashCode. by rewrite foldl_snoc, hash_step. Qed.

Lemma horner31_snoc str c : horner31 (str ++ [c]) = (31 * horner31 str + Z.of_N c)%Z.
Proof. unfold horner31. by rewrite foldl_snoc. Qed.

Lemma horner31_app s t :
  horner31 (s ++ t) = (horner31 s * 31 ^ Z.of_nat (length t) + horner31 t)%Z.
Proof.
  induction t as [|c t IH] using rev_ind.
  - rewrite app_nil_r. cbn. lia.
  - rewrite app_assoc, !horner31_snoc, IH, length_app. cbn [length].
    replace (Z.of_nat (length t + 1)) with (Z.succ (Z.of_nat (length t))) by lia.
    rewrite Z.pow_succ_r by lia. lia.
Qed.

Lemma horner31_poly31 str : horner31 str = poly31 str.
Proof.
  induction str as [|c str IH]; [done|].
  change (c :: str) with ([c] ++ str). rewrite horner31_app, IH.
  cbn [app poly31]. unfold horner31. cbn [foldl]. lia.
Qed.

Lemma hashCode_horner str : hashCode str = to_int32 (horner31 str).
Proof.
  induction str as [|c str IH] using rev_ind.
  - reflexivity.
  - rewrite hashCode_snoc, horner31_snoc, IH. apply to_int32_mod.
    rewrite <- Z.add_mod_idemp_l, <- Z.mul_mod_idemp_r, to_int32_congr by lia.
    by rewrite Z.mul_mod_idemp_r, Z.add_mod_idemp_l by lia.
Qed.

(** X11.  For every string, [hashCode] returns a signed 32-bit integer. *)
Theorem hashCode_int32 str : (- 2 ^ 31 <= hashCode str < 2 ^ 31)%Z.
Proof.
  induction str as [|c str _] using rev_ind.
  - cbn. lia.
  - rewrite hashCode_snoc. apply to_int32_range.
Qed.

(** X12.  The shift-and-subtract loop of [hashCode], with its wrap after
    every character, computes the polynomial in 31 of the code units,
    [s[0]*31^(n-1) + ... + s[n-1]], wrapped once to 32 bits. *)
Theorem hashCode_polynomial str : hashCode str = to_int32 (poly31 str).
Proof. by rewrite hashCode_horner, horner31_poly31. Qed.

(** X13.  The hash of a concatenation is determined by the hashes of the
    two parts and the length of the second. *)
Theorem hashCode_app s t :
  hashCode (s ++ t) = to_int32 (hashCode s * 31 ^ Z.of_nat (length t) + hashCode t).
Proof.
  rewrite !hashCode_horner, horner31_app. apply to_int32_mod.
  rewrite <- (Z.add_mod_idemp_l (to_int32 _ * _)), <- (Z.mul_mod_idemp_l (to_int32 _)) by lia.
  rewrite <- (Z.add_mod_idemp_r _ (to_int32 _)) by lia.
  rewrite !to_int32_congr.
  by rewrite Z.add_mod_idemp_r, Z.mul_mod_idemp_l, Z.add_mod_idemp_l by lia.
Qed.

(** X14.  [hashCode] is not injective ("designed for performance, not
    perfect"): anywhere in a string, raising a code unit by one and lowering
    the next one by 31 gives a different string with the same hash. *)
Theorem hashCode_collision p a b q :
  (31 <= b)%N ->
  p ++ a :: b :: q <> p ++ (a + 1)%N :: (b - 31)%N :: q /\
  hashCode (p ++ a :: b :: q) = hashCode (p ++ (a + 1)%N :: (b - 31)%N :: q).
Proof.
  intros Hb. split.
  - intros H. apply app_inv_head in H. injection H. lia.
  - change (p ++ a :: b :: q) with (p ++ [a; b] ++ q).
    change (p ++ (a + 1)%N :: (b - 31)%N :: q) with (p ++ [(a + 1)%N; (b - 31)%N] ++ q).
    assert (horner31 [a; b] = horner31 [(a + 1)%N; (b - 31)%N]) as Hab
      by (unfold horner31; cbn [foldl]; lia).
    by rewrite !hashCode_horner, !horner31_app, Hab.
Qed.

(** "Aa" and "BB". *)
Lemma hashCode_collision_witness :
  [65; 97]%N <> [66; 66]%N /\ hashCode [65; 97]%N = hashCode [66; 66]%N.
Proof. apply (hashCode_collision [] 65 97 [])%N. lia. Defined.

(** ** URIs *)

Example URI_new_example :
  URI_new (js "http://a.b/c/d?x=1&y=2#top")
  = Ok (MkURI (Some (js "http")) (Some (js "a.b")) (Some (js "/c/d"))
              (Some (js "x=1&y=2")) (Some (js "top"))) /\
  URI_new (js "a/b:c") = Ok (MkURI None None (Some (js "a/b:c")) None None) /\
  URI_new (js "//h?") = Ok (MkURI None (Some (js "h")) (Some []) (Some []) None) /\
  (scan_uri (js "mailto:x@y#a")).1
  = MkURI (Some (js "mailto")) None (Some (js "x@y")) None (Some (js "a")).
Proof. repeat split. Qed.

(** *** The matcher on the constructor's pattern *)

Lemma span_app c s : (span c s).1 ++ (span c s).2 = s.
Proof.
  induction s as [|x s IH]; [done|]. cbn [span].
  destruct (in_charset c x); [|done].
  destruct (span c s) as [p r]. cbn in *. by rewrite IH.
Qed.

Lemma span_take c s : take (length s - length (span c s).2) s = (span c s).1.
Proof.
  pose proof (span_app c s) as Happ. destruct (span c s) as [p r]. cbn [fst snd] in *.
  rewrite <- Happ, length_app.
  replace (length p + length r - length r) with (length p) by lia.
  by rewrite take_app_length.
Qed.

Lemma span_prefix_in c s : Forall (λ x, in_charset c x = true) (span c s).1.
Proof.
  induction s as [|x s IH]; [constructor|]. cbn [span].
  destruct (in_charset c x) eqn:Hx; [|constructor].
  destruct (span c s) as [p r]. cbn in *. by constructor.
Qed.

Lemma span_rest_out c s x r : (span c s).2 = x :: r -> in_charset c x = false.
Proof.
  induction s as [|y s IH]; [done|]. cbn [span].
  destruct (in_charset c y) eqn:Hy.
  - destruct (span c s) as [p r']. cbn in *. done.
  - cbn. by intros [= <- <-].
Qed.

(** A greedy star takes the longest run when the rest of the pattern accepts
    after it. *)
Lemma star_greedy {R} c s (k : jsstring -> option R) :
  is_Some (k (span c s).2) -> star c s k = k (span c s).2.
Proof.
  induction s as [|x s IH]; [done|]. cbn [span star].
  destruct (in_charset c x); [|done].
  destruct (span c s) as [p r]. cbn in *. intros Hk.
  rewrite IH by done. by destruct Hk as [y ->].
Qed.

(** A greedy star gives back nothing when the rest of the pattern cannot
    start with a character of the set. *)
Lemma star_no_backtrack {R} c s (k : jsstring -> option R) :
  (forall x t, in_charset c x = true -> k (x :: t) = None) ->
  star c s k = k (span c s).2.
Proof.
  intros Hk. induction s as [|x s IH]; [done|]. cbn [span star].
  destruct (in_charset c x) eqn:Hx; [|done].
  destruct (span c s) as [p r]. cbn in *. rewrite IH.
  destruct (k r) eqn:Hr; [done|]. by apply Hk.
Qed.

Section Stages.
Variable k : jsstring -> captures -> option captures.
Hypothesis k_total : forall s caps, is_Some (k s caps).

Lemma matches_group_star n c s caps :
  matches (Group n (Star c)) s caps k = k (span c s).2 ((n, (span c s).1) :: caps).
Proof.
  cbn [matches]. rewrite star_greedy by apply k_total. by rewrite span_take.
Qed.

Lemma matches_marked1 a b m c s caps :
  matches (Opt (Group a (Seq (Char m) (Group b (Star c))))) s caps k
  = match s with
    | x :: r =>
        if decide (x = m)
        then k (span c r).2 ((a, m :: (span c r).1) :: (b, (span c r).1) :: caps)
        else k s caps
    | [] => k s caps
    end.
Proof.
  cbn [matches]. destruct s as [|x r]; [done|].
  destruct (decide (x = m)) as [->|]; [|done].
  rewrite star_greedy by apply k_total. rewrite span_take.
  destruct (k_total (span c r).2 ((a, m :: (span c r).1) :: (b, (span c r).1) :: caps))
    as [res Hres].
  cbn [length]. 
  replace (take (S (length r) - length (span c r).2) (m :: r)) with (m :: (span c r).1).
  - by rewrite Hres.
  - rewrite <- (span_take c r). 
    pose proof (f_equal length (span_app c r)) as Hlen. rewrite length_app in Hlen.
    replace (S (length r) - length (span c r).2) with (S (length r - length (span c r).2)) by lia.
    done.
Qed.

Lemma matches_marked2 a b m c s caps :
  matches (Opt (Group a (Seq (Char m) (Seq (Char m) (Group b (Star c)))))) s caps k
  = match s with
    | x :: y :: r =>
        if decide (x = m) then
          if decide (y = m)
          then k (span c r).2 ((a, m :: m :: (span c r).1) :: (b, (span c r).1) :: caps)
          else k s caps
        else k s caps
    | _ => k s caps
    end.
Proof.
  cbn [matches]. destruct s as [|x [|y r]]; [done| |].
  { by destruct (decide (x = m)). }
  destruct (decide (x = m)) as [->|Hx]; [|done].
  destruct (decide (y = m)) as [->|Hy]; [|done].
  rewrite star_greedy by apply k_total. rewrite span_take.
  destruct (k_total (span c r).2 ((a, m :: m :: (span c r).1) :: (b, (span c r).1) :: caps))
    as [res Hres].
  cbn [length].
  replace (take (S (S (length r)) - length (span c r).2) (m :: m :: r))
    with (m :: m :: (span c r).1).
  - by rewrite Hres.
  - rewrite <- (span_take c r).
    pose proof (f_equal length (span_app c r)) as Hlen. rewrite length_app in Hlen.
    replace (S (S (length r)) - length (span c r).2)
      with (S (S (length r - length (span c r).2))) by lia.
    done.
Qed.

Lemma matches_scheme a b m c s caps :
  in_charset c m = false ->
  matches (Opt (Group a (Seq (Group b (Plus c)) (Char m)))) s caps k
  = match span c s with
    | (x :: p, y :: r) =>
        if decide (y = m) then k r ((a, x :: p ++ [m]) :: (b, x :: p) :: caps) else k s caps
    | _ => k s caps
    end.
Proof.
  intros Hm. cbn [matches]. destruct s as [|x s]; [done|]. cbn [span].
  destruct (in_charset c x) eqn:Hx; [|done].
  rewrite star_no_backtrack.
  2:{ intros z t Hz. destruct (decide (z = m)) as [->|]; [congruence|done]. }
  pose proof (span_take c s) as Htake. pose proof (span_app c s) as Happ.
  destruct (span c s) as [p r]. cbn [fst snd] in *.
  destruct r as [|y r]; [done|].
  destruct (decide (y = m)) as [->|]; [|done].
  destruct (k_total r ((a, x :: p ++ [m]) :: (b, x :: p) :: caps)) as [res Hres].
  pose proof (f_equal length Happ) as Hlen. rewrite length_app in Hlen. cbn [length] in *.
  replace (take (S (length s) - S (length r)) (x :: s)) with (x :: p).
  2:{ replace (S (length s) - S (length r)) with (S (length s - S (length r))) by lia.
      cbn [take]. by rewrite Htake. }
  replace (take (S (length s) - length r) (x :: s)) with (x :: p ++ [m]).
  2:{ replace (S (length s) - length r) with (S (length (p ++ [m])))
        by (rewrite length_app; cbn; lia).
      cbn [take]. f_equal. rewrite <- Happ.
      change (p ++ m :: r) with (p ++ [m] ++ r). rewrite app_assoc.
      by rewrite take_app_length. }
  by rewrite Hres.
Qed.

End Stages.

Lemma in_scheme_set_colon : in_charset (NoneOf (js ":/?#")) (code ":") = false.
Proof. reflexivity. Qed.

Ltac groups := cbn [group Nat.eqb fst snd].

(** The constructor's pattern matches every string, the way the scanner
    reads it. *)
Lemma URI_new_scan uri : URI_new uri = Ok (scan_uri uri).1.
Proof.
  unfold URI_new, regex_match, re. cbn [matches].
  set (accept := fun (_ : jsstring) (caps : captures) => Some caps).
  set (R5 := Opt (Group 8 (Seq (Char (code "#")) (Group 9 (Star Dot))))).
  set (R4 := Opt (Group 6 (Seq (Char (code "?")) (Group 7 (Star (NoneOf (js "#"))))))).
  set (R3 := Group 5 (Star (NoneOf (js "?#")))).
  set (R2 := Opt (Group 3 (Seq (Char (code "/")) (Seq (Char (code "/"))
                   (Group 4 (Star (NoneOf (js "/?#")))))))).
  set (R1 := Opt (Group 1 (Seq (Group 2 (Plus (NoneOf (js ":/?#")))) (Char (code ":"))))).
  set (K4 := fun s c => matches R5 s c accept).
  set (K3 := fun s c => matches R4 s c K4).
  set (K2 := fun s c => matches R3 s c K3).
  set (K1 := fun s c => matches R2 s c K2).
  assert (Haccept : forall s c, is_Some (accept s c)) by (intros; by eexists).
  assert (HK4 : forall s c, is_Some (K4 s c)).
  { intros s c. unfold K4, R5. rewrite matches_marked1 by done.
    destruct s as [|x r]; [done|]. by destruct (decide (x = code "#")). }
  assert (HK3 : forall s c, is_Some (K3 s c)).
  { intros s c. unfold K3, R4. rewrite matches_marked1 by done.
    destruct s as [|x r]; [done|]. by destruct (decide (x = code "?")). }
  assert (HK2 : forall s c, is_Some (K2 s c)).
  { intros s c. unfold K2, R3. by rewrite matches_group_star. }
  assert (HK1 : forall s c, is_Some (K1 s c)).
  { intros s c. unfold K1, R2. rewrite matches_marked2 by done.
    destruct s as [|x [|y r]]; [done|done|].
    by destruct (decide (x = code "/")), (decide (y = code "/")). }
  change (match matches R1 uri [] K1 with
          | Some result => Ok (MkURI (group 2 result) (group 4 result) (group 5 result)
                                     (group 7 result) (group 9 result))
          | None => Throw TypeError
          end = Ok (scan_uri uri).1).
  unfold R1. rewrite (matches_scheme K1 HK1 _ _ _ _ _ _ in_scheme_set_colon).
  unfold scan_uri, scan_scheme.
  assert (Hfrag : forall s4 c4 sch auth pth qry,
    group 2 c4 = sch -> group 4 c4 = auth -> group 5 c4 = Some pth ->
    group 7 c4 = qry -> group 9 c4 = None ->
    match K4 s4 c4 with
    | Some result => Ok (MkURI (group 2 result) (group 4 result) (group 5 result)
                               (group 7 result) (group 9 result))
    | None => Throw TypeError
    end
    = Ok (let (frg, s5) := scan_marked [code "#"] Dot s4 in
          (MkURI sch auth (Some pth) qry frg, s5)).1).
  { intros s4 c4 sch auth pth qry G2 G4 G5 G7 G9.
    unfold K4, R5. rewrite matches_marked1 by done.
    unfold scan_marked. destruct s4 as [|x r]; cbn [strip].
    - unfold accept. cbn [fst]. by rewrite G2, G4, G5, G7, G9.
    - destruct (decide (x = code "#")) as [->|Hx].
      + destruct (span Dot r) as [p r']. unfold accept. groups. by rewrite G2, G4, G5, G7.
      + unfold accept. cbn [fst]. by rewrite G2, G4, G5, G7, G9. }
  assert (Hquery : forall s3 c3 sch auth pth,
    group 2 c3 = sch -> group 4 c3 = auth -> group 5 c3 = Some pth ->
    group 7 c3 = None -> group 9 c3 = None ->
    match K3 s3 c3 with
    | Some result => Ok (MkURI (group 2 result) (group 4 result) (group 5 result)
                               (group 7 result) (group 9 result))
    | None => Throw TypeError
    end
    = Ok (let (qry, s4) := scan_marked [code "?"] (NoneOf (js "#")) s3 in
          let (frg, s5) := scan_marked [code "#"] Dot s4 in
          (MkURI sch auth (Some pth) qry frg, s5)).1).
  { intros s3 c3 sch auth pth G2 G4 G5 G7 G9.
    unfold K3, R4. rewrite matches_marked1 by done.
    unfold scan_marked at 1. destruct s3 as [|x r]; cbn [strip].
    - by apply Hfrag.
    - destruct (decide (x = code "?")) as [->|Hx]; [|by apply Hfrag].
      destruct (span (NoneOf (js "#")) r) as [q r']. groups. by apply Hfrag. }
  assert (Hpath : forall s2 c2 sch auth,
    group 2 c2 = sch -> group 4 c2 = auth -> group 5 c2 = None ->
    group 7 c2 = None -> group 9 c2 = None ->
    match K2 s2 c2 with
    | Some result => Ok (MkURI (group 2 result) (group 4 result) (group 5 result)
                               (group 7 result) (group 9 result))
    | None => Throw TypeError
    end
    = Ok (let (pth, s3) := span (NoneOf (js "?#")) s2 in
          let (qry, s4) := scan_marked [code "?"] (NoneOf (js "#")) s3 in
          let (frg, s5) := scan_marked [code "#"] Dot s4 in
          (MkURI sch auth (Some pth) qry frg, s5)).1).
  { intros s2 c2 sch auth G2 G4 G5 G7 G9.
    unfold K2, R3. rewrite matches_group_star by done.
    destruct (span (NoneOf (js "?#")) s2) as [pth s3]. groups. by apply Hquery. }
  assert (Hauth : forall s1 c1 sch,
    group 2 c1 = sch -> group 4 c1 = None -> group 5 c1 = None ->
    group 7 c1 = None -> group 9 c1 = None ->
    match K1 s1 c1 with
    | Some result => Ok (MkURI (group 2 result) (group 4 result) (group 5 result)
                               (group 7 result) (group 9 result))
    | None => Throw TypeError
    end
    = Ok (let (auth, s2) := scan_marked [code "/"; code "/"] (NoneOf (js "/?#")) s1 in
          let (pth, s3) := span (NoneOf (js "?#")) s2 in
          let (qry, s4) := scan_marked [code "?"] (NoneOf (js "#")) s3 in
          let (frg, s5) := scan_marked [code "#"] Dot s4 in
          (MkURI sch auth (Some pth) qry frg, s5)).1).
  { intros s1 c1 sch G2 G4 G5 G7 G9.
    unfold K1, R2. rewrite matches_marked2 by done.
    unfold scan_marked at 1. destruct s1 as [|x [|y r]]; cbn [strip].
    - by apply Hpath.
    - destruct (decide (x = code "/")); by apply Hpath.
    - destruct (decide (x = code "/")) as [->|Hx]; [|by apply Hpath].
      destruct (decide (y = code "/")) as [->|Hy]; [|by apply Hpath].
      destruct (span (NoneOf (js "/?#")) r) as [a r']. groups. by apply Hpath. }
  destruct (span (NoneOf (js ":/?#")) uri) as [[|x p] [|y r]]; try (by apply Hauth).
  destruct (decide (y = code ":")) as [->|]; by apply Hauth.
Qed.

Lemma truthy_Some_nil_or (x : option jsstring) :
  truthy x = false -> x = None \/ x = Some [].
Proof. destruct x as [[|]|]; auto; done. Qed.

(** X15.  [new URI(uri)] never throws: the pattern matches every string, the path
    is always a string, and the five parts are the ones a scanner that never
    looks back reads off: the scheme up to the first colon if nothing but
    scheme characters comes before it, the authority after a double slash,
    the path up to the first [?] or [#], the query up to the first [#], and
    the fragment up to the first line terminator. *)
Theorem URI_new_never_throws uri :
  exists u p, URI_new uri = Ok u /\ path u = Some p /\ u = (scan_uri uri).1.
Proof.
  exists (scan_uri uri).1. rewrite URI_new_scan.
  unfold scan_uri.
  destruct (scan_scheme uri) as [sch s1].
  destruct (scan_marked _ _ s1) as [auth s2].
  destruct (span _ s2) as [pth s3].
  destruct (scan_marked _ _ s3) as [qry s4].
  destruct (scan_marked _ _ s4) as [frg s5].
  by exists pth.
Qed.

Lemma scan_marked_app m c s :
  mark m (scan_marked m c s).1 ++ (scan_marked m c s).2 = s.
Proof.
  unfold scan_marked.
  assert (Hstrip : forall r, strip m s = Some r -> s = m ++ r).
  { revert s. induction m as [|a m IH]; intros [|x s] r; cbn; try done.
    - by intros [= ->].
    - by intros [= ->].
    - destruct (decide (x = a)) as [->|]; [|done]. intros Hr. by rewrite (IH s r Hr). }
  destruct (strip m s) as [r|]; [|done].
  rewrite (Hstrip r eq_refl). pose proof (span_app c r) as Happ.
  destruct (span c r) as [p r']. cbn in *. by rewrite <- app_assoc, Happ.
Qed.

Lemma scan_scheme_app s :
  match (scan_scheme s).1 with
  | Some p => p ++ [code ":"]
  | None => []
  end ++ (scan_scheme s).2 = s.
Proof.
  unfold scan_scheme. pose proof (span_app (NoneOf (js ":/?#")) s) as Happ.
  destruct (span (NoneOf (js ":/?#")) s) as [[|x p] [|y r]]; try done.
  destruct (decide (y = code ":")) as [->|]; [|done].
  cbn in *. by rewrite <- app_assoc.
Qed.

Lemma scan_scheme_nonempty s : (scan_scheme s).1 <> Some [].
Proof.
  unfold scan_scheme.
  destruct (span (NoneOf (js ":/?#")) s) as [[|x p] [|y r]]; try done.
  by destruct (decide (y = code ":")).
Qed.

(** Every string is the concatenation of the parts the scanner finds, each
    with its mark, and of what the scanner leaves. *)
Lemma scan_uri_app uri :
  let u := (scan_uri uri).1 in
  match scheme u with Some p => p ++ [code ":"] | None => [] end
  ++ mark [code "/"; code "/"] (authority u) ++ to_str (path u)
  ++ mark [code "?"] (query u) ++ mark [code "#"] (fragment u) ++ (scan_uri uri).2
  = uri.
Proof.
  unfold scan_uri.
  pose proof (scan_scheme_app uri) as H1.
  destruct (scan_scheme uri) as [sch s1]. cbn [fst snd] in H1.
  pose proof (scan_marked_app [code "/"; code "/"] (NoneOf (js "/?#")) s1) as H2.
  destruct (scan_marked _ _ s1) as [auth s2]. cbn [fst snd] in H2.
  pose proof (span_app (NoneOf (js "?#")) s2) as H3.
  destruct (span _ s2) as [pth s3]. cbn [fst snd] in H3.
  pose proof (scan_marked_app [code "?"] (NoneOf (js "#")) s3) as H4.
  destruct (scan_marked _ _ s3) as [qry s4]. cbn [fst snd] in H4.
  pose proof (scan_marked_app [code "#"] Dot s4) as H5.
  destruct (scan_marked _ _ s4) as [frg s5]. cbn [fst snd] in H5.
  cbn [fst snd scheme authority path query fragment to_str].
  by rewrite <- H1, <- H2, <- H3, <- H4, <- H5.
Qed.

(** What the scanner leaves starts with a line terminator. *)
Lemma scan_uri_rest uri x r :
  (scan_uri uri).2 = x :: r -> x ∈ line_terminators.
Proof.
  unfold scan_uri.
  destruct (scan_scheme uri) as [sch s1].
  destruct (scan_marked _ _ s1) as [auth s2].
  pose proof (span_rest_out (NoneOf (js "?#")) s2) as H3.
  destruct (span _ s2) as [pth s3]. cbn [fst snd] in H3.
  assert (H4 : forall y t, (scan_marked [code "?"] (NoneOf (js "#")) s3).2 = y :: t ->
                           y = code "#").
  { intros y t. unfold scan_marked. destruct s3 as [|z s3]; cbn [strip]; [done|].
    destruct (decide (z = code "?")) as [->|Hz].
    - pose proof (span_rest_out (NoneOf (js "#")) s3) as Hq.
      destruct (span _ s3) as [q r']. cbn [fst snd] in *. intros ->.
      specialize (Hq _ _ eq_refl). cbn in Hq. apply bool_decide_eq_false in Hq.
      apply dec_stable in Hq. by apply list_elem_of_singleton in Hq.
    - cbn [snd]. intros [= -> ->]. specialize (H3 _ _ eq_refl).
      cbn in H3. apply bool_decide_eq_false in H3. apply dec_stable in H3.
      change (js "?#") with [code "?"; code "#"] in H3.
      apply elem_of_cons in H3 as [->|H3]; [done|]. by apply list_elem_of_singleton in H3. }
  destruct (scan_marked _ _ s3) as [qry s4]. cbn [fst snd] in H4.
  unfold scan_marked. destruct s4 as [|z s4]; cbn [strip]; [done|].
  rewrite (H4 z s4 eq_refl). destruct (decide (code "#" = code "#")) as [_|]; [|done].
  pose proof (span_rest_out Dot s4) as Hf.
  destruct (span Dot s4) as [f r']. cbn [fst snd] in *. intros ->.
  specialize (Hf _ _ eq_refl). cbn in Hf. apply bool_decide_eq_false in Hf.
  by apply dec_stable in Hf.
Qed.

(** X16.  Parsing and printing: a string without line terminators comes back from
    [new URI(uri).toString()] as it was, unless it has an empty authority,
    an empty query or an empty fragment (these [toString] leaves out,
    together with their marks). *)
Theorem URI_toString_round_trip uri u :
  URI_new uri = Ok u ->
  authority u <> Some [] -> query u <> Some [] -> fragment u <> Some [] ->
  Forall (λ x, x ∉ line_terminators) uri ->
  URI_toString u = uri.
Proof.
  rewrite URI_new_scan. intros [= <-] Ha Hq Hf Hlt.
  pose proof (scan_uri_app uri) as Happ. cbv zeta in Happ.
  pose proof (scan_uri_rest uri) as Hrest.
  assert (Hsch : scheme (scan_uri uri).1 <> Some []).
  { unfold scan_uri. pose proof (scan_scheme_nonempty uri).
    destruct (scan_scheme uri) as [sch s1].
    destruct (scan_marked _ _ s1) as [auth s2]. destruct (span _ s2) as [pth s3].
    destruct (scan_marked _ _ s3) as [qry s4]. by destruct (scan_marked _ _ s4). }
  destruct (scan_uri uri) as [[sch auth pth qry frg] rest].
  cbn [fst snd scheme authority path query fragment] in *.
  assert (rest = []) as ->.
  { destruct rest as [|x r]; [done|]. exfalso.
    rewrite <- Happ in Hlt. rewrite !Forall_app in Hlt.
    destruct Hlt as (_ & _ & _ & _ & _ & Hlt). apply Forall_cons in Hlt as [Hx _].
    apply Hx. by eapply Hrest. }
  rewrite app_nil_r in Happ. rewrite <- Happ.
  unfold URI_toString. cbn [scheme authority path query fragment].
  destruct sch as [[|? ?]|], auth as [[|? ?]|], qry as [[|? ?]|], frg as [[|? ?]|];
    try done; cbn [truthy to_str mark app]; by rewrite <- ?app_assoc, ?app_nil_r.
Qed.

Lemma URI_toString_round_trip_witness :
  URI_toString (MkURI (Some (js "http")) (Some (js "a.b")) (Some (js "/c/d"))
                      (Some (js "x=1")) (Some (js "top")))
  = js "http://a.b/c/d?x=1#top".
Proof.
  apply (URI_toString_round_trip (js "http://a.b/c/d?x=1#top")).
  - reflexivity.
  - discriminate.
  - discriminate.
  - discriminate.
  - compute_done.
Defined.

Lemma span_all c p r : all_in c p -> stops c r -> span c (p ++ r) = (p, r).
Proof.
  intros Hp Hr. induction Hp as [|x p Hx Hp IH]; cbn [app span].
  - destruct r as [|y r]; [done|]. cbn in *. by rewrite Hr.
  - by rewrite Hx, IH.
Qed.

Lemma span_app_stopped c p t :
  (span c p).2 <> [] -> span c (p ++ t) = ((span c p).1, (span c p).2 ++ t).
Proof.
  induction p as [|x p IH]; [done|]. cbn [app span].
  destruct (in_charset c x); [|done].
  destruct (span c p) as [a b]. cbn [fst snd] in *. intros Hb. by rewrite IH.
Qed.

Lemma span_rest_nil c p : (span c p).2 = [] -> all_in c p.
Proof.
  intros Hnil. pose proof (span_app c p) as Happ. pose proof (span_prefix_in c p) as Hin.
  rewrite Hnil, app_nil_r in Happ. by rewrite Happ in Hin.
Qed.

Lemma tail_of_head qry frg x r :
  tail_of qry frg = x :: r -> x = code "?" \/ x = code "#".
Proof.
  unfold tail_of. destruct qry as [q|], frg as [f|]; cbn; try done.
  all: intros [= <- _]; auto.
Qed.

Lemma tail_of_stops c qry frg :
  in_charset c (code "?") = false -> in_charset c (code "#") = false ->
  stops c (tail_of qry frg).
Proof.
  intros H1 H2. destruct (tail_of qry frg) as [|x r] eqn:Ht; [done|].
  cbn. by destruct (tail_of_head _ _ _ _ Ht) as [-> | ->].
Qed.

Lemma scan_scheme_present sch rest :
  sch <> [] -> all_in (NoneOf (js ":/?#")) sch ->
  scan_scheme (sch ++ [code ":"] ++ rest) = (Some sch, rest).
Proof.
  intros Hne Hin. unfold scan_scheme.
  rewrite (span_all _ sch ([code ":"] ++ rest)) by done.
  destruct sch as [|x p]; [done|]. cbn [app].
  by destruct (decide (code ":" = code ":")).
Qed.

Lemma scan_scheme_absent p qry frg :
  (scan_scheme p).1 = None ->
  scan_scheme (p ++ tail_of qry frg) = (None, p ++ tail_of qry frg).
Proof.
  unfold scan_scheme. intros Hp.
  destruct (span (NoneOf (js ":/?#")) p) as [a b] eqn:Hs.
  destruct b as [|y b].
  - assert (Hall : all_in (NoneOf (js ":/?#")) p).
    { apply span_rest_nil. by rewrite Hs. }
    rewrite (span_all _ p (tail_of qry frg) Hall) by (by apply tail_of_stops).
    destruct p as [|x p]; [done|].
    destruct (tail_of qry frg) as [|z t] eqn:Ht; [done|].
    destruct (tail_of_head _ _ _ _ Ht) as [-> | ->]; by destruct (decide _).
  - rewrite span_app_stopped by (by rewrite Hs). rewrite Hs. cbn [fst snd app].
    destruct a as [|x a]; [done|].
    destruct (decide (y = code ":")); [done|done].
Qed.

Lemma scan_marked_present m c s rest :
  all_in c s -> stops c rest -> scan_marked m c (m ++ s ++ rest) = (Some s, rest).
Proof.
  intros Hs Hrest. unfold scan_marked.
  assert (Hstrip : forall t, strip m (m ++ t) = Some t).
  { intros t. induction m as [|a m IH]; [by destruct t|]. cbn.
    by destruct (decide (a = a)). }
  by rewrite Hstrip, span_all.
Qed.

(** X17.  Printing and parsing: a well-formed URI comes back from
    [new URI(u.toString())] part by part. *)
Theorem URI_new_toString u : URI_wf u -> URI_new (URI_toString u) = Ok u.
Proof.
  intros (Hsch & Hauth & (p & Hpath & Hp & Hshape) & Hqry & Hfrg).
  rewrite URI_new_scan. f_equal.
  destruct u as [sch auth pth qry frg].
  cbn [scheme authority path query fragment] in *. subst pth.
  assert (Hprint : URI_toString (MkURI sch auth (Some p) qry frg)
                   = match sch with Some s => s ++ [code ":"] | None => [] end
                     ++ mark [code "/"; code "/"] auth ++ p ++ tail_of qry frg).
  { unfold URI_toString, tail_of. cbn [scheme authority path query fragment].
    destruct sch as [[|? ?]|], auth as [[|? ?]|], qry as [[|? ?]|], frg as [[|? ?]|];
      cbn in Hsch, Hauth, Hqry, Hfrg; try tauto;
      cbn [truthy to_str mark app]; by rewrite <- ?app_assoc, ?app_nil_r. }
  rewrite Hprint. clear Hprint. unfold scan_uri.
  (* the tail: query and fragment *)
  assert (Htail : forall s3, s3 = tail_of qry frg ->
            (let (q, s4) := scan_marked [code "?"] (NoneOf (js "#")) s3 in
             let (f, s5) := scan_marked [code "#"] Dot s4 in (q, f))
            = (qry, frg)).
  { intros s3 ->. unfold tail_of.
    assert (Hf : scan_marked [code "#"] Dot (mark [code "#"] frg) = (frg, [])).
    { destruct frg as [f|]; [|done]. destruct Hfrg as [_ Hf].
      rewrite <- (app_nil_r f) at 1.
      change (mark [code "#"] (Some (f ++ []))) with ([code "#"] ++ f ++ []).
      by rewrite scan_marked_present. }
    destruct qry as [q|].
    - destruct Hqry as [_ Hq].
      change (mark [code "?"] (Some q) ++ mark [code "#"] frg)
        with ([code "?"] ++ q ++ mark [code "#"] frg).
      rewrite scan_marked_present; [by rewrite Hf|done|by destruct frg].
    - cbn [mark app].
      assert (Hq : scan_marked [code "?"] (NoneOf (js "#")) (mark [code "#"] frg)
                   = (None, mark [code "#"] frg)) by (by destruct frg).
      by rewrite Hq, Hf. }
  (* the path *)
  assert (Hpth : (let (pth, s3) := span (NoneOf (js "?#")) (p ++ tail_of qry frg) in
                  let (q, s4) := scan_marked [code "?"] (NoneOf (js "#")) s3 in
                  let (f, s5) := scan_marked [code "#"] Dot s4 in (pth, q, f))
                 = (p, qry, frg)).
  { rewrite span_all by (done || by apply tail_of_stops).
    specialize (Htail _ eq_refl).
    destruct (scan_marked [code "?"] _ _) as [q s4].
    destruct (scan_marked [code "#"] _ s4) as [f s5]. by injection Htail as -> ->. }
  (* scheme and authority *)
  assert (Hrest : forall s1, s1 = mark [code "/"; code "/"] auth ++ p ++ tail_of qry frg ->
            (let (a, s2) := scan_marked [code "/"; code "/"] (NoneOf (js "/?#")) s1 in
             let (pth, s3) := span (NoneOf (js "?#")) s2 in
             let (q, s4) := scan_marked [code "?"] (NoneOf (js "#")) s3 in
             let (f, s5) := scan_marked [code "#"] Dot s4 in (a, pth, q, f))
            = (auth, p, qry, frg)).
  { intros s1 ->. destruct auth as [a|].
    - destruct Hauth as [_ Ha].
      change (mark [code "/"; code "/"] (Some a) ++ p ++ tail_of qry frg)
        with ([code "/"; code "/"] ++ a ++ p ++ tail_of qry frg).
      rewrite scan_marked_present; [|done|].
      2:{ destruct Hshape as [->|[r ->]]; [by apply tail_of_stops|done]. }
      destruct (span _ (p ++ tail_of qry frg)) as [pth s3].
      destruct (scan_marked [code "?"] _ s3) as [q s4].
      destruct (scan_marked [code "#"] _ s4) as [f s5]. by injection Hpth as -> -> ->.
    - cbn [mark app]. destruct Hshape as [Hstrip _].
      assert (Hno : scan_marked [code "/"; code "/"] (NoneOf (js "/?#")) (p ++ tail_of qry frg)
                    = (None, p ++ tail_of qry frg)).
      { unfold scan_marked.
        assert (strip [code "/"; code "/"] (p ++ tail_of qry frg) = None) as ->; [|done].
        destruct p as [|x [|y p]]; cbn [app strip] in *.
        - destruct (tail_of qry frg) as [|z t] eqn:Ht; [done|].
          destruct (tail_of_head _ _ _ _ Ht) as [-> | ->]; by destruct (decide _).
        - destruct (decide (x = code "/")); [|done].
          destruct (tail_of qry frg) as [|z t] eqn:Ht; [done|].
          destruct (tail_of_head _ _ _ _ Ht) as [-> | ->]; by destruct (decide _).
        - destruct (decide (x = code "/")); [|done]. by destruct (decide (y = code "/")). }
      rewrite Hno.
      destruct (span _ (p ++ tail_of qry frg)) as [pth s3].
      destruct (scan_marked [code "?"] _ s3) as [q s4].
      destruct (scan_marked [code "#"] _ s4) as [f s5]. by injection Hpth as -> -> ->. }
  assert (Hscheme : scan_scheme (match sch with Some s => s ++ [code ":"] | None => [] end
                       ++ mark [code "/"; code "/"] auth ++ p ++ tail_of qry frg)
                    = (sch, mark [code "/"; code "/"] auth ++ p ++ tail_of qry frg)).
  { destruct sch as [s|].
    - destruct Hsch as [Hne Hs]. rewrite <- app_assoc. by apply scan_scheme_present.
    - cbn [app]. destruct auth as [a|].
      + done.
      + cbn [mark app]. destruct Hshape as [_ Hs]. by apply scan_scheme_absent, Hs. }
  rewrite Hscheme. specialize (Hrest _ eq_refl).
  destruct (scan_marked [code "/"; code "/"] _ _) as [a s2].
  destruct (span _ s2) as [pth s3].
  destruct (scan_marked [code "?"] _ s3) as [q s4].
  destruct (scan_marked [code "#"] _ s4) as [f s5]. by injection Hrest as -> -> -> ->.
Qed.

Lemma URI_new_toString_witness :
  URI_new (js "http://a.b/c/d?x=1#top")
  = Ok (MkURI (Some (js "http")) (Some (js "a.b")) (Some (js "/c/d"))
              (Some (js "x=1")) (Some (js "top"))).
Proof.
  apply (URI_new_toString (MkURI (Some (js "http")) (Some (js "a.b")) (Some (js "/c/d"))
                                 (Some (js "x=1")) (Some (js "top")))).
  unfold URI_wf, part_ok, all_in. cbn [scheme authority path query fragment].
  split; [split; [discriminate|compute_done]|].
  split; [split; [discriminate|compute_done]|].
  split.
  { exists (js "/c/d"). split; [reflexivity|]. split; [compute_done|].
    right. exists (js "c/d"). reflexivity. }
  split; [split; [discriminate|compute_done]|].
  split; [discriminate|compute_done].
Defined.

(** X18.  [createURI] refuses exactly the options that name one part twice: a
    hostpath together with a scheme, an authority, a host or a path, or a
    host together with a scheme or an authority.  Query and fragment never
    make it throw. *)
Theorem createURI_throws_iff options :
  (exists e, createURI options = inl e) <->
  (truthy (o_hostpath options) = true /\
     (truthy (o_scheme options) = true \/ truthy (o_authority options) = true \/
      truthy (o_host options) = true \/ truthy (o_path options) = true)) \/
  (truthy (o_host options) = true /\
     (truthy (o_scheme options) = true \/ truthy (o_authority options) = true)).
Proof.
  unfold createURI.
  destruct (truthy (o_scheme options)), (truthy (o_authority options)),
    (truthy (o_host options)), (truthy (o_path options)), (truthy (o_hostpath options));
    cbn [andb orb]; split;
    try (intros [e [=]]; fail); try (intros _; by eexists); try tauto;
    intros [[? ?]|[? ?]]; try done; intuition discriminate.
Qed.

(** X19.  The options of [createURI] and the fields of a URI: printing a URI is
    building it from its five parts. *)
Theorem createURI_of_parts u p :
  path u = Some p ->
  createURI (UriOptions (scheme u) (authority u) None (path u) None (query u) (fragment u))
  = inr (URI_toString u).
Proof.
  intros Hp. unfold createURI, URI_toString.
  cbn [o_scheme o_authority o_host o_path o_hostpath o_query o_fragment truthy].
  rewrite !orb_false_r, !andb_false_r. rewrite Hp. cbn [to_str].
  destruct p as [|x p]; cbn [truthy]; [|done].
  by rewrite !app_nil_r.
Qed.

Lemma createURI_of_parts_witness :
  createURI (UriOptions (Some (js "http")) (Some (js "a.b")) None (Some (js "/c")) None
                        None None)
  = inr (js "http://a.b/c").
Proof.
  apply (createURI_of_parts (MkURI (Some (js "http")) (Some (js "a.b")) (Some (js "/c"))
                                   None None) (js "/c")).
  reflexivity.
Defined.

(** X20.  A host is a scheme and an authority put together, and a hostpath is a
    scheme, an authority and a path: building the combined part first and
    handing it on as [host] (or [hostpath]) gives the same string as handing
    on the parts. *)
Theorem createURI_combined_parts sch auth pth qry frg host hostpath :
  createURI (UriOptions sch auth None None None None None) = inr host ->
  createURI (UriOptions sch auth None pth None None None) = inr hostpath ->
  createURI (UriOptions None None (Some host) pth None qry frg)
  = createURI (UriOptions sch auth None pth None qry frg) /\
  createURI (UriOptions None None None None (Some hostpath) qry frg)
  = createURI (UriOptions sch auth None pth None qry frg).
Proof.
  unfold createURI.
  cbn [o_scheme o_authority o_host o_path o_hostpath o_query o_fragment].
  destruct sch as [[|? ?]|], auth as [[|? ?]|], pth as [[|? ?]|];
    cbn [truthy orb andb to_str app]; intros [= <-] [= <-];
    cbn [truthy orb andb to_str app];
    destruct (truthy qry), (truthy frg);
    repeat first [rewrite <- app_assoc | progress cbn [app]];
    split; reflexivity.
Qed.

Lemma createURI_combined_parts_witness :
  createURI (UriOptions None None (Some (js "http://a.b")) (Some (js "/c")) None
                        (Some (js "x=1")) None)
  = inr (js "http://a.b/c?x=1") /\
  createURI (UriOptions None None None None (Some (js "http://a.b/c"))
                        (Some (js "x=1")) None)
  = inr (js "http://a.b/c?x=1").
Proof.
  apply (createURI_combined_parts (Some (js "http")) (Some (js "a.b")) (Some (js "/c"))
           (Some (js "x=1")) None (js "http://a.b") (js "http://a.b/c"));
    reflexivity.
Defined.

(** ** Render *)

Section RenderProofs.
Context {mesh : Type} `{!MeshOps mesh}.
Implicit Types (sc : @scene mesh) (xs : list (option loc)) (ms : list mesh).

Lemma cells_app xs ys : cells (xs ++ ys) = cells xs ++ cells ys.
Proof. unfold cells. apply omap_app. Qed.

Lemma cells_take_S xs i c :
  xs !! i = Some c ->
  cells (take (S i) xs) = cells (take i xs) ++ match c with Some m => [m] | None => [] end.
Proof.
  intros Hi. by rewrite (take_S_r _ _ _ Hi), cells_app.
Qed.

Lemma cells_fresh xs i m :
  NoDup (cells xs) -> xs !! i = Some (Some m) -> m ∉ cells (take i xs).
Proof.
  intros Hnd Hi Hin.
  rewrite <- (take_drop_middle xs i (Some m) Hi), cells_app in Hnd.
  apply NoDup_app in Hnd as (_ & Hdisj & _).
  apply (Hdisj m Hin). unfold cells. cbn. left.
Qed.

Lemma cells_elem xs i m : xs !! i = Some (Some m) -> m ∈ cells xs.
Proof.
  intros Hi. unfold cells. apply list_elem_of_omap. exists (Some m). split; [|done].
  by eapply list_elem_of_lookup_2.
Qed.

Lemma load_render_ok sc this r :
  scene_renders sc !! this = Some r -> load_render this sc = (Ok r, sc).
Proof. unfold load_render. by intros ->. Qed.
Lemma load_array_ok sc a xs :
  scene_arrays sc !! a = Some xs -> load_array a sc = (Ok xs, sc).
Proof. unfold load_array. by intros ->. Qed.
Lemma load_mesh_ok sc m x :
  scene_meshes sc !! m = Some x -> load_mesh m sc = (Ok x, sc).
Proof. unfold load_mesh. by intros ->. Qed.
Lemma call_mesh_ok sc m x f :
  scene_meshes sc !! m = Some x ->
  call_mesh m f sc
  = (Ok tt, Scene (<[m:=f x]> (scene_meshes sc)) (scene_arrays sc) (scene_renders sc)).
Proof. intros Hx. unfold call_mesh. by rewrite (bind_ok _ _ _ _ _ (load_mesh_ok _ _ _ Hx)). Qed.

Section OneRender.
Variables (sc : @scene mesh) (this a : loc) (r : render) (xs : list (option loc)).
Hypothesis Hr : scene_renders sc !! this = Some r.
Hypothesis Ha : scene_arrays sc !! a = Some xs.
Hypothesis Hnd : NoDup (cells xs).
Hypothesis Hms : forall m, m ∈ cells xs -> is_Some (scene_meshes sc !! m).

(** The loop of [decRefMeshes]. *)
Lemma decRefMeshes_loop :
  _meshes r = Some a ->
  exists ms',
    decRefMeshes this sc
    = (Ok tt, Scene ms' (<[a:=kept (scene_meshes sc) <$> xs]> (scene_arrays sc))
                    (scene_renders sc)) /\
    length ms' = length (scene_meshes sc) /\
    forall l, ms' !! l = if bool_decide (l ∈ cells xs)
                         then released <$> scene_meshes sc !! l
                         else scene_meshes sc !! l.
Proof.
  intros Hma. unfold decRefMeshes.
  assert (Hload : load_render this sc = (Ok r, sc)) by (unfold load_render; by rewrite Hr).
  rewrite (bind_ok _ _ _ _ _ Hload), Hma.
  assert (Hloada : load_array a sc = (Ok xs, sc)) by (unfold load_array; by rewrite Ha).
  rewrite (bind_ok _ _ _ _ _ Hloada). cbv zeta.
  set (ms0 := scene_meshes sc).
  set (I := fun (i : nat) (s : @scene mesh) =>
    scene_renders s = scene_renders sc /\
    scene_arrays s = <[a:=(kept ms0 <$> take i xs) ++ drop i xs]> (scene_arrays sc) /\
    length (scene_meshes s) = length ms0 /\
    forall l, scene_meshes s !! l = if bool_decide (l ∈ cells (take i xs))
                                    then released <$> ms0 !! l else ms0 !! l).
  match goal with
  | |- context [for_range ?n ?body] =>
      destruct (for_range_ok body I n sc) as (sc' & Hrun & HI)
  end.
  - split; [done|]. split; [|split; [done|]].
    + cbn. rewrite drop_0. destruct sc as [m0 a0 r0]. cbn in *.
      by rewrite list_insert_id.
    + intros l. cbn. by rewrite bool_decide_eq_false_2 by apply not_elem_of_nil.
  - intros i s Hi (HIr & HIa & HIl & HIm).
    assert (Hload' : load_render this s = (Ok r, s)).
    { unfold load_render. by rewrite HIr, Hr. }
    rewrite (bind_ok _ _ _ _ _ Hload'), Hma. unfold defined at 1.
    rewrite (bind_ok _ _ s a s) by done.
    set (ys := (kept ms0 <$> take i xs) ++ drop i xs).
    assert (Hys : scene_arrays s !! a = Some ys).
    { rewrite HIa. apply list_lookup_insert_eq. by eapply lookup_lt_Some. }
    assert (Hloada' : load_array a s = (Ok ys, s)) by (unfold load_array; by rewrite Hys).
    rewrite (bind_ok _ _ _ _ _ Hloada').
    destruct (lookup_lt_is_Some_2 xs i Hi) as [c Hc].
    assert (Hlen_take : length (kept ms0 <$> take i xs) = i).
    { rewrite length_fmap, length_take. lia. }
    assert (Hysi : ys !! i = Some c).
    { unfold ys. rewrite lookup_app_r by lia. rewrite Hlen_take, Nat.sub_diag.
      by rewrite lookup_drop, Nat.add_0_r. }
    rewrite Hysi.
    assert (Hnext : forall c', c' = kept ms0 c ->
              (kept ms0 <$> take (S i) xs) ++ drop (S i) xs = <[i:=c']> ys).
    { intros c' ->. unfold ys.
      rewrite (take_S_r _ _ _ Hc), fmap_app, <- app_assoc. cbn [fmap list_fmap app].
      rewrite insert_app_r_alt by lia. rewrite Hlen_take, Nat.sub_diag.
      f_equal. rewrite (drop_S _ _ _ Hc). done. }
    destruct c as [m|].
    2:{ exists s. split; [done|]. split; [done|]. split; [|split; [done|]].
        - rewrite HIa. f_equal. rewrite (Hnext None) by done.
          symmetry. by apply list_insert_id.
        - intros l. rewrite (cells_take_S _ _ _ Hc), app_nil_r. apply HIm. }
    pose proof (cells_fresh xs i m Hnd Hc) as Hfresh.
    pose proof (cells_elem xs i m Hc) as Hin.
    destruct (Hms m Hin) as [x Hx]. fold ms0 in Hx.
    assert (Hsx : scene_meshes s !! m = Some x).
    { by rewrite HIm, bool_decide_eq_false_2. }
    assert (Hmesh : forall l y,
              <[m:=y]> (scene_meshes s) !! l
              = if bool_decide (l ∈ cells (take (S i) xs))
                then (if decide (l = m) then Some y else released <$> ms0 !! l)
                else ms0 !! l).
    { intros l y. rewrite (cells_take_S _ _ _ Hc).
      destruct (decide (l = m)) as [->|Hne].
      - rewrite list_lookup_insert_eq by (by eapply lookup_lt_Some).
        rewrite bool_decide_eq_true_2; [done|]. apply elem_of_app. right. left.
      - rewrite list_lookup_insert_ne by done. rewrite HIm.
        destruct (decide (l ∈ cells (take i xs))) as [Hl|Hl].
        + rewrite !bool_decide_eq_true_2; [done| |done]. apply elem_of_app. by left.
        + rewrite !bool_decide_eq_false_2; [done| |done].
          rewrite elem_of_app, list_elem_of_singleton. tauto. }
    rewrite (bind_ok _ _ _ _ _ (call_mesh_ok _ _ _ mesh_decRefCount Hsx)).
    set (s1 := Scene (<[m:=mesh_decRefCount x]> (scene_meshes s)) (scene_arrays s)
                     (scene_renders s)).
    assert (Hs1 : scene_meshes s1 !! m = Some (mesh_decRefCount x)).
    { cbn. apply list_lookup_insert_eq. by eapply lookup_lt_Some. }
    rewrite (bind_ok _ _ _ _ _ (load_mesh_ok _ _ _ Hs1)).
    destruct (mesh_getRefCount (mesh_decRefCount x) <? 1)%Z eqn:Hcount.
    + rewrite (bind_ok _ _ _ _ _ (call_mesh_ok _ _ _ mesh_destroy Hs1)).
      cbn [s1 scene_meshes scene_arrays scene_renders].
      match goal with |- context [bind (load_render this) _ ?s2] =>
        assert (Hload2 : load_render this s2 = (Ok r, s2))
          by (apply load_render_ok; cbn; by rewrite HIr);
        assert (Hloada2 : load_array a s2 = (Ok ys, s2)) by (by apply load_array_ok)
      end.
      rewrite (bind_ok _ _ _ _ _ Hload2), Hma. unfold defined at 1.
      match goal with |- context [bind (ret a) ?k ?s2] =>
        rewrite (bind_ok (ret a) k s2 a s2) by done end.
      rewrite (bind_ok _ _ _ _ _ Hloada2).
      unfold store_array. cbn [scene_meshes scene_arrays scene_renders].
      eexists. split; [reflexivity|]. unfold I.
      cbn [scene_meshes scene_arrays scene_renders].
      split; [done|]. split; [|split].
      * rewrite HIa, list_insert_insert_eq. f_equal. symmetry. apply Hnext.
        unfold kept. cbn. rewrite Hx. cbn. unfold survives. by rewrite Hcount.
      * by rewrite !length_insert.
      * intros l. rewrite list_insert_insert_eq, Hmesh.
        destruct (decide (l = m)) as [->|]; [|done].
        rewrite Hx. cbn. unfold released. by rewrite Hcount.
    + unfold ret. eexists. split; [reflexivity|]. unfold I, s1.
      cbn [scene_meshes scene_arrays scene_renders].
      split; [done|]. split; [|split].
      * rewrite HIa. f_equal. rewrite (Hnext (Some m)).
        -- symmetry. by apply list_insert_id.
        -- unfold kept. cbn. rewrite Hx. cbn. unfold survives. by rewrite Hcount.
      * by rewrite length_insert.
      * intros l. rewrite Hmesh.
        destruct (decide (l = m)) as [->|]; [|done].
        rewrite Hx. cbn. unfold released. by rewrite Hcount.
  - destruct HI as (HIr & HIa & HIl & HIm).
    exists (scene_meshes sc'). rewrite Hrun. split; [|split; [done|]].
    + f_equal. destruct sc' as [m1 a1 r1]. cbn in *. subst.
      by rewrite firstn_all, drop_all, app_nil_r.
    + intros l. rewrite HIm. by rewrite firstn_all.
Qed.

(** The loop of [incRefMeshes]. *)
Lemma incRefMeshes_loop :
  _meshes r = Some a ->
  exists ms',
    incRefMeshes this sc = (Ok tt, Scene ms' (scene_arrays sc) (scene_renders sc)) /\
    length ms' = length (scene_meshes sc) /\
    forall l, ms' !! l = if bool_decide (l ∈ cells xs)
                         then mesh_incRefCount <$> scene_meshes sc !! l
                         else scene_meshes sc !! l.
Proof.
  intros Hma. unfold incRefMeshes.
  rewrite (bind_ok _ _ _ _ _ (load_render_ok _ _ _ Hr)), Hma.
  rewrite (bind_ok _ _ _ _ _ (load_array_ok _ _ _ Ha)). cbv zeta.
  set (ms0 := scene_meshes sc).
  set (I := fun (i : nat) (s : @scene mesh) =>
    scene_renders s = scene_renders sc /\ scene_arrays s = scene_arrays sc /\
    length (scene_meshes s) = length ms0 /\
    forall l, scene_meshes s !! l = if bool_decide (l ∈ cells (take i xs))
                                    then mesh_incRefCount <$> ms0 !! l else ms0 !! l).
  match goal with
  | |- context [for_range ?n ?body] =>
      destruct (for_range_ok body I n sc) as (sc' & Hrun & HI)
  end.
  - split; [done|]. split; [done|]. split; [done|].
    intros l. cbn. by rewrite bool_decide_eq_false_2 by apply not_elem_of_nil.
  - intros i s Hi (HIr & HIa & HIl & HIm).
    assert (Hload' : load_render this s = (Ok r, s)).
    { apply load_render_ok. by rewrite HIr. }
    rewrite (bind_ok _ _ _ _ _ Hload'), Hma. unfold defined at 1.
    rewrite (bind_ok _ _ s a s) by done.
    assert (Hloada' : load_array a s = (Ok xs, s)).
    { apply load_array_ok. by rewrite HIa. }
    rewrite (bind_ok _ _ _ _ _ Hloada').
    destruct (lookup_lt_is_Some_2 xs i Hi) as [c Hc]. rewrite Hc.
    destruct c as [m|].
    2:{ exists s. split; [done|]. split; [done|]. split; [done|]. split; [done|].
        intros l. rewrite (cells_take_S _ _ _ Hc), app_nil_r. apply HIm. }
    pose proof (cells_fresh xs i m Hnd Hc) as Hfresh.
    pose proof (cells_elem xs i m Hc) as Hin.
    destruct (Hms m Hin) as [x Hx]. fold ms0 in Hx.
    assert (Hsx : scene_meshes s !! m = Some x).
    { by rewrite HIm, bool_decide_eq_false_2. }
    rewrite (call_mesh_ok _ _ _ mesh_incRefCount Hsx).
    eexists. split; [reflexivity|]. unfold I.
    cbn [scene_meshes scene_arrays scene_renders].
    split; [done|]. split; [done|]. split; [by rewrite length_insert|].
    intros l. rewrite (cells_take_S _ _ _ Hc).
    destruct (decide (l = m)) as [->|Hne].
    + rewrite list_lookup_insert_eq by (by eapply lookup_lt_Some).
      rewrite bool_decide_eq_true_2, Hx; [done|]. apply elem_of_app. right. left.
    + rewrite list_lookup_insert_ne by done. rewrite HIm.
      destruct (decide (l ∈ cells (take i xs))) as [Hl|Hl].
      * rewrite !bool_decide_eq_true_2; [done| |done]. apply elem_of_app. by left.
      * rewrite !bool_decide_eq_false_2; [done| |done].
        rewrite elem_of_app, list_elem_of_singleton. tauto.
  - destruct HI as (HIr & HIa & HIl & HIm).
    exists (scene_meshes sc'). rewrite Hrun. split; [|split; [done|]].
    + f_equal. destruct sc' as [m1 a1 r1]. cbn in *. by subst.
    + intros l. rewrite HIm. by rewrite firstn_all.
Qed.

End OneRender.
Lemma incRefMeshes_null sc this r :
  scene_renders sc !! this = Some r -> _meshes r = None ->
  incRefMeshes this sc = (Ok tt, sc).
Proof.
  intros Hr Hnull. unfold incRefMeshes.
  by rewrite (bind_ok _ _ _ _ _ (load_render_ok _ _ _ Hr)), Hnull.
Qed.

Lemma decRefMeshes_null sc this r :
  scene_renders sc !! this = Some r -> _meshes r = None ->
  decRefMeshes this sc = (Ok tt, sc).
Proof.
  intros Hr Hnull. unfold decRefMeshes.
  by rewrite (bind_ok _ _ _ _ _ (load_render_ok _ _ _ Hr)), Hnull.
Qed.

Lemma fire_ok sc this r name arg :
  scene_renders sc !! this = Some r ->
  fire this name arg sc
  = (Ok tt, Scene (scene_meshes sc) (scene_arrays sc)
                  (<[this:=MkRender (_meshes r) (fired r ++ [(name, arg)])]>
                     (scene_renders sc))).
Proof. intros Hr. unfold fire. by rewrite (bind_ok _ _ _ _ _ (load_render_ok _ _ _ Hr)). Qed.

(** The end of [set meshes(value)], once the old meshes are released. *)
Lemma set_meshes_tail sc this r value sc2 :
  scene_renders sc !! this = Some r ->
  incRefMeshes this (Scene (scene_meshes sc) (scene_arrays sc)
                           (<[this:=MkRender value (fired r)]> (scene_renders sc)))
  = (Ok tt, sc2) ->
  scene_renders sc2 = <[this:=MkRender value (fired r)]> (scene_renders sc) ->
  (let! r := load_render this in
   do! store_render this (MkRender value (fired r)) in
   do! incRefMeshes this in
   fire this "set:meshes" value) sc
  = (Ok tt, Scene (scene_meshes sc2) (scene_arrays sc2)
                  (<[this:=MkRender value (fired r ++ [("set:meshes", value)])]>
                     (scene_renders sc))).
Proof.
  intros Hr Hinc Hrs.
  rewrite (bind_ok _ _ _ _ _ (load_render_ok _ _ _ Hr)).
  unfold store_render at 1. unfold bind at 1.
  rewrite (bind_ok _ _ _ _ _ Hinc).
  rewrite (fire_ok sc2 this (MkRender value (fired r))).
  - cbn [_meshes fired]. by rewrite Hrs, list_insert_insert_eq.
  - rewrite Hrs. apply list_lookup_insert_eq. by eapply lookup_lt_Some.
Qed.

Lemma Render_destroy_run sc this a r xs :
  scene_renders sc !! this = Some r -> _meshes r = Some a ->
  scene_arrays sc !! a = Some xs -> NoDup (cells xs) ->
  (forall m, m ∈ cells xs -> is_Some (scene_meshes sc !! m)) ->
  exists ms',
    Render_destroy this sc
    = (Ok tt, Scene ms' (<[a:=kept (scene_meshes sc) <$> xs]> (scene_arrays sc))
                    (<[this:=MkRender None (fired r ++ [("set:meshes", None)])]>
                       (scene_renders sc))) /\
    forall l, ms' !! l = if bool_decide (l ∈ cells xs)
                         then released <$> scene_meshes sc !! l
                         else scene_meshes sc !! l.
Proof.
  intros Hr Hma Ha Hnd Hms.
  destruct (decRefMeshes_loop sc this a r xs Hr Ha Hnd Hms Hma) as (ms1 & Hdec & _ & Hms1).
  exists ms1. split; [|done].
  unfold Render_destroy, set_meshes. rewrite (bind_ok _ _ _ _ _ Hdec).
  set (sc1 := Scene ms1 (<[a:=kept (scene_meshes sc) <$> xs]> (scene_arrays sc))
                    (scene_renders sc)).
  set (sc2 := Scene (scene_meshes sc1) (scene_arrays sc1)
                    (<[this:=MkRender None (fired r)]> (scene_renders sc1))).
  rewrite (set_meshes_tail sc1 this r None sc2); [done|done| |done].
  apply (incRefMeshes_null sc2 this (MkRender None (fired r))); [|done].
  cbn. apply list_lookup_insert_eq. by eapply lookup_lt_Some.
Qed.

Lemma get_meshes_ok sc this r :
  scene_renders sc !! this = Some r -> get_meshes this sc = (Ok (_meshes r), sc).
Proof.
  intros Hr. unfold get_meshes. by rewrite (bind_ok _ _ _ _ _ (load_render_ok _ _ _ Hr)).
Qed.

(** X21.  [destroy()] releases the meshes of a render: the render ends with no
    meshes, every mesh of its array (the cells are distinct meshes) has had
    [decRefCount] called once and, when its count then is below one,
    [destroy()]; the cells of the meshes destroyed are null afterwards, in
    the array the caller handed over; every other mesh and array is as
    before, and 'set:meshes' is fired with null. *)
Theorem Render_destroy_releases sc this a r xs :
  scene_renders sc !! this = Some r -> _meshes r = Some a ->
  scene_arrays sc !! a = Some xs -> NoDup (cells xs) ->
  (forall m, m ∈ cells xs -> is_Some (scene_meshes sc !! m)) ->
  exists sc',
    Render_destroy this sc = (Ok tt, sc') /\
    get_meshes this sc' = (Ok None, sc') /\
    scene_renders sc'
    = <[this:=MkRender None (fired r ++ [("set:meshes", None)])]> (scene_renders sc) /\
    scene_arrays sc' = <[a:=kept (scene_meshes sc) <$> xs]> (scene_arrays sc) /\
    forall l, scene_meshes sc' !! l
              = if bool_decide (l ∈ cells xs)
                then released <$> scene_meshes sc !! l
                else scene_meshes sc !! l.
Proof.
  intros Hr Hma Ha Hnd Hms.
  destruct (Render_destroy_run sc this a r xs Hr Hma Ha Hnd Hms) as (ms' & Hrun & Hms').
  eexists. split; [exact Hrun|]. split; [|done].
  apply (get_meshes_ok _ this (MkRender None (fired r ++ [("set:meshes", None)]))).
  cbn. apply list_lookup_insert_eq. by eapply lookup_lt_Some.
Qed.

Lemma set_meshes_null_run sc this a r xs :
  scene_renders sc !! this = Some r -> _meshes r = None ->
  scene_arrays sc !! a = Some xs -> NoDup (cells xs) ->
  (forall m, m ∈ cells xs -> is_Some (scene_meshes sc !! m)) ->
  exists ms',
    set_meshes this (Some a) sc
    = (Ok tt, Scene ms' (scene_arrays sc)
                    (<[this:=MkRender (Some a) (fired r ++ [("set:meshes", Some a)])]>
                       (scene_renders sc))) /\
    forall l, ms' !! l = if bool_decide (l ∈ cells xs)
                         then mesh_incRefCount <$> scene_meshes sc !! l
                         else scene_meshes sc !! l.
Proof.
  intros Hr Hnull Ha Hnd Hms.
  set (sc1 := Scene (scene_meshes sc) (scene_arrays sc)
                    (<[this:=MkRender (Some a) (fired r)]> (scene_renders sc))).
  destruct (incRefMeshes_loop sc1 this a (MkRender (Some a) (fired r)) xs)
    as (ms1 & Hinc & _ & Hms1); try done.
  { cbn. apply list_lookup_insert_eq. by eapply lookup_lt_Some. }
  exists ms1. split; [|done].
  unfold set_meshes. rewrite (bind_ok _ _ _ _ _ (decRefMeshes_null _ _ _ Hr Hnull)).
  by rewrite (set_meshes_tail sc this r (Some a) _ Hr Hinc).
Qed.

(** X22.  [render.meshes = value] on a render without meshes: every mesh of the
    array (the cells are distinct meshes) has had [incRefCount] called once,
    the array is as it was and is now the render's (the same object, not a
    copy), and 'set:meshes' is fired with it. *)
Theorem set_meshes_first sc this a r xs :
  scene_renders sc !! this = Some r -> _meshes r = None ->
  scene_arrays sc !! a = Some xs -> NoDup (cells xs) ->
  (forall m, m ∈ cells xs -> is_Some (scene_meshes sc !! m)) ->
  exists sc',
    set_meshes this (Some a) sc = (Ok tt, sc') /\
    get_meshes this sc' = (Ok (Some a), sc') /\
    scene_renders sc'
    = <[this:=MkRender (Some a) (fired r ++ [("set:meshes", Some a)])]> (scene_renders sc) /\
    scene_arrays sc' = scene_arrays sc /\
    forall l, scene_meshes sc' !! l
              = if bool_decide (l ∈ cells xs)
                then mesh_incRefCount <$> scene_meshes sc !! l
                else scene_meshes sc !! l.
Proof.
  intros Hr Hnull Ha Hnd Hms.
  destruct (set_meshes_null_run sc this a r xs Hr Hnull Ha Hnd Hms) as (ms' & Hrun & Hms').
  eexists. split; [exact Hrun|]. split; [|done].
  apply (get_meshes_ok _ this (MkRender (Some a) (fired r ++ [("set:meshes", Some a)]))).
  cbn. apply list_lookup_insert_eq. by eapply lookup_lt_Some.
Qed.

Lemma cells_cons (c : option loc) xs :
  cells (c :: xs) = match c with Some m => m :: cells xs | None => cells xs end.
Proof. by destruct c. Qed.

Lemma cells_kept ms xs :
  cells (kept ms <$> xs)
  = filter (λ m, from_option survives false (ms !! m) = true) (cells xs).
Proof.
  induction xs as [|c xs IH]; [done|].
  rewrite fmap_cons, !cells_cons, IH. destruct c as [m|]; [|done].
  rewrite filter_cons. unfold kept. cbn [mbind option_bind].
  destruct (ms !! m) as [x|] eqn:Hx; cbn [from_option mbind option_bind].
  - destruct (survives x) eqn:Hs.
    + by rewrite decide_True.
    + by rewrite decide_False.
  - by rewrite decide_False.
Qed.

(** X23.  [render.meshes = render.meshes]: assigning a render the array it holds
    releases before it acquires.  A mesh that survives the release has had
    [decRefCount] and then [incRefCount] called; a mesh the render held the
    last reference to is destroyed and its cell is null afterwards: the
    render has lost it. *)
Theorem set_meshes_same_array sc this a r xs :
  scene_renders sc !! this = Some r -> _meshes r = Some a ->
  scene_arrays sc !! a = Some xs -> NoDup (cells xs) ->
  (forall m, m ∈ cells xs -> is_Some (scene_meshes sc !! m)) ->
  exists ms',
    set_meshes this (Some a) sc
    = (Ok tt, Scene ms' (<[a:=kept (scene_meshes sc) <$> xs]> (scene_arrays sc))
                    (<[this:=MkRender (Some a) (fired r ++ [("set:meshes", Some a)])]>
                       (scene_renders sc))) /\
    forall l, ms' !! l
      = if bool_decide (l ∈ cells xs)
        then (λ x, if survives x then mesh_incRefCount (mesh_decRefCount x)
                   else mesh_destroy (mesh_decRefCount x)) <$> scene_meshes sc !! l
        else scene_meshes sc !! l.
Proof.
  intros Hr Hma Ha Hnd Hms.
  destruct (decRefMeshes_loop sc this a r xs Hr Ha Hnd Hms Hma) as (ms1 & Hdec & Hlen1 & Hms1).
  set (ys := kept (scene_meshes sc) <$> xs) in *.
  set (sc1 := Scene ms1 (<[a:=ys]> (scene_arrays sc)) (scene_renders sc)) in *.
  set (sc2 := Scene (scene_meshes sc1) (scene_arrays sc1)
                    (<[this:=MkRender (Some a) (fired r)]> (scene_renders sc1))).
  assert (Hsub : forall m, m ∈ cells ys ->
            m ∈ cells xs /\ exists x, scene_meshes sc !! m = Some x /\ survives x = true).
  { intros m. unfold ys. rewrite cells_kept, list_elem_of_filter. intros [Hsv Hin].
    split; [done|]. destruct (scene_meshes sc !! m) as [x|]; [|done]. by exists x. }
  destruct (incRefMeshes_loop sc2 this a (MkRender (Some a) (fired r)) ys)
    as (ms2 & Hinc & _ & Hms2); try done.
  { cbn. apply list_lookup_insert_eq. by eapply lookup_lt_Some. }
  { cbn. apply list_lookup_insert_eq. by eapply lookup_lt_Some. }
  { unfold ys. rewrite cells_kept. by apply NoDup_filter. }
  { intros m Hm. cbn. destruct (Hsub m Hm) as [Hin _].
    rewrite Hms1, bool_decide_eq_true_2 by done.
    destruct (Hms m Hin) as [x ->]. by eexists. }
  exists ms2. split.
  - unfold set_meshes. rewrite (bind_ok _ _ _ _ _ Hdec).
    by rewrite (set_meshes_tail sc1 this r (Some a) _ Hr Hinc).
  - intros l. rewrite Hms2. cbn [scene_meshes sc2 sc1]. rewrite Hms1.
    destruct (decide (l ∈ cells xs)) as [Hl|Hl].
    + rewrite (bool_decide_eq_true_2 (l ∈ cells xs)) by done.
      destruct (Hms l Hl) as [x Hx]. rewrite Hx. cbn.
      unfold released, survives.
      destruct (decide (l ∈ cells ys)) as [Hy|Hy].
      * rewrite bool_decide_eq_true_2 by done.
        destruct (Hsub l Hy) as (_ & x' & Hx' & Hsv). rewrite Hx in Hx'. injection Hx' as <-.
        unfold survives in Hsv. apply negb_true_iff in Hsv. by rewrite Hsv.
      * rewrite bool_decide_eq_false_2 by done.
        destruct (mesh_getRefCount (mesh_decRefCount x) <? 1)%Z eqn:Hc; [done|].
        exfalso. apply Hy. unfold ys. rewrite cells_kept, list_elem_of_filter.
        split; [|done]. rewrite Hx. cbn. unfold survives. by rewrite Hc.
    + rewrite (bool_decide_eq_false_2 (l ∈ cells xs)) by done.
      rewrite bool_decide_eq_false_2; [done|]. intros Hy. by destruct (Hsub l Hy).
Qed.

(** X24.  Acquire and release are balanced: for meshes whose [decRefCount] undoes
    [incRefCount], giving a render without meshes an array of meshes that
    somebody else holds too (each count is at least one) and destroying the
    render leaves every mesh and every array exactly as it was. *)
Theorem set_meshes_then_destroy sc this a r xs :
  (forall x : mesh, mesh_decRefCount (mesh_incRefCount x) = x) ->
  scene_renders sc !! this = Some r -> _meshes r = None ->
  scene_arrays sc !! a = Some xs -> NoDup (cells xs) ->
  (forall m, m ∈ cells xs ->
     exists x, scene_meshes sc !! m = Some x /\ (1 <= mesh_getRefCount x)%Z) ->
  exists sc1 sc2,
    set_meshes this (Some a) sc = (Ok tt, sc1) /\
    Render_destroy this sc1 = (Ok tt, sc2) /\
    scene_meshes sc2 = scene_meshes sc /\
    scene_arrays sc2 = scene_arrays sc /\
    _meshes <$> scene_renders sc2 !! this = Some None.
Proof.
  intros Hlaw Hr Hnull Ha Hnd Hheld.
  assert (Hms : forall m, m ∈ cells xs -> is_Some (scene_meshes sc !! m)).
  { intros m Hm. destruct (Hheld m Hm) as (x & -> & _). by eexists. }
  destruct (set_meshes_null_run sc this a r xs Hr Hnull Ha Hnd Hms) as (ms1 & Hset & Hms1).
  set (r1 := MkRender (Some a) (fired r ++ [("set:meshes", Some a)])) in *.
  set (sc1 := Scene ms1 (scene_arrays sc) (<[this:=r1]> (scene_renders sc))) in *.
  destruct (Render_destroy_run sc1 this a r1 xs) as (ms2 & Hdestroy & Hms2); try done.
  { cbn. apply list_lookup_insert_eq. by eapply lookup_lt_Some. }
  { intros m Hm. cbn. rewrite Hms1, bool_decide_eq_true_2 by done.
    destruct (Hms m Hm) as [x ->]. by eexists. }
  eexists _, _. split; [exact Hset|]. split; [exact Hdestroy|].
  cbn [scene_meshes scene_arrays scene_renders sc1].
  split; [|split].
  - apply list_eq. intros l. rewrite Hms2. cbn [scene_meshes sc1]. rewrite Hms1.
    destruct (decide (l ∈ cells xs)) as [Hl|Hl].
    + rewrite bool_decide_eq_true_2 by done.
      destruct (Hheld l Hl) as (x & -> & Hx). cbn. unfold released. rewrite Hlaw.
      by rewrite (proj2 (Z.ltb_ge _ _) Hx).
    + by rewrite bool_decide_eq_false_2.
  - apply list_insert_id. rewrite Ha. f_equal.
    apply list_eq. intros i. rewrite list_lookup_fmap.
    destruct (xs !! i) as [[m|]|] eqn:Hi; [|done|done]. cbn. f_equal.
    unfold kept. cbn. rewrite Hms1, bool_decide_eq_true_2 by (by eapply cells_elem).
    destruct (Hheld m (cells_elem _ _ _ Hi)) as (x & -> & Hx). cbn.
    unfold survives. rewrite Hlaw. by rewrite (proj2 (Z.ltb_ge _ _) Hx).
  - rewrite list_insert_insert_eq, list_lookup_insert_eq; [done|]. by eapply lookup_lt_Some.
Qed.

End RenderProofs.

(** *** The properties of Render on the example scene *)

Lemma Render_destroy_releases_witness :
  exists sc',
    Render_destroy 0 example_scene = (Ok tt, sc') /\
    scene_arrays sc' = [[None; None; Some 1]] /\
    scene_meshes sc' !! 0 = Some (Counted 0 true) /\
    scene_meshes sc' !! 1 = Some (Counted 1 false).
Proof.
  destruct (Render_destroy_releases example_scene 0 0 (MkRender (Some 0) [])
              [Some 0; None; Some 1]) as (sc' & Hrun & _ & _ & Harr & Hms).
  - reflexivity.
  - reflexivity.
  - reflexivity.
  - compute_done.
  - apply (proj1 (Forall_forall _ _)). compute_done.
  - exists sc'. split; [exact Hrun|]. split; [exact Harr|]. rewrite !Hms. split; reflexivity.
Defined.

Lemma set_meshes_first_witness :
  exists sc',
    set_meshes 1 (Some 0) example_scene = (Ok tt, sc') /\
    get_meshes 1 sc' = (Ok (Some 0), sc') /\
    scene_meshes sc' !! 0 = Some (Counted 2 false) /\
    scene_meshes sc' !! 1 = Some (Counted 3 false).
Proof.
  destruct (set_meshes_first example_scene 1 0 (MkRender None [])
              [Some 0; None; Some 1]) as (sc' & Hrun & Hget & _ & _ & Hms).
  - reflexivity.
  - reflexivity.
  - reflexivity.
  - compute_done.
  - apply (proj1 (Forall_forall _ _)). compute_done.
  - exists sc'. split; [exact Hrun|]. split; [exact Hget|]. rewrite !Hms. split; reflexivity.
Defined.

Lemma set_meshes_same_array_witness :
  exists ms',
    set_meshes 0 (Some 0) example_scene
    = (Ok tt, Scene ms' [[None; None; Some 1]]
                    [MkRender (Some 0) [("set:meshes", Some 0)]; MkRender None []]) /\
    ms' !! 0 = Some (Counted 0 true) /\ ms' !! 1 = Some (Counted 2 false).
Proof.
  destruct (set_meshes_same_array example_scene 0 0 (MkRender (Some 0) [])
              [Some 0; None; Some 1]) as (ms' & Hrun & Hms).
  - reflexivity.
  - reflexivity.
  - reflexivity.
  - compute_done.
  - apply (proj1 (Forall_forall _ _)). compute_done.
  - exists ms'. split; [exact Hrun|]. rewrite !Hms. split; reflexivity.
Defined.

Lemma set_meshes_then_destroy_witness :
  let sc := Scene [Counted 1 false; Counted 2 false] [[Some 0; None; Some 1]]
                  [MkRender None []] in
  exists sc1 sc2,
    set_meshes 0 (Some 0) sc = (Ok tt, sc1) /\
    Render_destroy 0 sc1 = (Ok tt, sc2) /\
    scene_meshes sc2 = [Counted 1 false; Counted 2 false] /\
    scene_arrays sc2 = [[Some 0; None; Some 1]].
Proof.
  intros sc.
  destruct (set_meshes_then_destroy sc 0 0 (MkRender None []) [Some 0; None; Some 1])
    as (sc1 & sc2 & Hset & Hdestroy & Hms & Harr & _).
  - intros [c d]. cbn. f_equal. lia.
  - reflexivity.
  - reflexivity.
  - reflexivity.
  - compute_done.
  - intros m Hm. apply elem_of_cons in Hm as [->|Hm]; [eexists; split; [reflexivity|cbn; lia]|].
    apply list_elem_of_singleton in Hm as ->. eexists; split; [reflexivity|cbn; lia].
  - exists sc1, sc2. split; [exact Hset|]. split; [exact Hdestroy|]. split; [exact Hms|exact Harr].
Defined.

(** ** LayoutChildComponent *)

(** A new component holds the defaults. *)
Example LayoutChildComponent_new_defaults :
  (fun name => resize_get name LayoutChildComponent_new) <$> resize_properties
  = [VNumber 0; VNumber 0; VNull; VNull; VNumber 0; VNumber 0; VBoolean false].
Proof. reflexivity. Qed.

